(** * exr-wrapper: the re-wrapping core of [wrapper.py]

    A shallow embedding of [split_subimages], [update_specs] and [rewrap]
    from [src/wrapper.py].  The OpenImageIO data they handle ([ROI],
    [ImageSpec], [ImageBuf]) are records; pixel buffers are kept as the
    library calls that make them; what the library decides on its own
    ([nonzero_region], which names the regular expression of
    [erase_attribute] matches and whether the call raises, what an
    [ImageOutput] answers) is a parameter of the embedding.  [rewrap]
    returns its result together with the calls it made on the output.

    Printing to the terminal is not modelled, and
    [ImageOutput.create(dst)] is taken to return an output: a
    destination no plugin can write is outside the embedding. *)

From Stdlib Require Import ZArith List String Ascii Bool Lia DecimalString.
Import ListNotations.

Open Scope string_scope.
Open Scope list_scope.
Open Scope Z_scope.

(** ** Python values used by the code *)

Module Py.

(** [needle in hay] on strings. *)
Fixpoint contains (needle hay : string) : bool :=
  String.prefix needle hay
  || match hay with
     | EmptyString => false
     | String _ rest => contains needle rest
     end.

(** [s.split(sep)[0]] for a one-character separator: what comes before
    the first [sep], the whole of [s] when there is none. *)
Fixpoint split_head (sep : ascii) (s : string) : string :=
  match s with
  | EmptyString => EmptyString
  | String c rest =>
      if Ascii.eqb c sep then EmptyString else String c (split_head sep rest)
  end.

Fixpoint lstrip (ch : ascii) (s : string) : string :=
  match s with
  | EmptyString => EmptyString
  | String c rest => if Ascii.eqb c ch then lstrip ch rest else s
  end.

Fixpoint rev_onto (s acc : string) : string :=
  match s with
  | EmptyString => acc
  | String c rest => rev_onto rest (String c acc)
  end.

Definition rev (s : string) : string := rev_onto s EmptyString.

(** [s.strip(ch)] for a one-character set. *)
Definition strip (ch : ascii) (s : string) : string :=
  rev (lstrip ch (rev (lstrip ch s))).

(** Truth value of a string: the empty string is false. *)
Definition truthy (s : string) : bool :=
  match s with EmptyString => false | _ => true end.

(** An ASCII letter in lower case, any other character as it is. *)
Definition lower_char (c : ascii) : ascii :=
  let n := nat_of_ascii c in
  if ((65 <=? n) && (n <=? 90))%nat then ascii_of_nat (n + 32) else c.

Fixpoint lower (s : string) : string :=
  match s with
  | EmptyString => EmptyString
  | String c rest => String (lower_char c) (lower rest)
  end.

(** Two names that differ at most in the case of their ASCII letters:
    how OpenImageIO compares attribute names. *)
Definition iequals (a b : string) : bool := String.eqb (lower a) (lower b).

(** [x in l] on a list of strings. *)
Definition mem (x : string) (l : list string) : bool :=
  existsb (String.eqb x) l.

(** The exceptions the modelled code can raise. *)
Inductive exn : Type :=
| IndexError
| AttributeError
| RuntimeWarning
| TypeError.

(** A call either returns or raises. *)
Inductive outcome (A : Type) : Type :=
| Ret (a : A)
| Raise (e : exn).
Arguments Ret {A} a.
Arguments Raise {A} e.

Definition bind {A B : Type} (m : outcome A) (k : A -> outcome B) : outcome B :=
  match m with
  | Ret a => k a
  | Raise e => Raise e
  end.

(** [l[i]] with Python's negative indices; out of range raises. *)
Definition index {A : Type} (l : list A) (i : Z) : outcome A :=
  let n := Z.of_nat (List.length l) in
  let j := if i <? 0 then i + n else i in
  if (j <? 0) || (n <=? j) then Raise IndexError
  else match nth_error l (Z.to_nat j) with
       | Some a => Ret a
       | None => Raise IndexError
       end.

(** A slice bound brought into [0, len], as Python does. *)
Definition clamp (len i : Z) : Z :=
  if i <? 0 then Z.max (i + len) 0 else Z.min i len.

(** [l[start:stop]]. *)
Definition slice {A : Type} (l : list A) (start stop : Z) : list A :=
  let n := Z.of_nat (List.length l) in
  let a := clamp n start in
  let b := clamp n stop in
  firstn (Z.to_nat (b - a)) (skipn (Z.to_nat a) l).

End Py.

Import Py.

Notation "x <- m ;; k" := (bind m (fun x => k))
  (at level 61, m at next level, right associativity).

(** ** OpenImageIO data *)

(** The value of a metadata attribute as Python sees it.  A float is kept
    as an opaque payload: the code only copies it. *)
Inductive pyvalue : Type :=
| VStr (s : string)
| VInt (z : Z)
| VFloat (bits : Z)
| VOther (payload : list Z)
| VNone.

(** A type descriptor, by its name ([string], [int], [float], [half] ...). *)
Definition TypeDesc : Type := string.

(** One entry of [extra_attribs]. *)
Record ParamValue : Type := mkParam {
  pv_name : string;
  pv_type : TypeDesc;
  pv_value : pyvalue
}.

Record ROI : Type := mkROI {
  xbegin : Z; xend : Z;
  ybegin : Z; yend : Z;
  zbegin : Z; zend : Z;
  chbegin : Z; chend : Z
}.

Definition set_chend (r : ROI) (c : Z) : ROI :=
  mkROI (xbegin r) (xend r) (ybegin r) (yend r) (zbegin r) (zend r) (chbegin r) c.


(** The fields of an [ImageSpec] the code reads or writes, and the origin
    of the data window, which the [roi] property reads and writes. *)
Record ImageSpec : Type := mkSpec {
  spec_x : Z; spec_y : Z; spec_z : Z;
  width : Z; height : Z; depth : Z;
  full_width : Z; full_height : Z;
  full_x : Z; full_y : Z; full_z : Z;
  nchannels : Z;
  format : TypeDesc;
  channelformats : list TypeDesc;
  channelnames : list string;
  extra_attribs : list ParamValue
}.

(** A pixel of a loaded image: its position and one sample per channel. *)
Record Pixel : Type := mkPixel {
  px : Z; py : Z;
  samples : list Z
}.

(** One loaded subimage: [ImageBuf(src, i, 0)]. *)
Record ImageBuf : Type := mkBuf {
  nativespec : ImageSpec;
  roi : ROI;
  pixels : list Pixel
}.

(** A source file: its first subimage and the ones after it. *)
Record ImageFile : Type := mkFile {
  first_subimage : ImageBuf;
  more_subimages : list ImageBuf
}.

Definition subimages (f : ImageFile) : list ImageBuf :=
  first_subimage f :: more_subimages f.

Definition nsubimages (f : ImageFile) : Z :=
  Z.of_nat (List.length (subimages f)).

(** A pixel buffer, by the library calls that produce it: the code hands
    buffers from [ImageBufAlgo.channels] to [ImageBufAlgo.cut] and on to
    [write_image] without looking inside. *)
Inductive Buffer : Type :=
| Loaded (b : ImageBuf)
| Channels (src : Buffer) (names : list string)
| Cut (src : Buffer) (r : ROI).

(** *** Fields of a spec *)

Definition with_extra_attribs (l : list ParamValue) (s : ImageSpec) : ImageSpec :=
  mkSpec (spec_x s) (spec_y s) (spec_z s) (width s) (height s) (depth s)
    (full_width s) (full_height s) (full_x s) (full_y s) (full_z s)
    (nchannels s) (format s) (channelformats s) (channelnames s) l.

Definition with_channelnames (names : list string) (s : ImageSpec) : ImageSpec :=
  mkSpec (spec_x s) (spec_y s) (spec_z s) (width s) (height s) (depth s)
    (full_width s) (full_height s) (full_x s) (full_y s) (full_z s)
    (nchannels s) (format s) (channelformats s) names (extra_attribs s).

(** Lines 149-154: the display window and the depth of [src] on [s]. *)
Definition with_full (src s : ImageSpec) : ImageSpec :=
  mkSpec (spec_x s) (spec_y s) (spec_z s) (width s) (height s) (depth src)
    (full_width src) (full_height src) (full_x src) (full_y src) (full_z src)
    (nchannels s) (format s) (channelformats s) (channelnames s)
    (extra_attribs s).

(** [spec.roi]: the data window of the spec over all its channels.  The
    spec keeps origin and size; the channel range is rebuilt from the
    channel count at every read. *)
Definition spec_roi (s : ImageSpec) : ROI :=
  mkROI (spec_x s) (spec_x s + width s)
        (spec_y s) (spec_y s + height s)
        (spec_z s) (spec_z s + depth s)
        0 (nchannels s).

(** [spec.roi = r]: origin and size are taken from [r]; its channel
    range is dropped. *)
Definition with_roi (r : ROI) (s : ImageSpec) : ImageSpec :=
  mkSpec (xbegin r) (ybegin r) (zbegin r)
    (xend r - xbegin r) (yend r - ybegin r) (zend r - zbegin r)
    (full_width s) (full_height s) (full_x s) (full_y s) (full_z s)
    (nchannels s) (format s) (channelformats s) (channelnames s)
    (extra_attribs s).

(** [oiio.ImageSpec(width, height, nchannels, typedesc)]: no per-channel
    formats, no metadata; the channel names are replaced by the caller. *)
Definition ImageSpec_new (w h nch : Z) (ty : TypeDesc) : ImageSpec :=
  mkSpec 0 0 0 w h 1 w h 0 0 0 nch ty [] [] [].

(** *** Attributes of a spec *)

(** [spec.attribute(name, type, value)]: the first entry of that name,
    compared without regard to case, is replaced by the new one; the
    new one is appended when there is none. *)
Fixpoint set_attrib (pv : ParamValue) (l : list ParamValue) : list ParamValue :=
  match l with
  | [] => [pv]
  | a :: rest =>
      if iequals (pv_name a) (pv_name pv) then pv :: rest
      else a :: set_attrib pv rest
  end.

Definition attribute3 (name : string) (ty : TypeDesc) (v : pyvalue)
    (s : ImageSpec) : ImageSpec :=
  with_extra_attribs (set_attrib (mkParam name ty v) (extra_attribs s)) s.

(** [spec.attribute(name, value)] and [spec[name] = value]: the type
    comes from the Python value; a value that is no string, int or float
    ([None] among them) fits no overload and raises [TypeError]. *)
Definition attribute2 (name : string) (v : pyvalue) (s : ImageSpec)
    : outcome ImageSpec :=
  match v with
  | VStr _ => Ret (attribute3 name "string" v s)
  | VInt _ => Ret (attribute3 name "int" v s)
  | VFloat _ => Ret (attribute3 name "float" v s)
  | VOther _ | VNone => Raise TypeError
  end.

(** [spec.getattribute(name)] for a name that is no field of the spec:
    the value of the first entry of that name, compared without regard
    to case; [None] when there is no such entry. *)
Definition getattribute (name : string) (s : ImageSpec) : pyvalue :=
  match find (fun a => iequals (pv_name a) name) (extra_attribs s) with
  | Some a => pv_value a
  | None => VNone
  end.

(** [spec.erase_attribute(name)] takes [name] as a regular expression
    and removes every entry whose whole name it matches, without regard
    to case; [matched] tells which names those are. *)
Definition erase_attribute (matched : string -> bool) (l : list ParamValue)
    : list ParamValue :=
  filter (fun a => negb (matched (pv_name a))) l.

(** ** The [properties] dictionary

    [rewrap] collects its arguments with [locals()] and threads the
    resulting dictionary through [update_specs] and [split_subimages],
    which add the grouping state to it.  The keys the code reads are the
    fields below; [current_sub], [sub_start] and [sub_end] are written
    before they are read. *)

Record properties : Type := mkProps {
  p_autocrop : bool;
  p_multipart : bool;
  p_rm_manifest : bool;
  p_fix_channels : bool;
  p_compression : option string;
  p_verbose : bool;
  p_roi : ROI;
  recent_sub : string;
  current_sub : string;
  sub_ch_count : Z;
  sub_start : Z;
  sub_end : Z;
  sub_specs : list ImageSpec;
  sub_pixels : list Buffer;
  sub_names : list pyvalue
}.

Definition set_compression (c : option string) (p : properties) : properties :=
  mkProps (p_autocrop p) (p_multipart p) (p_rm_manifest p) (p_fix_channels p)
    c (p_verbose p) (p_roi p) (recent_sub p) (current_sub p)
    (sub_ch_count p) (sub_start p) (sub_end p)
    (sub_specs p) (sub_pixels p) (sub_names p).

Definition set_roi (r : ROI) (p : properties) : properties :=
  mkProps (p_autocrop p) (p_multipart p) (p_rm_manifest p) (p_fix_channels p)
    (p_compression p) (p_verbose p) r (recent_sub p) (current_sub p)
    (sub_ch_count p) (sub_start p) (sub_end p)
    (sub_specs p) (sub_pixels p) (sub_names p).

Definition set_recent_sub (s : string) (p : properties) : properties :=
  mkProps (p_autocrop p) (p_multipart p) (p_rm_manifest p) (p_fix_channels p)
    (p_compression p) (p_verbose p) (p_roi p) s (current_sub p)
    (sub_ch_count p) (sub_start p) (sub_end p)
    (sub_specs p) (sub_pixels p) (sub_names p).

Definition set_current_sub (s : string) (p : properties) : properties :=
  mkProps (p_autocrop p) (p_multipart p) (p_rm_manifest p) (p_fix_channels p)
    (p_compression p) (p_verbose p) (p_roi p) (recent_sub p) s
    (sub_ch_count p) (sub_start p) (sub_end p)
    (sub_specs p) (sub_pixels p) (sub_names p).

Definition set_sub_ch_count (n : Z) (p : properties) : properties :=
  mkProps (p_autocrop p) (p_multipart p) (p_rm_manifest p) (p_fix_channels p)
    (p_compression p) (p_verbose p) (p_roi p) (recent_sub p) (current_sub p)
    n (sub_start p) (sub_end p)
    (sub_specs p) (sub_pixels p) (sub_names p).

Definition set_sub_range (a b : Z) (p : properties) : properties :=
  mkProps (p_autocrop p) (p_multipart p) (p_rm_manifest p) (p_fix_channels p)
    (p_compression p) (p_verbose p) (p_roi p) (recent_sub p) (current_sub p)
    (sub_ch_count p) a b
    (sub_specs p) (sub_pixels p) (sub_names p).

(** The three [append] calls that record one subimage. *)
Definition append_sub (name : pyvalue) (spec : ImageSpec) (buf : Buffer)
    (p : properties) : properties :=
  mkProps (p_autocrop p) (p_multipart p) (p_rm_manifest p) (p_fix_channels p)
    (p_compression p) (p_verbose p) (p_roi p) (recent_sub p) (current_sub p)
    (sub_ch_count p) (sub_start p) (sub_end p)
    (sub_specs p ++ [spec]) (sub_pixels p ++ [buf]) (sub_names p ++ [name]).

(** [properties.get('compression')] as a condition: neither [None] nor
    the empty string. *)
Definition compression_given (p : properties) : option string :=
  match p_compression p with
  | Some c => if truthy c then Some c else None
  | None => None
  end.

(** ** [split_subimages] *)

(** Lines 126-129: the layer a channel belongs to. *)
Definition group_key (channel_name : string) : string :=
  if mem channel_name ["R"; "G"; "B"; "A"] then "rgba"
  else split_head "." channel_name.

(** Lines 157-166: the source's metadata copied onto a new spec. *)
Definition copy_metadata (rm_manifest : bool) (attribs : list ParamValue)
    (subimage_spec : ImageSpec) : outcome ImageSpec :=
  fold_left
    (fun copied a =>
       spec <- copied ;;
       if rm_manifest && contains "manifest" (pv_name a) then Ret spec
       else if mem (pv_type a) ["string"; "int"; "float"]
            then attribute2 (pv_name a) (pv_value a) spec
            else Ret (attribute3 (pv_name a) (pv_type a) (pv_value a) spec))
    attribs (Ret subimage_spec).

(** Lines 173-178: the output names of a group's channels. *)
Definition fix_channel_names (src_channel_names : list string) : list string :=
  fold_left
    (fun dst_channel_names channel_name =>
       let channel_name :=
         if contains "depth.z" channel_name then "depth.Z" else channel_name in
       dst_channel_names ++ [channel_name])
    src_channel_names [].

(** Lines 137-188: the subimage that closes at [channelindex] is added to
    the dictionary. *)
Definition close_subimage (image_in : ImageBuf) (channelindex : Z)
    (p : properties) : outcome properties :=
  let native := nativespec image_in in
  let p := set_sub_range (channelindex - sub_ch_count p) (channelindex - 1) p in
  typedesc <-
    (match channelformats native with
     | [] => Ret (format native)
     | _ => index (channelformats native) (sub_start p)
     end) ;;
  let subimage_spec :=
    ImageSpec_new (width native) (height native) (sub_ch_count p) typedesc in
  let subimage_spec := with_roi (p_roi p) subimage_spec in
  let subimage_spec := with_full native subimage_spec in
  subimage_spec <-
    (if sub_start p =? 0
     then copy_metadata (p_rm_manifest p) (extra_attribs native) subimage_spec
     else Ret subimage_spec) ;;
  subimage_spec <-
    (match compression_given p with
     | Some c => attribute2 "compression" (VStr (strip "'" c)) subimage_spec
     | None =>
         attribute2 "compression" (getattribute "compression" native)
           subimage_spec
     end) ;;
  let src_channel_names :=
    slice (channelnames native) (sub_start p) (sub_end p + 1) in
  let dst_channel_names :=
    if p_fix_channels p then fix_channel_names src_channel_names
    else src_channel_names in
  let subimage_spec := with_channelnames dst_channel_names subimage_spec in
  subimage_spec <- attribute2 "name" (VStr (recent_sub p)) subimage_spec ;;
  let out_buffer := Channels (Loaded image_in) src_channel_names in
  let out_buffer := Cut out_buffer (p_roi p) in
  let p := append_sub (VStr (recent_sub p)) subimage_spec out_buffer p in
  Ret (set_sub_ch_count 0 p).

(** Lines 126-191: one turn of the loop over the channel names. *)
Definition split_step (image_in : ImageBuf) (st : properties * Z)
    (channel_name : string) : outcome (properties * Z) :=
  let '(p, channelindex) := st in
  let nch := nchannels (nativespec image_in) in
  let p := set_current_sub (group_key channel_name) p in
  st' <-
    (if (truthy (recent_sub p) && negb (String.eqb (current_sub p) (recent_sub p)))
        || (channelindex + 1 =? nch)
     then
       let '(p, channelindex) :=
         if channelindex + 1 =? nch
         then (set_sub_ch_count (sub_ch_count p + 1) p, channelindex + 1)
         else (p, channelindex) in
       p <- close_subimage image_in channelindex p ;;
       Ret (p, channelindex)
     else Ret (p, channelindex)) ;;
  let '(p, channelindex) := st' in
  let channelindex := channelindex + 1 in
  let p := set_recent_sub (current_sub p) p in
  let p := set_sub_ch_count (sub_ch_count p + 1) p in
  Ret (p, channelindex).

Fixpoint split_loop (image_in : ImageBuf) (st : properties * Z)
    (names : list string) : outcome (properties * Z) :=
  match names with
  | [] => Ret st
  | channel_name :: rest =>
      st' <- split_step image_in st channel_name ;;
      split_loop image_in st' rest
  end.

(** [split_subimages(image_in, properties)]: [None] stands for the bare
    [return] after the internal-error message. *)
Definition split_subimages (image_in : ImageBuf) (p : properties)
    : outcome (option properties) :=
  let p := set_roi (set_chend (p_roi p) 4) p in
  st <- split_loop image_in (p, 0) (channelnames (nativespec image_in)) ;;
  let p := fst st in
  if Nat.eqb (List.length (sub_specs p)) (List.length (sub_pixels p))
  then Ret (Some p)
  else Ret None.

(** ** [rewrap] *)

(** What [rewrap] asks of an [ImageOutput], in the order of the calls. *)
Inductive call : Type :=
| OpenParts (dst : string) (specs : list ImageSpec)
| OpenAppend (dst : string) (spec : ImageSpec)
| OpenImage (dst : string) (spec : ImageSpec)
| WriteImage (pixels : Buffer)
| Close.

Definition is_write (c : call) : bool :=
  match c with WriteImage _ => true | _ => false end.

Section Library.

(** [ImageBufAlgo.nonzero_region(image, roi=...)]. *)
Variable nonzero_region : ImageBuf -> ROI -> ROI.

(** Whether [erase_attribute] raises [TypeError] on an attribute. *)
Variable erase_fails : ParamValue -> bool.

(** Whether the regular expression [pattern] matches the whole of
    [name], without regard to case, as [erase_attribute] decides it. *)
Variable name_matches : string -> string -> bool.

(** The boolean an [ImageOutput] call returns, given the calls made on
    the output before it. *)
Variable answer : list call -> call -> bool.

(** Lines 214-219: [for attribute in spec.extra_attribs] walks the
    spec's own list by position while [erase_attribute] shortens it. *)
Fixpoint erase_manifests (turns : nat) (position : nat)
    (attribs : list ParamValue) : outcome (list ParamValue) :=
  match turns with
  | O => Ret attribs
  | S turns =>
      match nth_error attribs position with
      | None => Ret attribs
      | Some attribute =>
          if contains "manifest" (pv_name attribute)
          then if erase_fails attribute
               then Raise RuntimeWarning
               else erase_manifests turns (S position)
                      (erase_attribute (name_matches (pv_name attribute))
                         attribs)
          else erase_manifests turns (S position) attribs
      end
  end.

(** Lines 211-222.  The closure reads [compression] after [rewrap] has
    reset it together with the dictionary entry. *)
Definition update_specs (spec : ImageSpec) (p : properties) : outcome ImageSpec :=
  let spec := with_roi (p_roi p) spec in
  attribs <-
    (if p_rm_manifest p
     then erase_manifests (List.length (extra_attribs spec)) 0 (extra_attribs spec)
     else Ret (extra_attribs spec)) ;;
  let spec := with_extra_attribs attribs spec in
  match compression_given p with
  | Some c => attribute2 "Compression" (VStr (strip "'" c)) spec
  | None => Ret spec
  end.

(** Lines 224-235: the dictionary before the subimages are planned. *)
Definition initial_properties (image_in : ImageBuf)
    (autocrop multipart rm_manifest fix_channels : bool)
    (compression : option string) (verbose : bool) : properties :=
  let r := roi image_in in
  let r := if autocrop then nonzero_region image_in r else r in
  let compression :=
    match compression with
    | Some c => if String.eqb c "keep" then None else Some c
    | None => None
    end in
  mkProps autocrop multipart rm_manifest fix_channels compression verbose
    r "" "" 0 0 0 [] [] [].

(** Lines 247-254: the subimages of a file that is multi-part already. *)
Fixpoint copy_subimages (subs : list ImageBuf) (image_in : ImageBuf)
    (p : properties) : outcome (properties * ImageBuf) :=
  match subs with
  | [] => Ret (p, image_in)
  | image_in :: rest =>
      spec <- update_specs (nativespec image_in) p ;;
      let buffer := Cut (Loaded image_in) (p_roi p) in
      let p :=
        append_sub (getattribute "name" (nativespec image_in)) spec buffer p in
      copy_subimages rest image_in p
  end.

(** Lines 240-258: the subimages to write, and the image [image_in] is
    bound to afterwards.  [split_subimages] returning [None] makes the
    next [properties.get] raise. *)
Definition plan_subimages (src : ImageFile) (image_in : ImageBuf)
    (p : properties) : outcome (properties * ImageBuf) :=
  if 1 <? nsubimages src
  then copy_subimages (subimages src) image_in p
  else if p_multipart p
  then r <- split_subimages image_in p ;;
       match r with
       | Some p => Ret (p, image_in)
       | None => Raise AttributeError
       end
  else Ret (p, image_in).

(** Lines 266-275: the loop over [sub_pixels].  [None] means the loop
    ran to its end, [Some false] is the early [return False]. *)
Fixpoint write_subimages (dst : string) (p : properties) (i : Z)
    (bufs : list Buffer) (log : list call)
    : outcome (option bool) * list call :=
  match bufs with
  | [] => (Ret None, log)
  | pixels :: rest =>
      let go log :=
        let log := log ++ [WriteImage pixels] in
        write_subimages dst p (i + 1) rest log in
      if negb (i =? 0)
      then match index (sub_specs p) i with
           | Raise e => (Raise e, log)
           | Ret spec =>
               let ok := answer log (OpenAppend dst spec) in
               let log := log ++ [OpenAppend dst spec] in
               if negb ok then (Ret (Some false), log) else go log
           end
      else go log
  end.

(** Lines 259-286: opening the destination and writing. *)
Definition write_output (dst : string) (image_in : ImageBuf) (p : properties)
    : outcome bool * list call :=
  match sub_specs p with
  | _ :: _ =>
      let ok := answer [] (OpenParts dst (sub_specs p)) in
      let log := [OpenParts dst (sub_specs p)] in
      if negb ok then (Ret false, log)
      else match write_subimages dst p 0 (sub_pixels p) log with
           | (Raise e, log) => (Raise e, log)
           | (Ret (Some b), log) => (Ret b, log)
           | (Ret None, log) => (Ret true, log ++ [Close])
           end
  | [] =>
      match update_specs (nativespec image_in) p with
      | Raise e => (Raise e, [])
      | Ret spec =>
          let ok := answer [] (OpenImage dst spec) in
          let log := [OpenImage dst spec] in
          if negb ok then (Ret false, log)
          else
            let buffer := Cut (Loaded image_in) (p_roi p) in
            let log := log ++ [WriteImage buffer] in
            (Ret true, log ++ [Close])
      end
  end.

(** [rewrap(src, dst, autocrop, multipart, rm_manifest, fix_channels,
    compression, verbose)]: what it returns or raises, and the calls it
    made on the output. *)
Definition rewrap (src : ImageFile) (dst : string)
    (autocrop multipart rm_manifest fix_channels : bool)
    (compression : option string) (verbose : bool)
    : outcome bool * list call :=
  let image_in := first_subimage src in
  let p := initial_properties image_in autocrop multipart rm_manifest
             fix_channels compression verbose in
  match plan_subimages src image_in p with
  | Raise e => (Raise e, [])
  | Ret (p, image_in) => write_output dst image_in p
  end.

(** The specs [rewrap] hands to the output: the planned subimages, or
    the single updated spec of lines 277-278 when none was planned. *)
Definition descriptors (src : ImageFile)
    (autocrop multipart rm_manifest fix_channels : bool)
    (compression : option string) (verbose : bool)
    : outcome (list ImageSpec) :=
  let image_in := first_subimage src in
  let p := initial_properties image_in autocrop multipart rm_manifest
             fix_channels compression verbose in
  st <- plan_subimages src image_in p ;;
  let '(p, image_in) := st in
  match sub_specs p with
  | _ :: _ => Ret (sub_specs p)
  | [] => spec <- update_specs (nativespec image_in) p ;; Ret [spec]
  end.

End Library.

(** ** A model of [nonzero_region]

    The library trims the rows of [roi] that hold no non-zero sample,
    from the bottom and then from the top, and after them the columns:
    what is left is the smallest region inside [roi] that holds every
    pixel with a non-zero sample.  When there is no such pixel the rows
    are used up first, and the region is left with its columns and
    without rows. *)

Definition pixel_in (r : ROI) (q : Pixel) : bool :=
  (xbegin r <=? px q) && (px q <? xend r)
  && (ybegin r <=? py q) && (py q <? yend r).

Definition pixel_nonzero (q : Pixel) : bool :=
  existsb (fun v => negb (v =? 0)) (samples q).

Definition shrink_wrap (image : ImageBuf) (r : ROI) : ROI :=
  match filter (fun q => pixel_in r q && pixel_nonzero q) (pixels image) with
  | [] =>
      mkROI (xbegin r) (xend r) (ybegin r) (ybegin r)
        (zbegin r) (zend r) (chbegin r) (chend r)
  | q :: qs =>
      mkROI (fold_left Z.min (map px qs) (px q))
            (fold_left Z.max (map px qs) (px q) + 1)
            (fold_left Z.min (map py qs) (py q))
            (fold_left Z.max (map py qs) (py q) + 1)
            (zbegin r) (zend r) (chbegin r) (chend r)
  end.

(** ** Definitions used to state the properties *)

(** The name a channel is written under when [fix_channels] is set. *)
Definition fixed_name (channel_name : string) : string :=
  if contains "depth.z" channel_name then "depth.Z" else channel_name.

(** The values [attribute(name, value)] takes. *)
Definition settable (v : pyvalue) : bool :=
  match v with
  | VStr _ | VInt _ | VFloat _ => true
  | VOther _ | VNone => false
  end.

(** [attribute(name, value)] on the list of attributes, for a value it
    takes; the list as it is for any other. *)
Definition put_value (name : string) (v : pyvalue) (l : list ParamValue)
    : list ParamValue :=
  match v with
  | VStr _ => set_attrib (mkParam name "string" v) l
  | VInt _ => set_attrib (mkParam name "int" v) l
  | VFloat _ => set_attrib (mkParam name "float" v) l
  | VOther _ | VNone => l
  end.

(** One turn of the metadata copy, on the list of attributes. *)
Definition copy_attrib (rm_manifest : bool) (l : list ParamValue) (a : ParamValue)
    : list ParamValue :=
  if rm_manifest && contains "manifest" (pv_name a) then l
  else if mem (pv_type a) ["string"; "int"; "float"]
       then put_value (pv_name a) (pv_value a) l
       else set_attrib a l.


(** What the library guarantees of a spec: as many channel names as
    channels, and per-channel formats for all channels or for none. *)
Definition wf_spec (s : ImageSpec) : Prop :=
  nchannels s = Z.of_nat (List.length (channelnames s))
  /\ (channelformats s = []
      \/ List.length (channelformats s) = List.length (channelnames s)).

(** A group of channels as [split_subimages] closes it: the index its
    range starts at, the layer name it is closed under, and the source
    names of its channels. *)
Record group : Type := mkGroup {
  g_start : Z;
  g_key : string;
  g_names : list string
}.

(** The groups follow each other from [start] on and none is empty. *)
Fixpoint contiguous (start : Z) (gs : list group) : Prop :=
  match gs with
  | [] => True
  | g :: rest =>
      g_start g = start /\ g_names g <> []
      /\ contiguous (start + Z.of_nat (List.length (g_names g))) rest
  end.

(** The value line 167-170 gives the [compression] attribute. *)
Definition compression_value (native : ImageSpec) (p : properties) : pyvalue :=
  match compression_given p with
  | Some c => VStr (strip "'" c)
  | None => getattribute "compression" native
  end.

(** The attributes of the subimage made for a group. *)
Definition group_attribs (native : ImageSpec) (p : properties) (g : group)
    : list ParamValue :=
  put_value "name" (VStr (g_key g))
    (put_value "compression" (compression_value native p)
       (if g_start g =? 0
        then fold_left (copy_attrib (p_rm_manifest p)) (extra_attribs native) []
        else [])).

(** The channel names of the subimage made for a group. *)
Definition group_channelnames (p : properties) (g : group) : list string :=
  if p_fix_channels p then map fixed_name (g_names g) else g_names g.

(** The pixels of the subimage made for a group. *)
Definition group_buffer (image_in : ImageBuf) (p : properties) (g : group)
    : Buffer :=
  Cut (Channels (Loaded image_in) (g_names g)) (p_roi p).

(** The subimages recorded in [p] are the ones of the groups [gs], built
    under the options of [p0]. *)
Definition planned (image_in : ImageBuf) (p0 p : properties) (gs : list group)
    : Prop :=
  map channelnames (sub_specs p) = map (group_channelnames p0) gs
  /\ map extra_attribs (sub_specs p)
     = map (group_attribs (nativespec image_in) p0) gs
  /\ sub_pixels p = map (group_buffer image_in p0) gs
  /\ sub_names p = map (fun g => VStr (g_key g)) gs.

(** The loop leaves the options and the region alone. *)
Definition same_options (p0 p : properties) : Prop :=
  p_fix_channels p = p_fix_channels p0
  /\ p_rm_manifest p = p_rm_manifest p0
  /\ p_compression p = p_compression p0
  /\ p_roi p = p_roi p0.

(** The state of the loop after the channels [done], of which the last
    [sub_ch_count] are still open. *)
Definition loop_invariant (image_in : ImageBuf) (p0 p : properties)
    (gs : list group) (done : list string) : Prop :=
  same_options p0 p
  /\ planned image_in p0 p gs
  /\ contiguous 0 gs
  /\ exists pending,
       done = List.concat (map g_names gs) ++ pending
       /\ sub_ch_count p = Z.of_nat (List.length pending)
       /\ (done = [] -> recent_sub p = "")
       /\ (done <> [] -> pending <> []).

(** The grouping state [rewrap] starts from (lines 231-235). *)
Definition fresh (p : properties) : Prop :=
  recent_sub p = "" /\ sub_ch_count p = 0
  /\ sub_specs p = [] /\ sub_pixels p = [] /\ sub_names p = [].

(** The index in the source's channel list at which the channels of the
    [k]-th spec begin. *)
Definition range_start (specs : list ImageSpec) (k : nat) : Z :=
  Z.of_nat (List.length (List.concat (map channelnames (firstn k specs)))).

(** ** Sample inputs *)

Module Sample.

(** The data window of the sample images, over seven channels. *)
Definition window : ROI := mkROI 0 2 0 2 0 1 0 7.

Definition attribs : list ParamValue :=
  [ mkParam "compression" "string" (VStr "zip");
    mkParam "cryptomatte/a/manifest" "string" (VStr "{}");
    mkParam "owner" "string" (VStr "studio") ].

(** A 2x2 image, every sample zero. *)
Definition black (nch : nat) : list Pixel :=
  map (fun xy => mkPixel (fst xy) (snd xy) (repeat 0 nch))
      [(0, 0); (1, 0); (0, 1); (1, 1)].

Definition image (names : list string) (metadata : list ParamValue) : ImageBuf :=
  mkBuf
    (mkSpec 0 0 0 2 2 1 2 2 0 0 0 (Z.of_nat (List.length names)) "half" []
       names metadata)
    (set_chend window (Z.of_nat (List.length names)))
    (black (List.length names)).

Definition flat (names : list string) : ImageFile :=
  mkFile (image names attribs) [].

(** One part of a multi-part file, with its own data window. *)
Definition part (name : string) (names : list string) (r : ROI) : ImageBuf :=
  mkBuf
    (mkSpec (xbegin r) (ybegin r) 0 (xend r - xbegin r) (yend r - ybegin r) 1
       2 2 0 0 0 (Z.of_nat (List.length names)) "half" [] names
       [mkParam "compression" "string" (VStr "zip");
        mkParam "name" "string" (VStr name)])
    r (black (List.length names)).

(** A file of two parts whose data windows differ. *)
Definition two_parts : ImageFile :=
  mkFile (part "rgba" ["R"; "G"; "B"; "A"] (mkROI 0 2 0 2 0 1 0 4))
         [part "depth" ["depth.Z"] (mkROI 0 1 0 1 0 1 0 1)].

(** Metadata with two manifests next to each other. *)
Definition two_manifests : list ParamValue :=
  [ mkParam "cryptomatte/a/manifest" "string" (VStr "{}");
    mkParam "cryptomatte/b/manifest" "string" (VStr "{}");
    mkParam "owner" "string" (VStr "studio") ].

(** An output that accepts every call. *)
Definition accepting (log : list call) (c : call) : bool := true.

(** An output on which every [write_image] fails. *)
Definition failing_writes (log : list call) (c : call) : bool :=
  negb (is_write c).


(** [erase_attribute] never raises. *)
Definition erasable (a : ParamValue) : bool := false.

(** The names a name matches when it is read as a regular expression
    and has none of the characters that stand for something else in
    one: the names equal to it up to case. *)
Definition same_name (pattern name : string) : bool := iequals pattern name.

(** [erase_attribute] raises on every attribute. *)
Definition not_erasable (a : ParamValue) : bool := true.

(** Metadata with two manifests and an attribute between them. *)
Definition manifests_apart : list ParamValue :=
  [ mkParam "cryptomatte/a/manifest" "string" (VStr "{}");
    mkParam "owner" "string" (VStr "studio");
    mkParam "cryptomatte/b/manifest" "string" (VStr "{}") ].

(** [erase_attribute] raises on the second manifest only. *)
Definition second_not_erasable (a : ParamValue) : bool :=
  String.eqb (pv_name a) "cryptomatte/b/manifest".

End Sample.

(** The region [rewrap] crops to (lines 226-228). *)
Definition crop_region (nonzero_region : ImageBuf -> ROI -> ROI)
    (image_in : ImageBuf) (autocrop : bool) : ROI :=
  if autocrop then nonzero_region image_in (roi image_in) else roi image_in.

(** The type tag of an attribute agrees with its Python value. *)
Definition well_typed (a : ParamValue) : Prop :=
  match pv_value a with
  | VStr _ => pv_type a = "string"
  | VInt _ => pv_type a = "int"
  | VFloat _ => pv_type a = "float"
  | VOther _ | VNone => mem (pv_type a) ["string"; "int"; "float"] = false
  end.

(** What keeps the [attribute] calls of a split (lines 161 and 168-170)
    from raising [TypeError]: source attributes whose type tag agrees
    with their value, and a compression to write, the one asked for or
    the source's own. *)
Definition metadata_settable (native : ImageSpec) (p : properties) : Prop :=
  Forall well_typed (extra_attribs native)
  /\ settable (compression_value native p) = true.

(** Origin and size of a region in the image plane. *)
Definition roi_window (r : ROI) : Z * Z * Z * Z :=
  (xbegin r, ybegin r, xend r - xbegin r, yend r - ybegin r).

(** Origin and size of the data window of a spec. *)
Definition spec_window (s : ImageSpec) : Z * Z * Z * Z :=
  (spec_x s, spec_y s, width s, height s).

(** The region [r] over the channels [0 .. n]. *)
Definition over_channels (r : ROI) (n : Z) : ROI :=
  mkROI (xbegin r) (xend r) (ybegin r) (yend r) (zbegin r) (zend r) 0 n.




(** What the metadata copy of [split_subimages] lets through. *)
Definition passes (rm_manifest : bool) (a : ParamValue) : bool :=
  negb (rm_manifest && contains "manifest" (pv_name a)).

(** The answers an output gave to the calls of a log, in order. *)
Fixpoint replay (answer : list call -> call -> bool) (before log : list call)
    : list bool :=
  match log with
  | [] => []
  | c :: rest => answer before c :: replay answer (before ++ [c]) rest
  end.

(** ** The grouping as a function of the channel list *)

(** The groups [split_subimages] closes over the channels [names] still
    to come, when the channels [open] are in the group that is open,
    [recent] is the key of the channel before, and the open group starts
    at index [start]: a channel that is not the last one closes the open
    group when [recent] is not empty and its key differs from it; the
    last channel joins the open group and closes it. *)
Fixpoint runs (start : Z) (recent : string) (open names : list string)
    : list group :=
  match names with
  | [] => []
  | channel_name :: rest =>
      match rest with
      | [] => [mkGroup start recent (open ++ [channel_name])]
      | _ :: _ =>
          if truthy recent && negb (String.eqb (group_key channel_name) recent)
          then mkGroup start recent open
               :: runs (start + Z.of_nat (List.length open))
                    (group_key channel_name) [channel_name] rest
          else runs start (group_key channel_name) (open ++ [channel_name]) rest
      end
  end.

Definition channel_groups (names : list string) : list group :=
  runs 0 "" [] names.

(** The source names of the channels a buffer of [split_subimages] holds. *)
Definition buffer_channels (b : Buffer) : list string :=
  match b with
  | Cut (Channels _ names) _ => names
  | _ => []
  end.

(** A subimage spec that fits its source: as many channels as channel
    names, no per-channel formats, the window of the region [r] in the
    image plane, and the depth and display window of the source. *)
Definition fits_source (native : ImageSpec) (r : ROI) (s : ImageSpec) : Prop :=
  nchannels s = Z.of_nat (List.length (channelnames s))
  /\ channelformats s = []
  /\ spec_window s = roi_window r
  /\ spec_z s = zbegin r
  /\ depth s = depth native
  /\ (full_width s, full_height s) = (full_width native, full_height native)
  /\ (full_x s, full_y s, full_z s) = (full_x native, full_y native, full_z native).

(** The spec [close_subimage] makes before it sets any attribute. *)
Definition bare_spec (image_in : ImageBuf) (p : properties)
    (typedesc : TypeDesc) (names : list string) : ImageSpec :=
  with_channelnames
    (if p_fix_channels p then fix_channel_names names else names)
    (with_full (nativespec image_in)
       (with_roi (p_roi p)
          (ImageSpec_new (width (nativespec image_in))
             (height (nativespec image_in)) (sub_ch_count p) typedesc))).

(** The state of the loop of [split_subimages] at [channelindex], of
    which the last [sub_ch_count] channels are still open: the recorded
    specs fit the source and name, in order, the channels before the
    open ones. *)
Definition counted (native : ImageSpec) (r : ROI) (fx : bool)
    (p : properties) (channelindex : Z) : Prop :=
  p_roi p = r
  /\ p_fix_channels p = fx
  /\ 0 <= sub_ch_count p <= channelindex
  /\ Forall (fits_source native r) (sub_specs p)
  /\ List.concat (map channelnames (sub_specs p))
     = (if fx then map fixed_name else fun l => l)
         (firstn (Z.to_nat (channelindex - sub_ch_count p))
            (channelnames native)).

(** ** Definitions used to state what [update_specs] erases *)

(** The walk of [update_specs] over [attribs], at [position], comes to
    call [erase_attribute] for the attribute [a]: [a] stands at
    [position] and has [manifest] in its name, or the walk moves on from
    [position], past an attribute it keeps or one it erased, and comes
    to [a] later. *)
Inductive tries_to_erase (erase_fails : ParamValue -> bool)
    (name_matches : string -> string -> bool)
    : list ParamValue -> nat -> ParamValue -> Prop :=
| try_here attribs position a :
    nth_error attribs position = Some a ->
    contains "manifest" (pv_name a) = true ->
    tries_to_erase erase_fails name_matches attribs position a
| try_after_kept attribs position b a :
    nth_error attribs position = Some b ->
    contains "manifest" (pv_name b) = false ->
    tries_to_erase erase_fails name_matches attribs (S position) a ->
    tries_to_erase erase_fails name_matches attribs position a
| try_after_erased attribs position b a :
    nth_error attribs position = Some b ->
    contains "manifest" (pv_name b) = true ->
    erase_fails b = false ->
    tries_to_erase erase_fails name_matches
      (erase_attribute (name_matches (pv_name b)) attribs) (S position) a ->
    tries_to_erase erase_fails name_matches attribs position a.

(** No attribute of [attribs] with [manifest] in its name matches, as a
    pattern, an entry of [attribs] that goes by [name]. *)
Definition spares (name_matches : string -> string -> bool)
    (attribs : list ParamValue) (name : string) : Prop :=
  forall a b,
    In a attribs -> In b attribs ->
    contains "manifest" (pv_name a) = true ->
    iequals (pv_name b) name = true ->
    name_matches (pv_name a) (pv_name b) = false.

(** ** Definitions used to state the write protocol *)

(** The calls that write the parts [bufs] under the specs [specs] once
    the destination is open: the first part is written at once, every
    later one after an append-mode open with its own spec. *)
Definition part_calls (dst : string) (specs : list ImageSpec)
    (bufs : list Buffer) : list call :=
  match specs, bufs with
  | _ :: specs, b :: bufs =>
      WriteImage b
      :: flat_map (fun sb => [OpenAppend dst (fst sb); WriteImage (snd sb)])
           (combine specs bufs)
  | _, _ => []
  end.

(** Every call of [log] that is no write got [True] from the output,
    [before] being the calls made earlier. *)
Fixpoint all_accepted (answer : list call -> call -> bool)
    (before log : list call) : bool :=
  match log with
  | [] => true
  | c :: rest =>
      (is_write c || answer before c)
      && all_accepted answer (before ++ [c]) rest
  end.

(** Two dictionaries that differ at most in the flags [multipart],
    [fix_channels], [autocrop] and [verbose] and in the grouping
    counters. *)
Definition same_plan (p q : properties) : Prop :=
  p_rm_manifest p = p_rm_manifest q
  /\ p_compression p = p_compression q
  /\ p_roi p = p_roi q
  /\ sub_specs p = sub_specs q
  /\ sub_pixels p = sub_pixels q
  /\ sub_names p = sub_names q.

(** * The file names of a sequence

    [detect_sequence], [frame_of], [dst_path] and [find_files] work on
    path strings with the regular expressions of module [re].  Paths are
    strings of ASCII characters. *)

(** ** Regular expressions *)

Module Re.

(** The constructs the patterns of [wrapper.py] are written with.  A
    repetition is over one character class and greedy. *)
Inductive re : Type :=
| Class (c : ascii -> bool)
| Lit (l : string)
| Repeat (c : ascii -> bool) (lo : nat) (hi : option nat)
| Seq (r1 r2 : re)
| Alt (r1 r2 : re)
| Group (r : re).

Fixpoint drop (n : nat) (s : string) : string :=
  match n, s with
  | O, _ => s
  | S n, String _ rest => drop n rest
  | S _, EmptyString => EmptyString
  end.

Fixpoint take (n : nat) (s : string) : string :=
  match n, s with
  | O, _ => EmptyString
  | S n, String a rest => String a (take n rest)
  | S _, EmptyString => EmptyString
  end.

(** How many characters of class [c] the string starts with. *)
Fixpoint run_length (c : ascii -> bool) (s : string) : nat :=
  match s with
  | String a rest => if c a then S (run_length c rest) else O
  | EmptyString => O
  end.

(** [hi], [hi - 1], ..., [lo]. *)
Fixpoint counts_desc (lo hi : nat) : list nat :=
  if Nat.ltb hi lo then []
  else match hi with
       | O => [O]
       | S h => hi :: counts_desc lo h
       end.

(** One way a pattern matches at the start of a string: the text of its
    groups in the order they open, the text matched, and what is left. *)
Definition hit : Type := (list string * string * string)%type.

(** All the ways a pattern matches at the start of [s], in the order a
    backtracking matcher tries them: the longer repetition before the
    shorter, the left alternative before the right.  The match that
    Python reports is the first one. *)
Fixpoint matches (r : re) (s : string) : list hit :=
  match r with
  | Class c =>
      match s with
      | String a rest => if c a then [([], String a EmptyString, rest)] else []
      | EmptyString => []
      end
  | Lit l =>
      if String.prefix l s then [([], l, drop (String.length l) s)] else []
  | Repeat c lo hi =>
      let n := run_length c s in
      let m := match hi with Some h => Nat.min n h | None => n end in
      map (fun k => ([], take k s, drop k s)) (counts_desc lo m)
  | Seq r1 r2 =>
      flat_map
        (fun h1 : hit =>
           let '(g1, m1, rest1) := h1 in
           map (fun h2 : hit =>
                  let '(g2, m2, rest2) := h2 in
                  (g1 ++ g2, (m1 ++ m2)%string, rest2))
               (matches r2 rest1))
        (matches r1 s)
  | Alt r1 r2 => matches r1 s ++ matches r2 s
  | Group r =>
      map (fun h : hit => let '(g, m, rest) := h in (m :: g, m, rest))
          (matches r s)
  end.

(** [re.findall(pattern, s)]: the groups of the matches found from left to
    right, each search starting where the match before ended.  [turns]
    bounds the number of positions looked at. *)
Fixpoint findall_from (turns : nat) (r : re) (s : string) : list (list string) :=
  match turns with
  | O => []
  | S turns =>
      match matches r s with
      | (groups, matched, rest) :: _ =>
          match matched, s with
          | EmptyString, String _ s' => groups :: findall_from turns r s'
          | EmptyString, EmptyString => [groups]
          | _, _ => groups :: findall_from turns r rest
          end
      | [] =>
          match s with
          | String _ s' => findall_from turns r s'
          | EmptyString => []
          end
      end
  end.

Definition findall (r : re) (s : string) : list (list string) :=
  findall_from (S (String.length s)) r s.

(** [re.sub(pattern, repl, s)] with the replacement given as a function
    of the groups. *)
Fixpoint sub_from (turns : nat) (r : re) (repl : list string -> string)
    (s : string) : string :=
  match turns with
  | O => s
  | S turns =>
      match matches r s with
      | (groups, matched, rest) :: _ =>
          match matched, s with
          | EmptyString, String a s' =>
              (repl groups ++ String a (sub_from turns r repl s'))%string
          | EmptyString, EmptyString => repl groups
          | _, _ => (repl groups ++ sub_from turns r repl rest)%string
          end
      | [] =>
          match s with
          | String a s' => String a (sub_from turns r repl s')
          | EmptyString => EmptyString
          end
      end
  end.

Definition sub (r : re) (repl : list string -> string) (s : string) : string :=
  sub_from (S (String.length s)) r repl s.

(** Character classes. *)
Definition one_of (chars : string) (a : ascii) : bool :=
  existsb (Ascii.eqb a) (list_ascii_of_string chars).

Definition digit : ascii -> bool := one_of "0123456789".

Definition letter (a : ascii) : bool :=
  let n := nat_of_ascii a in
  ((65 <=? n) && (n <=? 90) || (97 <=? n) && (n <=? 122))%nat.

(** [.]: any character but a newline. *)
Definition any (a : ascii) : bool := negb (Ascii.eqb a "010"%char).

End Re.

(** ** More of Python's strings *)

Module PyStr.

(** [s.replace(old, new)] for a non-empty [old], scanning from the left;
    [turns] bounds the number of positions looked at. *)
Fixpoint replace_from (turns : nat) (old new s : string) : string :=
  match turns with
  | O => s
  | S turns =>
      if String.prefix old s
      then (new ++ replace_from turns old new (Re.drop (String.length old) s))%string
      else match s with
           | String a rest => String a (replace_from turns old new rest)
           | EmptyString => EmptyString
           end
  end.

(** [s.replace(old, new)] when [old] is empty: [new] before every
    character and at the end. *)
Fixpoint intersperse (new s : string) : string :=
  match s with
  | EmptyString => new
  | String a rest => (new ++ String a (intersperse new rest))%string
  end.

Definition replace (old new s : string) : string :=
  match old with
  | EmptyString => intersperse new s
  | _ => replace_from (String.length s) old new s
  end.

(** [str(n)] for a natural number. *)
Definition str_of_nat (n : nat) : string :=
  NilEmpty.string_of_uint (Nat.to_uint n).

(** ['{:02d}'.format(n)]: at least two digits. *)
Definition format_02d (n : nat) : string :=
  if Nat.ltb n 10 then ("0" ++ str_of_nat n)%string else str_of_nat n.

(** The value of a decimal digit. *)
Definition digit_value (a : ascii) : Z :=
  Z.of_nat (nat_of_ascii a) - 48.

(** [int(s)] for a string of ASCII decimal digits. *)
Definition int_of_digits (s : string) : Z :=
  fold_left (fun n a => 10 * n + digit_value a) (list_ascii_of_string s) 0.

End PyStr.

(** ** [detect_sequence] *)

(** ['(\d{4,8}|#{4,8})\.(exr|EXR)'] *)
Definition padding_pattern : Re.re :=
  Re.Seq
    (Re.Group (Re.Alt (Re.Repeat Re.digit 4 (Some 8%nat))
                      (Re.Repeat (Re.one_of "#") 4 (Some 8%nat))))
    (Re.Seq (Re.Class (Re.one_of "."))
            (Re.Group (Re.Alt (Re.Lit "exr") (Re.Lit "EXR")))).

(** Lines 62-72. *)
Definition detect_sequence (path : string) : string :=
  let re_find := Re.findall padding_pattern path in
  match re_find with
  | (padding :: _) :: _ =>
      PyStr.replace padding
        ("%" ++ PyStr.format_02d (String.length padding) ++ "d")%string path
  | _ => path
  end.

(** ** [frame_of] *)

(** ['.+[\._](\d{4,8})\.[A-Za-z]{3,4}'] *)
Definition frame_pattern : Re.re :=
  Re.Seq (Re.Repeat Re.any 1 None)
    (Re.Seq (Re.Class (Re.one_of "._"))
       (Re.Seq (Re.Group (Re.Repeat Re.digit 4 (Some 8%nat)))
          (Re.Seq (Re.Class (Re.one_of "."))
                  (Re.Repeat Re.letter 3 (Some 4%nat))))).

(** Lines 33-41: the frame number, [None] when the function falls off
    its end. *)
Definition frame_of (path : string) : option Z :=
  match Re.findall frame_pattern path with
  | [[frame]] => Some (PyStr.int_of_digits frame)
  | _ => None
  end.

(** ** Definitions used to state the properties of the path functions *)

(** Every character of [s] is in the class [c]. *)
Fixpoint all_in (c : ascii -> bool) (s : string) : bool :=
  match s with
  | EmptyString => true
  | String a rest => c a && all_in c rest
  end.

(** [s] starts with a character of the class [c]. *)
Definition starts_in (c : ascii -> bool) (s : string) : bool :=
  match s with
  | EmptyString => false
  | String a _ => c a
  end.

(** A character that is neither a digit nor [#]. *)
Definition plain (a : ascii) : bool :=
  negb (Re.digit a || Re.one_of "#" a).

(** What follows [.+] in the frame pattern. *)
Definition frame_tail : Re.re :=
  Re.Seq (Re.Class (Re.one_of "._"))
    (Re.Seq (Re.Group (Re.Repeat Re.digit 4 (Some 8%nat)))
       (Re.Seq (Re.Class (Re.one_of "."))
               (Re.Repeat Re.letter 3 (Some 4%nat)))).

(** * The files of a run

    [dst_path], [find_files], [bu_dir] and [main] work on the file
    system.  Files are a map from paths to contents; directories are not
    modelled, and what depends on them ([os.mkdir] failing, the result
    of [glob.glob]) is a parameter, as are Python's [%] on a string and
    an integer, [int] on a string, and the effect of [rewrap] on the
    files. *)

Module Os.

Inductive exn : Type :=
| RuntimeError
| OSError
| ValueError
| TypeError
| NameError.

Inductive outcome (A : Type) : Type :=
| Ret (a : A)
| Raise (e : exn).
Arguments Ret {A} a.
Arguments Raise {A} e.

Definition bind {A B : Type} (m : outcome A) (k : A -> outcome B) : outcome B :=
  match m with
  | Ret a => k a
  | Raise e => Raise e
  end.

(** The files: the content of every path that is a file. *)
Definition files : Type := string -> option string.

Definition isfile (fs : files) (path : string) : bool :=
  match fs path with Some _ => true | None => false end.

Definition write (fs : files) (path content : string) : files :=
  fun q => if String.eqb q path then Some content else fs q.

Definition delete (fs : files) (path : string) : files :=
  fun q => if String.eqb q path then None else fs q.

(** [shutil.move(a, b)] between file paths: [a] must be a file; [b] is
    replaced when it is one. *)
Definition move (fs : files) (a b : string) : outcome files :=
  match fs a with
  | Some content => Ret (write (delete fs a) b content)
  | None => Raise OSError
  end.

(** [os.remove(path)]. *)
Definition remove (fs : files) (path : string) : outcome files :=
  match fs path with
  | Some _ => Ret (delete fs path)
  | None => Raise OSError
  end.

(** [s.split(sep)] for a one-character separator. *)
Fixpoint split (sep : ascii) (s : string) : list string :=
  match s with
  | EmptyString => [EmptyString]
  | String a rest =>
      if Ascii.eqb a sep then EmptyString :: split sep rest
      else match split sep rest with
           | piece :: pieces => String a piece :: pieces
           | [] => [String a EmptyString]
           end
  end.

(** [range(a, b)]. *)
Definition range (a b : Z) : list Z :=
  map (fun k => a + Z.of_nat k) (seq 0 (Z.to_nat (b - a))).

Fixpoint insert_sorted (x : string) (l : list string) : list string :=
  match l with
  | [] => [x]
  | y :: rest => if String.leb x y then x :: l else y :: insert_sorted x rest
  end.

(** [sorted(l)] on strings. *)
Definition sorted (l : list string) : list string :=
  fold_right insert_sorted [] l.

(** [os.path.basename(p)]: what follows the last [/]. *)
Definition basename (p : string) : string :=
  Py.rev (Py.split_head "/" (Py.rev p)).

(** [os.path.dirname(p)]: what comes before the last [/], without
    trailing slashes unless it is made of slashes only. *)
Definition dirname (p : string) : string :=
  let head := Re.take (String.length p - String.length (basename p)) p in
  if Py.truthy head && negb (all_in (Ascii.eqb "/") head)
  then Py.rev (Py.lstrip "/" (Py.rev head))
  else head.

(** [os.path.join(a, b)]. *)
Definition join (a b : string) : string :=
  if String.prefix "/" b then b
  else if negb (Py.truthy a) || String.prefix "/" (Py.rev a) then (a ++ b)%string
  else (a ++ "/" ++ b)%string.

End Os.

Notation "x <~ m ;; k" := (Os.bind m (fun x => k))
  (at level 61, m at next level, right associativity).

(** The arguments [main] reads. *)
Record Arguments : Type := mkArgs {
  arg_single_file : bool;
  arg_input : string;
  arg_output : option string;
  arg_overwrite : bool;
  arg_dryrun : bool;
  arg_framerange : option string;
  arg_no_backup : bool
}.

(** An optional string as a condition: neither [None] nor empty. *)
Definition given (s : option string) : option string :=
  match s with
  | Some v => if Py.truthy v then Some v else None
  | None => None
  end.

(** ['(\%0[4-8]d)(\.[exr|EXR])'] *)
Definition glob_pattern : Re.re :=
  Re.Seq
    (Re.Group (Re.Seq (Re.Lit "%0")
                 (Re.Seq (Re.Class (Re.one_of "45678")) (Re.Lit "d"))))
    (Re.Group (Re.Seq (Re.Class (Re.one_of "."))
                      (Re.Class (Re.one_of "exr|EXR")))).

(** What [main] has done so far: the files, and the calls of [rewrap]
    with their source and destination. *)
Record world : Type := mkWorld {
  w_files : Os.files;
  w_rewraps : list (string * string)
}.

(** Lines 290-293: the arguments after sequence detection. *)
Definition detect_arguments (a : Arguments) : Arguments :=
  if arg_single_file a then a
  else mkArgs (arg_single_file a) (detect_sequence (arg_input a))
         (match given (arg_output a) with
          | Some out => Some (detect_sequence out)
          | None => arg_output a
          end)
         (arg_overwrite a) (arg_dryrun a) (arg_framerange a)
         (arg_no_backup a).

Section Run.

(** [fmt % n] for an integer [n]. *)
Variable percent : string -> Z -> Os.outcome string.

(** [int(s)]. *)
Variable py_int : string -> Os.outcome Z.

(** [glob.glob(pattern)]. *)
Variable glob : string -> list string.

(** Whether [os.mkdir] raises [OSError] on a path. *)
Variable mkdir_fails : string -> bool.

(** [rewrap(src, dst, **arguments)] on the files: what it returns,
    [None] when it raises, and the files afterwards. *)
Variable run_rewrap : Os.files -> string -> string -> option bool * Os.files.

(** Lines 15-30. *)
Definition dst_path (fs : Os.files) (src output_path : string)
    (overwrite : bool) : Os.outcome string :=
  let dst := output_path in
  let frame := frame_of src in
  dst <~
    (match frame with
     | Some n =>
         if negb (n =? 0) && contains "%" output_path
         then percent output_path n
         else Os.Ret dst
     | None => Os.Ret dst
     end) ;;
  if Os.isfile fs dst && negb overwrite then Os.Raise Os.RuntimeError
  else Os.Ret dst.

(** Lines 43-59 with [create] left at its default: the backup directory
    and whether there was one before. *)
Definition bu_dir (input_path : string) : string * bool :=
  let backup_dir := Os.join (Os.dirname input_path) "_BAK" in
  (backup_dir, mkdir_fails backup_dir).

(** Lines 102-108: the files of one part of a frame range. *)
Definition files_of_range (input_path part_range : string)
    : Os.outcome (list string) :=
  if contains "-" part_range
  then match Os.split "-" part_range with
       | [first; last] =>
           a <~ py_int first ;;
           b <~ py_int last ;;
           fold_left
             (fun acc i =>
                l <~ acc ;; f <~ percent input_path i ;; Os.Ret (l ++ [f]))
             (Os.range a (b + 1)) (Os.Ret [])
       | _ => Os.Raise Os.ValueError
       end
  else n <~ py_int part_range ;;
       f <~ percent input_path n ;;
       Os.Ret [f].

(** Lines 91-113. *)
Definition find_files (input_path : string) (framerange : option string)
    : Os.outcome (list string) :=
  if negb (contains "%" input_path) then Os.Ret [input_path]
  else
    match given framerange with
    | Some framerange =>
        files <~
          fold_left
            (fun acc part_range =>
               l <~ acc ;;
               more <~ files_of_range input_path part_range ;;
               Os.Ret (l ++ more))
            (Os.split "," framerange) (Os.Ret []) ;;
        Os.Ret (Os.sorted files)
    | None =>
        let input_path :=
          Re.sub glob_pattern (fun groups => ("*" ++ nth 1 groups "")%string)
            input_path in
        Os.Ret (Os.sorted (glob input_path))
    end.

(** Lines 75-88: the sequence of a file with its first and last frame,
    which are [None] where [frame_of] finds none. *)
Definition find_sequence (path : string)
    : Os.outcome (string * option Z * option Z) :=
  let path := detect_sequence path in
  files <~ find_files path None ;;
  match files with
  | first_file :: _ =>
      Os.Ret (path, frame_of first_file, frame_of (last files EmptyString))
  | [] => Os.Ret (path, Some 0, Some 0)
  end.

(** The state of the loop of [main]: the files and calls so far, and
    [prev_backup], which is unbound until [bu_dir] has run. *)
Record loop_state : Type := mkLoop {
  l_world : world;
  l_prev_backup : option bool;
  l_done : Z
}.

(** Lines 309-346: one turn of the loop of [main].  An exception ends
    the turn and leaves the state as it was when it was raised. *)
Definition process_file (a : Arguments) (backup_dir : string)
    (st : loop_state) (image_file : string)
    : option Os.exn * loop_state :=
  let output_path := arg_output a in
  let fs := w_files (l_world st) in
  if negb (Os.isfile fs image_file) then (None, st)
  else
    let located :=
      match given output_path with
      | Some out =>
          match dst_path fs image_file out (arg_overwrite a) with
          | Os.Raise e => inl (Some e, st)
          | Os.Ret dst =>
              if negb (Py.truthy dst) then inl (None, st)
              else inr (image_file, dst, st)
          end
      | None =>
          let src := Os.join backup_dir (Os.basename image_file) in
          let dst := image_file in
          if Os.isfile fs src
          then inl (None, mkLoop (l_world st) (Some true) (l_done st))
          else inr (src, dst, st)
      end in
    match located with
    | inl ended => ended
    | inr (src, dst, st) =>
        if arg_dryrun a then (None, st)
        else
          let moved :=
            match given (arg_output a) with
            | None => Os.move fs dst src
            | Some _ => Os.Ret fs
            end in
          match moved with
          | Os.Raise e => (Some e, st)
          | Os.Ret fs =>
              let '(result, fs) := run_rewrap fs src dst in
              let calls := w_rewraps (l_world st) ++ [(src, dst)] in
              let ok := match result with Some b => b | None => false end in
              let failed_with fs :=
                mkLoop (mkWorld fs calls) (l_prev_backup st) (l_done st) in
              let tidied :=
                if negb ok && match given (arg_output a) with
                              | None => true | Some _ => false end
                then Os.move fs src dst
                else if arg_no_backup a then Os.remove fs src
                else Os.Ret fs in
              match tidied with
              | Os.Raise e => (Some e, failed_with fs)
              | Os.Ret fs' =>
                  (None, mkLoop (mkWorld fs' calls) (l_prev_backup st)
                           (l_done st + 1))
              end
          end
    end.

(** The loop over the files, stopping at the first exception. *)
Fixpoint process_files (a : Arguments) (backup_dir : string)
    (st : loop_state) (files : list string)
    : option Os.exn * loop_state :=
  match files with
  | [] => (None, st)
  | image_file :: rest =>
      match process_file a backup_dir st image_file with
      | (Some e, st) => (Some e, st)
      | (None, st) => process_files a backup_dir st rest
      end
  end.

(** Lines 289-351: the exception [main] ends with, if any, and the files
    and calls afterwards. *)
Definition main (a : Arguments) (fs : Os.files) : option Os.exn * world :=
  let a := detect_arguments a in
  let input_path := arg_input a in
  let output_path := arg_output a in
  let w := mkWorld fs [] in
  match find_files input_path (arg_framerange a) with
  | Os.Raise e => (Some e, w)
  | Os.Ret [] => (None, w)
  | Os.Ret files =>
      let '(backup_dir, prev_backup) :=
        match given output_path with
        | None => let '(d, prev) := bu_dir input_path in (d, Some prev)
        | Some _ => (EmptyString, None)
        end in
      match process_files a backup_dir (mkLoop w prev_backup 0) files with
      | (Some e, st) => (Some e, l_world st)
      | (None, st) =>
          if arg_no_backup a
          then match l_prev_backup st with
               | None => (Some Os.NameError, l_world st)
               | Some _ => (None, l_world st)
               end
          else (None, l_world st)
      end
  end.

End Run.

(** ** Definitions used to state the properties of [main] *)

(** Where [main] keeps the original of a file it converts in place. *)
Definition backup_path (backup_dir image_file : string) : string :=
  Os.join backup_dir (Os.basename image_file).

(** The files once [image], which holds [content], has been moved to
    [backup]. *)
Definition set_aside (fs : Os.files) (image backup content : string)
    : Os.files :=
  Os.write (Os.delete fs image) backup content.

(** [rewrap] changes no file but its destination. *)
Definition writes_dst_only
    (run_rewrap : Os.files -> string -> string -> option bool * Os.files)
    : Prop :=
  forall fs src dst q, q <> dst -> snd (run_rewrap fs src dst) q = fs q.

Module SampleRun.

(** A [rewrap] that fails after it has started to write. *)
Definition failing (fs : Os.files) (src dst : string) : option bool * Os.files :=
  (None, Os.write fs dst "partial").

(** A [rewrap] that succeeds. *)
Definition converting (fs : Os.files) (src dst : string)
    : option bool * Os.files :=
  (Some true, Os.write fs dst "converted").

(** One file on disk. *)
Definition disk : Os.files :=
  fun q => if String.eqb q "/seq/plate.0001.exr" then Some "original" else None.

Definition in_place : Arguments :=
  mkArgs true "/seq/plate.0001.exr" None false false None false.

Definition to_output : Arguments :=
  mkArgs true "/seq/plate.0001.exr" (Some "/out/plate.exr") false false None true.

Definition start : loop_state := mkLoop (mkWorld disk []) (Some false) 0.

(** The disk after a conversion in place that kept its backup. *)
Definition converted_disk : Os.files :=
  Os.write (Os.write disk "/seq/_BAK/plate.0001.exr" "original")
    "/seq/plate.0001.exr" "converted".

Definition rerun : loop_state :=
  mkLoop (mkWorld converted_disk []) (Some true) 0.

Definition dry (a : Arguments) : Arguments :=
  mkArgs (arg_single_file a) (arg_input a) (arg_output a) (arg_overwrite a)
    true (arg_framerange a) (arg_no_backup a).

(** An [int] and a [glob] that are never needed. *)
Definition no_int (s : string) : Os.outcome Z := Os.Raise Os.ValueError.

Definition no_glob (pattern : string) : list string := [].

(** A [%] that is never needed. *)
Definition no_percent (fmt : string) (n : Z) : Os.outcome string :=
  Os.Raise Os.TypeError.

End SampleRun.
(** ** Facts about the Python operations *)

Lemma slice_middle {A : Type} (pre mid post : list A) :
  slice (pre ++ mid ++ post)
        (Z.of_nat (List.length pre))
        (Z.of_nat (List.length pre) + Z.of_nat (List.length mid)) = mid.
Proof.
  unfold slice, clamp.
  rewrite !length_app, !Nat2Z.inj_add.
  destruct (Z.ltb_spec (Z.of_nat (List.length pre)) 0); [lia|].
  destruct (Z.ltb_spec
              (Z.of_nat (List.length pre) + Z.of_nat (List.length mid)) 0); [lia|].
  rewrite !Z.min_l by lia.
  replace (Z.of_nat (List.length pre) + Z.of_nat (List.length mid)
           - Z.of_nat (List.length pre)) with (Z.of_nat (List.length mid)) by lia.
  rewrite !Nat2Z.id, skipn_app, skipn_all, Nat.sub_diag.
  cbn [skipn app].
  rewrite firstn_app, firstn_all, Nat.sub_diag.
  cbn [firstn]. now rewrite app_nil_r.
Qed.

Lemma index_in_range {A : Type} (l : list A) (i : Z) :
  0 <= i < Z.of_nat (List.length l) -> exists a, index l i = Ret a.
Proof.
  intros Hi. unfold index.
  destruct (Z.ltb_spec i 0); [lia|].
  destruct (Z.ltb_spec i 0); [lia|].
  destruct (Z.leb_spec (Z.of_nat (List.length l)) i); [lia|].
  cbn [orb].
  destruct (nth_error l (Z.to_nat i)) eqn:E; [eauto|].
  apply nth_error_None in E. lia.
Qed.

Lemma fix_channel_names_map (names : list string) :
  fix_channel_names names = map fixed_name names.
Proof.
  unfold fix_channel_names.
  enough (H : forall acc,
             fold_left
               (fun dst channel_name =>
                  dst ++ [if contains "depth.z" channel_name
                          then "depth.Z" else channel_name])
               names acc = acc ++ map fixed_name names)
    by apply (H []).
  induction names as [|c names IH]; intros acc; cbn [fold_left map].
  - now rewrite app_nil_r.
  - rewrite IH, <- app_assoc. reflexivity.
Qed.

(** ** Facts about the attributes of a spec *)

Lemma with_extra_attribs_same s : with_extra_attribs (extra_attribs s) s = s.
Proof. now destruct s. Qed.

(** Setting a value [attribute] takes changes the attributes only. *)
Lemma attribute2_settable name v s :
  settable v = true ->
  attribute2 name v s
  = Ret (with_extra_attribs (put_value name v (extra_attribs s)) s).
Proof. destruct v; try discriminate; reflexivity. Qed.

Lemma attribute2_changes_attribs name v s s' :
  attribute2 name v s = Ret s' ->
  s' = with_extra_attribs (put_value name v (extra_attribs s)) s.
Proof. destruct v; try discriminate; now intros [= <-]. Qed.

Lemma well_typed_settable a :
  well_typed a ->
  mem (pv_type a) ["string"; "int"; "float"] = true ->
  settable (pv_value a) = true.
Proof.
  unfold well_typed. destruct (pv_value a); try reflexivity; congruence.
Qed.

(** One turn of the metadata copy. *)
Lemma copy_metadata_step rm a s :
  well_typed a ->
  (if rm && contains "manifest" (pv_name a) then Ret s
   else if mem (pv_type a) ["string"; "int"; "float"]
        then attribute2 (pv_name a) (pv_value a) s
        else Ret (attribute3 (pv_name a) (pv_type a) (pv_value a) s))
  = Ret (with_extra_attribs (copy_attrib rm (extra_attribs s) a) s).
Proof.
  intros Hty. unfold copy_attrib.
  destruct (rm && contains "manifest" (pv_name a)).
  - now rewrite with_extra_attribs_same.
  - destruct (mem (pv_type a) ["string"; "int"; "float"]) eqn:Hm.
    + apply attribute2_settable. now apply well_typed_settable.
    + now destruct a.
Qed.

(** The metadata copy of well-typed attributes returns, and changes the
    attributes of the spec only. *)
Lemma copy_metadata_typed rm attribs :
  forall s,
    Forall well_typed attribs ->
    copy_metadata rm attribs s
    = Ret (with_extra_attribs
             (fold_left (copy_attrib rm) attribs (extra_attribs s)) s).
Proof.
  unfold copy_metadata.
  induction attribs as [|a attribs IH]; intros s Hty; cbn [fold_left].
  - now rewrite with_extra_attribs_same.
  - inversion Hty as [|? ? Ha Hrest]; subst. cbn [bind].
    rewrite (copy_metadata_step rm a s Ha).
    rewrite (IH _ Hrest). reflexivity.
Qed.

(** Whenever the metadata copy returns, it has changed the attributes of
    the spec only. *)
Lemma copy_metadata_changes_attribs rm attribs :
  forall s s',
    copy_metadata rm attribs s = Ret s' ->
    s' = with_extra_attribs (extra_attribs s') s.
Proof.
  unfold copy_metadata.
  induction attribs as [|a attribs IH]; intros s s' H; cbn [fold_left] in H.
  - injection H as <-. now rewrite with_extra_attribs_same.
  - cbn [bind] in H.
    destruct (if rm && contains "manifest" (pv_name a) then Ret s
              else if mem (pv_type a) ["string"; "int"; "float"]
                   then attribute2 (pv_name a) (pv_value a) s
                   else Ret (attribute3 (pv_name a) (pv_type a) (pv_value a) s))
      as [s1|e] eqn:Hstep.
    + assert (H1 : s1 = with_extra_attribs (extra_attribs s1) s).
      { destruct (rm && contains "manifest" (pv_name a)).
        - injection Hstep as <-. now rewrite with_extra_attribs_same.
        - destruct (mem (pv_type a) ["string"; "int"; "float"]).
          + apply attribute2_changes_attribs in Hstep. now subst s1.
          + now injection Hstep as <-. }
      apply IH in H. rewrite H1 in H. exact H.
    + exfalso. clear -H. induction attribs as [|b attribs IH];
        cbn [fold_left bind] in H; [discriminate | exact (IH H)].
Qed.

(** ** Closing a group *)

(** Whenever [close_subimage] returns, it has recorded one subimage: a
    spec made from the size of the source, the region and the channel
    names of the group, with some attributes, and the group's channels
    cut to the region. *)
Lemma close_subimage_inv image_in channelindex p p' :
  close_subimage image_in channelindex p = Ret p' ->
  let start := channelindex - sub_ch_count p in
  let names :=
    slice (channelnames (nativespec image_in)) start (channelindex - 1 + 1) in
  exists typedesc attribs,
    p' = set_sub_ch_count 0
           (append_sub (VStr (recent_sub p))
              (with_extra_attribs attribs (bare_spec image_in p typedesc names))
              (Cut (Channels (Loaded image_in) names) (p_roi p))
              (set_sub_range start (channelindex - 1) p)).
Proof.
  intros H start names. unfold close_subimage in H.
  cbn [set_sub_range sub_start sub_end sub_ch_count p_roi p_rm_manifest
       p_fix_channels recent_sub] in H.
  fold start in H. fold names in H.
  destruct (match channelformats (nativespec image_in) with
            | [] => Ret (format (nativespec image_in))
            | _ :: _ => index (channelformats (nativespec image_in)) start
            end) as [typedesc|e]; cbn [bind] in H; [|discriminate].
  set (made := with_full (nativespec image_in)
                 (with_roi (p_roi p)
                    (ImageSpec_new (width (nativespec image_in))
                       (height (nativespec image_in)) (sub_ch_count p)
                       typedesc))) in H.
  destruct (if start =? 0
            then copy_metadata (p_rm_manifest p)
                   (extra_attribs (nativespec image_in)) made
            else Ret made) as [s1|e] eqn:H1; cbn [bind] in H; [|discriminate].
  assert (E1 : s1 = with_extra_attribs (extra_attribs s1) made).
  { destruct (start =? 0).
    - now apply copy_metadata_changes_attribs in H1.
    - injection H1 as <-. now rewrite with_extra_attribs_same. }
  destruct (match compression_given
                     (set_sub_range start (channelindex - 1) p) with
            | Some c => attribute2 "compression" (VStr (strip "'" c)) s1
            | None =>
                attribute2 "compression"
                  (getattribute "compression" (nativespec image_in)) s1
            end) as [s2|e] eqn:H2; cbn [bind] in H; [|discriminate].
  assert (E2 : s2 = with_extra_attribs (extra_attribs s2) made).
  { destruct (compression_given _);
      apply attribute2_changes_attribs in H2; subst s2; now rewrite E1. }
  destruct (attribute2 "name" (VStr (recent_sub p))
              (with_channelnames
                 (if p_fix_channels p then fix_channel_names names else names)
                 s2)) as [s3|e] eqn:H3; cbn [bind] in H; [|discriminate].
  apply attribute2_changes_attribs in H3.
  injection H as <-. exists typedesc, (extra_attribs s3).
  do 2 f_equal. rewrite H3, E2. reflexivity.
Qed.

(** When the source's attributes are well typed and there is a
    compression to write, closing a group returns, and the attributes it
    gives the spec are the copied ones (for a range that starts at 0),
    then [compression], then [name]. *)
Lemma close_subimage_settable image_in channelindex p typedesc :
  let native := nativespec image_in in
  let start := channelindex - sub_ch_count p in
  let names := slice (channelnames native) start (channelindex - 1 + 1) in
  Forall well_typed (extra_attribs native) ->
  settable (compression_value native p) = true ->
  match channelformats native with
  | [] => Ret (format native)
  | _ :: _ => index (channelformats native) start
  end = Ret typedesc ->
  close_subimage image_in channelindex p
  = Ret (set_sub_ch_count 0
           (append_sub (VStr (recent_sub p))
              (with_extra_attribs
                 (put_value "name" (VStr (recent_sub p))
                    (put_value "compression" (compression_value native p)
                       (if start =? 0
                        then fold_left (copy_attrib (p_rm_manifest p))
                               (extra_attribs native) []
                        else [])))
                 (bare_spec image_in p typedesc names))
              (Cut (Channels (Loaded image_in) names) (p_roi p))
              (set_sub_range start (channelindex - 1) p))).
Proof.
  intros native start names Hty Hcomp Hfmt. unfold close_subimage.
  cbn [set_sub_range sub_start sub_end sub_ch_count p_roi p_rm_manifest
       p_fix_channels recent_sub].
  fold native. fold start. fold names. rewrite Hfmt. cbn [bind].
  set (made := with_full native
                 (with_roi (p_roi p)
                    (ImageSpec_new (width native) (height native)
                       (sub_ch_count p) typedesc))).
  assert (H1 : (if start =? 0
                then copy_metadata (p_rm_manifest p) (extra_attribs native) made
                else Ret made)
               = Ret (with_extra_attribs
                        (if start =? 0
                         then fold_left (copy_attrib (p_rm_manifest p))
                                (extra_attribs native) []
                         else []) made)).
  { destruct (start =? 0); [|reflexivity].
    now rewrite (copy_metadata_typed _ _ made Hty). }
  rewrite H1. cbn [bind].
  assert (H2 : forall s,
             match compression_given
                     (set_sub_range start (channelindex - 1) p) with
             | Some c => attribute2 "compression" (VStr (strip "'" c)) s
             | None =>
                 attribute2 "compression"
                   (getattribute "compression" native) s
             end
             = Ret (with_extra_attribs
                      (put_value "compression" (compression_value native p)
                         (extra_attribs s)) s)).
  { intros s. rewrite <- (attribute2_settable _ _ _ Hcomp).
    unfold compression_value, compression_given.
    cbn [set_sub_range p_compression].
    destruct (p_compression p) as [c|]; [|reflexivity].
    destruct (truthy c); reflexivity. }
  rewrite H2. cbn [bind]. reflexivity.
Qed.

(** ** The grouping loop *)

Section Grouping.

Variable image_in : ImageBuf.
Variable p0 : properties.

Let native := nativespec image_in.
Let all_names := channelnames native.

Hypothesis native_wf : wf_spec native.
Hypothesis native_settable : metadata_settable native p0.

Lemma planned_nil p :
  sub_specs p = [] -> sub_pixels p = [] -> sub_names p = [] ->
  planned image_in p0 p [].
Proof. intros H1 H2 H3. unfold planned. now rewrite H1, H2, H3. Qed.

Lemma contiguous_snoc gs g start :
  contiguous start gs ->
  g_start g = start + Z.of_nat (List.length (List.concat (map g_names gs))) ->
  g_names g <> [] ->
  contiguous start (gs ++ [g]).
Proof.
  revert start.
  induction gs as [|h gs IH]; intros start Hc Hs Hn; cbn in *.
  - repeat split; auto. lia.
  - destruct Hc as (Hh & Hne & Hc). repeat split; auto.
    apply IH; auto. rewrite length_app in Hs. lia.
Qed.

(** Closing the open group records the subimage of that group. *)
Lemma close_subimage_planned p gs channelindex names :
  same_options p0 p ->
  planned image_in p0 p gs ->
  0 <= channelindex - sub_ch_count p < Z.of_nat (List.length all_names) ->
  slice all_names (channelindex - sub_ch_count p) channelindex = names ->
  exists p',
    close_subimage image_in channelindex p = Ret p'
    /\ same_options p0 p'
    /\ planned image_in p0 p'
         (gs ++ [mkGroup (channelindex - sub_ch_count p) (recent_sub p) names])
    /\ sub_ch_count p' = 0
    /\ recent_sub p' = recent_sub p
    /\ current_sub p' = current_sub p.
Proof.
  intros (Hfx & Hrm & Hco & Hroi) (Hn & Ha & Hb & Hk) Hrange Hslice.
  assert (Ht : exists typedesc,
             match channelformats native with
             | [] => Ret (format native)
             | _ :: _ => index (channelformats native)
                           (channelindex - sub_ch_count p)
             end = Ret typedesc).
  { destruct native_wf as (_ & [E | E]).
    - rewrite E. eauto.
    - destruct (channelformats native) eqn:F; [eauto|].
      apply index_in_range. rewrite E. exact Hrange. }
  destruct Ht as (typedesc & Ht).
  assert (Hcv : compression_value native p = compression_value native p0).
  { unfold compression_value, compression_given. now rewrite Hco. }
  destruct native_settable as (Hty & Hcomp).
  rewrite (close_subimage_settable image_in channelindex p typedesc Hty);
    [|fold native; rewrite Hcv; exact Hcomp | exact Ht].
  fold native. fold all_names.
  replace (channelindex - 1 + 1) with channelindex by lia.
  rewrite Hslice, Hcv, Hrm.
  eexists. split; [reflexivity|].
  split; [|split; [|split; [|split]]]; try reflexivity.
  - repeat split; assumption.
  - unfold planned.
    cbn [set_sub_ch_count append_sub set_sub_range sub_specs sub_pixels
         sub_names].
    rewrite !map_app. cbn [map].
    split; [|split; [|split]].
    + rewrite Hn. f_equal. f_equal.
      cbn [with_extra_attribs bare_spec with_channelnames channelnames].
      unfold group_channelnames. cbn [g_names].
      rewrite <- Hfx. destruct (p_fix_channels p); [|reflexivity].
      apply fix_channel_names_map.
    + rewrite Ha. reflexivity.
    + rewrite Hb. f_equal. unfold group_buffer. cbn [g_names].
      now rewrite Hroi.
    + rewrite Hk. reflexivity.
Qed.

Lemma truthy_nonempty s : truthy s = true -> s <> "".
Proof. destruct s; [discriminate | discriminate]. Qed.

Lemma length_snoc_Z (done : list string) c :
  Z.of_nat (List.length (done ++ [c])) = Z.of_nat (List.length done) + 1.
Proof. rewrite length_app. cbn [List.length]. lia. Qed.

(** A turn of the loop on a channel that is not the last one. *)
Lemma split_step_inner p gs done c rest :
  all_names = done ++ c :: rest ->
  rest <> [] ->
  loop_invariant image_in p0 p gs done ->
  exists p' gs',
    split_step image_in (p, Z.of_nat (List.length done)) c
    = Ret (p', Z.of_nat (List.length done) + 1)
    /\ loop_invariant image_in p0 p' gs' (done ++ [c]).
Proof.
  intros Hall Hrest (Hopt & Hplan & Hcont & pending & Hdone & Hcount & Hfirst & Hpend).
  assert (Hlen : nchannels native
                 = Z.of_nat (List.length done) + 1
                   + Z.of_nat (List.length rest)).
  { destruct native_wf as (-> & _). fold all_names. rewrite Hall.
    rewrite length_app. cbn [List.length]. lia. }
  assert (Hnotlast : (Z.of_nat (List.length done) + 1 =? nchannels native) = false).
  { apply Z.eqb_neq. rewrite Hlen. destruct rest; [contradiction|].
    cbn [List.length]. lia. }
  unfold split_step. fold native. rewrite Hnotlast, orb_false_r.
  cbn [set_current_sub current_sub recent_sub].
  destruct (truthy (recent_sub p)
            && negb (String.eqb (group_key c) (recent_sub p))) eqn:Hnew.
  - (* the key changes: the open group is closed *)
    apply andb_prop in Hnew. destruct Hnew as (Htruthy & _).
    assert (Hne : done <> []).
    { intros E. apply (truthy_nonempty _ Htruthy). auto. }
    specialize (Hpend Hne).
    set (p1 := set_current_sub (group_key c) p).
    assert (Hstart : Z.of_nat (List.length done) - sub_ch_count p1
                     = Z.of_nat (List.length (List.concat (map g_names gs)))).
    { subst p1. cbn [set_current_sub sub_ch_count]. rewrite Hcount.
      rewrite Hdone at 1. rewrite length_app. lia. }
    destruct (close_subimage_planned p1 gs (Z.of_nat (List.length done)) pending)
      as (p' & Hclose & Hopt' & Hplan' & Hc0 & Hrecent & Hcurrent).
    + exact Hopt.
    + exact Hplan.
    + rewrite Hstart, Hall, Hdone, !length_app. cbn [List.length]. lia.
    + rewrite Hstart, Hall. rewrite Hdone at 1 2. rewrite <- app_assoc.
      rewrite length_app, Nat2Z.inj_add. apply slice_middle.
    + rewrite Hclose. cbn [bind].
      eexists. eexists. split; [reflexivity|].
      split; [|split; [|split]].
      * destruct Hopt' as (?&?&?&?). repeat split; assumption.
      * exact Hplan'.
      * apply contiguous_snoc; [exact Hcont| |exact Hpend].
        cbn [g_start]. rewrite Hstart. lia.
      * exists [c]. rewrite map_app, concat_app. cbn [map List.concat g_names].
        rewrite app_nil_r, <- Hdone.
        cbn [set_sub_ch_count set_recent_sub sub_ch_count recent_sub].
        rewrite Hc0. repeat split; try reflexivity.
        -- intros E. now destruct done.
        -- discriminate.
  - (* the open group goes on *)
    cbn [bind].
    eexists. exists gs. split; [reflexivity|].
    split; [|split; [|split]].
    + exact Hopt.
    + exact Hplan.
    + exact Hcont.
    + exists (pending ++ [c]).
      cbn [set_sub_ch_count set_recent_sub set_current_sub sub_ch_count
           recent_sub current_sub].
      rewrite Hcount, length_snoc_Z, app_assoc, <- Hdone.
      repeat split; try reflexivity.
      * intros E. now destruct done.
      * intros _ E. now destruct pending.
Qed.

(** The turn of the loop on the last channel: whatever is open is
    closed together with that channel. *)
Lemma split_step_last p gs done c :
  all_names = done ++ [c] ->
  loop_invariant image_in p0 p gs done ->
  exists p' channelindex gs',
    split_step image_in (p, Z.of_nat (List.length done)) c
    = Ret (p', channelindex)
    /\ same_options p0 p'
    /\ planned image_in p0 p' gs'
    /\ contiguous 0 gs'
    /\ List.concat (map g_names gs') = all_names.
Proof.
  intros Hall (Hopt & Hplan & Hcont & pending & Hdone & Hcount & Hfirst & Hpend).
  assert (Hlast : (Z.of_nat (List.length done) + 1 =? nchannels native) = true).
  { apply Z.eqb_eq. destruct native_wf as (-> & _). fold all_names.
    rewrite Hall. now rewrite length_snoc_Z. }
  unfold split_step. fold native. rewrite Hlast, orb_true_r.
  set (p1 := set_sub_ch_count
               (sub_ch_count (set_current_sub (group_key c) p) + 1)
               (set_current_sub (group_key c) p)).
  assert (Hstart : Z.of_nat (List.length done) + 1 - sub_ch_count p1
                   = Z.of_nat (List.length (List.concat (map g_names gs)))).
  { subst p1. cbn [set_sub_ch_count set_current_sub sub_ch_count].
    rewrite Hcount. rewrite Hdone at 1. rewrite length_app. lia. }
  destruct (close_subimage_planned p1 gs (Z.of_nat (List.length done) + 1)
              (pending ++ [c]))
    as (p' & Hclose & Hopt' & Hplan' & Hc0 & Hrecent & Hcurrent).
  - exact Hopt.
  - exact Hplan.
  - rewrite Hstart, Hall, Hdone, !length_app. cbn [List.length]. lia.
  - rewrite Hstart, Hall. rewrite Hdone at 1 2.
    rewrite <- (app_nil_r ((List.concat (map g_names gs) ++ pending) ++ [c])).
    rewrite <- !app_assoc.
    replace (Z.of_nat (List.length (List.concat (map g_names gs) ++ pending)) + 1)
      with (Z.of_nat (List.length (List.concat (map g_names gs)))
            + Z.of_nat (List.length (pending ++ [c])))
      by (rewrite !length_app; cbn [List.length]; lia).
    rewrite (app_assoc pending [c] []).
    apply slice_middle.
  - rewrite Hclose. cbn [bind].
    eexists. eexists. eexists. split; [reflexivity|].
    split; [|split; [|split]].
    + destruct Hopt' as (?&?&?&?). repeat split; assumption.
    + exact Hplan'.
    + apply contiguous_snoc; [exact Hcont| |].
      * cbn [g_start]. rewrite Hstart. lia.
      * cbn [g_names]. intros E. now destruct pending.
    + rewrite map_app, concat_app. cbn [map List.concat g_names].
      rewrite app_nil_r, app_assoc, <- Hdone. now rewrite Hall.
Qed.

(** The loop over a non-empty rest of the channel list ends with all
    the channels in closed groups. *)
Lemma split_loop_groups rest :
  forall done p gs,
    all_names = done ++ rest ->
    rest <> [] ->
    loop_invariant image_in p0 p gs done ->
    exists p' channelindex gs',
      split_loop image_in (p, Z.of_nat (List.length done)) rest
      = Ret (p', channelindex)
      /\ same_options p0 p'
      /\ planned image_in p0 p' gs'
      /\ contiguous 0 gs'
      /\ List.concat (map g_names gs') = all_names.
Proof.
  induction rest as [|c rest IH]; intros done p gs Hall Hne Hinv;
    [contradiction|].
  destruct rest as [|c' rest].
  - destruct (split_step_last p gs done c Hall Hinv)
      as (p' & ci & gs' & Hstep & H).
    exists p', ci, gs'. cbn [split_loop]. rewrite Hstep. cbn [bind].
    split; [reflexivity | exact H].
  - destruct (split_step_inner p gs done c (c' :: rest) Hall) as
      (p' & gs' & Hstep & Hinv'); [discriminate | exact Hinv |].
    cbn [split_loop]. rewrite Hstep. cbn [bind].
    rewrite <- (length_snoc_Z done c).
    apply (IH (done ++ [c]) p' gs'); [|discriminate | exact Hinv'].
    now rewrite <- app_assoc.
Qed.

End Grouping.

Lemma initial_properties_fresh nz image_in ac mp rm fx comp vb :
  fresh (initial_properties nz image_in ac mp rm fx comp vb).
Proof. repeat split. Qed.

(** [split_subimages] on a fresh dictionary returns, and the subimages it
    records are those of contiguous non-empty groups that cover the
    channel list in order. *)
Lemma split_subimages_groups image_in p :
  wf_spec (nativespec image_in) ->
  metadata_settable (nativespec image_in) p ->
  fresh p ->
  let p0 := set_roi (set_chend (p_roi p) 4) p in
  exists p' gs,
    split_subimages image_in p = Ret (Some p')
    /\ same_options p0 p'
    /\ planned image_in p0 p' gs
    /\ contiguous 0 gs
    /\ List.concat (map g_names gs) = channelnames (nativespec image_in).
Proof.
  intros Hwf Hset (Hr & Hc & Hs & Hb & Hn) p0.
  unfold split_subimages. fold p0.
  destruct (channelnames (nativespec image_in)) as [|c rest] eqn:Hnames.
  - cbn [split_loop bind fst]. subst p0.
    cbn [set_roi sub_specs sub_pixels]. rewrite Hs, Hb. cbn.
    eexists. exists []. split; [reflexivity|].
    repeat split; cbn; auto; now rewrite Hs.
  - destruct (split_loop_groups image_in p0 Hwf Hset (c :: rest) [] p0 [])
      as (p' & ci & gs & Hloop & Hopt & Hplan & Hcont & Hcat).
    + exact Hnames.
    + discriminate.
    + split; [repeat split|].
      split; [apply planned_nil; subst p0; assumption|].
      split; [exact I|].
      exists []. subst p0. cbn. repeat split; auto.
    + cbn [List.length Z.of_nat] in Hloop. rewrite Hloop. cbn [bind fst].
      destruct Hplan as (H1 & H2 & H3 & H4).
      assert (Hlen : List.length (sub_specs p') = List.length (sub_pixels p')).
      { rewrite H3, length_map, <- (length_map (group_channelnames p0)), <- H1.
        now rewrite length_map. }
      rewrite Hlen, Nat.eqb_refl.
      exists p', gs. rewrite <- Hnames.
      repeat split; try assumption; apply Hopt.
Qed.

(** ** The grouping, group by group *)

Section GroupingRuns.

Variable image_in : ImageBuf.
Variable p0 : properties.

Let native := nativespec image_in.
Let all_names := channelnames native.

Hypothesis native_wf : wf_spec native.
Hypothesis native_settable : metadata_settable native p0.

(** A turn on a channel that is not the last one, with the groups it
    leaves spelled out. *)
Lemma split_step_runs_inner p gs done pending c rest :
  all_names = done ++ c :: rest ->
  rest <> [] ->
  same_options p0 p ->
  planned image_in p0 p gs ->
  done = List.concat (map g_names gs) ++ pending ->
  sub_ch_count p = Z.of_nat (List.length pending) ->
  exists p',
    split_step image_in (p, Z.of_nat (List.length done)) c
    = Ret (p', Z.of_nat (List.length done) + 1)
    /\ same_options p0 p'
    /\ recent_sub p' = group_key c
    /\ if truthy (recent_sub p)
          && negb (String.eqb (group_key c) (recent_sub p))
       then planned image_in p0 p'
              (gs ++ [mkGroup
                        (Z.of_nat (List.length (List.concat (map g_names gs))))
                        (recent_sub p) pending])
            /\ sub_ch_count p' = 1
       else planned image_in p0 p' gs
            /\ sub_ch_count p' = Z.of_nat (List.length pending) + 1.
Proof.
  intros Hall Hrest Hopt Hplan Hdone Hcount.
  assert (Hlen : nchannels native
                 = Z.of_nat (List.length done) + 1
                   + Z.of_nat (List.length rest)).
  { destruct native_wf as (-> & _). fold all_names. rewrite Hall.
    rewrite length_app. cbn [List.length]. lia. }
  assert (Hnotlast : (Z.of_nat (List.length done) + 1 =? nchannels native) = false).
  { apply Z.eqb_neq. rewrite Hlen. destruct rest; [contradiction|].
    cbn [List.length]. lia. }
  unfold split_step. fold native. rewrite Hnotlast, orb_false_r.
  cbn [set_current_sub current_sub recent_sub].
  destruct (truthy (recent_sub p)
            && negb (String.eqb (group_key c) (recent_sub p))) eqn:Hnew.
  - set (p1 := set_current_sub (group_key c) p).
    assert (Hstart : Z.of_nat (List.length done) - sub_ch_count p1
                     = Z.of_nat (List.length (List.concat (map g_names gs)))).
    { subst p1. cbn [set_current_sub sub_ch_count]. rewrite Hcount.
      rewrite Hdone at 1. rewrite length_app. lia. }
    destruct (close_subimage_planned image_in p0 native_wf native_settable p1 gs
                (Z.of_nat (List.length done)) pending)
      as (p' & Hclose & Hopt' & Hplan' & Hc0 & Hrecent & Hcurrent).
    + exact Hopt.
    + exact Hplan.
    + rewrite Hstart. fold native. fold all_names.
      rewrite Hall, Hdone, !length_app. cbn [List.length]. lia.
    + fold native. fold all_names.
      rewrite Hstart, Hall. rewrite Hdone at 1 2. rewrite <- app_assoc.
      rewrite length_app, Nat2Z.inj_add. apply slice_middle.
    + rewrite Hclose. cbn [bind].
      eexists. split; [reflexivity|].
      cbn [set_sub_ch_count set_recent_sub sub_ch_count recent_sub].
      rewrite Hstart in Hplan'.
      split; [destruct Hopt' as (?&?&?&?); repeat split; assumption|].
      split; [exact Hcurrent|].
      split; [exact Hplan' | rewrite Hc0; reflexivity].
  - cbn [bind]. eexists. split; [reflexivity|].
    cbn [set_sub_ch_count set_recent_sub set_current_sub sub_ch_count
         recent_sub current_sub].
    split; [exact Hopt|]. split; [reflexivity|].
    split; [exact Hplan | now rewrite Hcount].
Qed.

(** The turn on the last channel, with the group it closes spelled out. *)
Lemma split_step_runs_last p gs done pending c :
  all_names = done ++ [c] ->
  same_options p0 p ->
  planned image_in p0 p gs ->
  done = List.concat (map g_names gs) ++ pending ->
  sub_ch_count p = Z.of_nat (List.length pending) ->
  exists p' channelindex,
    split_step image_in (p, Z.of_nat (List.length done)) c
    = Ret (p', channelindex)
    /\ same_options p0 p'
    /\ planned image_in p0 p'
         (gs ++ [mkGroup
                   (Z.of_nat (List.length (List.concat (map g_names gs))))
                   (recent_sub p) (pending ++ [c])]).
Proof.
  intros Hall Hopt Hplan Hdone Hcount.
  assert (Hlast : (Z.of_nat (List.length done) + 1 =? nchannels native) = true).
  { apply Z.eqb_eq. destruct native_wf as (-> & _). fold all_names.
    rewrite Hall. now rewrite length_snoc_Z. }
  unfold split_step. fold native. rewrite Hlast, orb_true_r.
  set (p1 := set_sub_ch_count
               (sub_ch_count (set_current_sub (group_key c) p) + 1)
               (set_current_sub (group_key c) p)).
  assert (Hstart : Z.of_nat (List.length done) + 1 - sub_ch_count p1
                   = Z.of_nat (List.length (List.concat (map g_names gs)))).
  { subst p1. cbn [set_sub_ch_count set_current_sub sub_ch_count].
    rewrite Hcount. rewrite Hdone at 1. rewrite length_app. lia. }
  destruct (close_subimage_planned image_in p0 native_wf native_settable p1 gs
              (Z.of_nat (List.length done) + 1) (pending ++ [c]))
    as (p' & Hclose & Hopt' & Hplan' & Hc0 & Hrecent & Hcurrent).
  - exact Hopt.
  - exact Hplan.
  - rewrite Hstart. fold native. fold all_names.
    rewrite Hall, Hdone, !length_app. cbn [List.length]. lia.
  - fold native. fold all_names.
    rewrite Hstart, Hall. rewrite Hdone at 1 2.
    rewrite <- (app_nil_r ((List.concat (map g_names gs) ++ pending) ++ [c])).
    rewrite <- !app_assoc.
    replace (Z.of_nat (List.length (List.concat (map g_names gs) ++ pending)) + 1)
      with (Z.of_nat (List.length (List.concat (map g_names gs)))
            + Z.of_nat (List.length (pending ++ [c])))
      by (rewrite !length_app; cbn [List.length]; lia).
    rewrite (app_assoc pending [c] []).
    apply slice_middle.
  - rewrite Hclose. cbn [bind].
    eexists. eexists. split; [reflexivity|].
    rewrite Hstart in Hplan'.
    split; [destruct Hopt' as (?&?&?&?); repeat split; assumption|].
    exact Hplan'.
Qed.

(** The loop over a non-empty rest of the channel list records the
    groups that [runs] lists. *)
Lemma split_loop_runs rest :
  forall done p gs pending,
    all_names = done ++ rest ->
    rest <> [] ->
    same_options p0 p ->
    planned image_in p0 p gs ->
    done = List.concat (map g_names gs) ++ pending ->
    sub_ch_count p = Z.of_nat (List.length pending) ->
    exists p' channelindex,
      split_loop image_in (p, Z.of_nat (List.length done)) rest
      = Ret (p', channelindex)
      /\ same_options p0 p'
      /\ planned image_in p0 p'
           (gs ++ runs (Z.of_nat (List.length (List.concat (map g_names gs))))
                    (recent_sub p) pending rest).
Proof.
  induction rest as [|c rest IH];
    intros done p gs pending Hall Hne Hopt Hplan Hdone Hcount;
    [contradiction|].
  destruct rest as [|c' rest].
  - destruct (split_step_runs_last p gs done pending c Hall Hopt Hplan Hdone
                Hcount) as (p' & ci & Hstep & Hopt' & Hplan').
    exists p', ci. cbn [split_loop runs]. rewrite Hstep. cbn [bind].
    split; [reflexivity|]. split; assumption.
  - destruct (split_step_runs_inner p gs done pending c (c' :: rest) Hall)
      as (p' & Hstep & Hopt' & Hrecent & Hcase); try assumption;
      [discriminate|].
    cbn [split_loop]. rewrite Hstep. cbn [bind].
    rewrite <- (length_snoc_Z done c).
    change (runs (Z.of_nat (List.length (List.concat (map g_names gs))))
              (recent_sub p) pending (c :: c' :: rest))
      with (if truthy (recent_sub p)
               && negb (String.eqb (group_key c) (recent_sub p))
            then mkGroup (Z.of_nat (List.length (List.concat (map g_names gs))))
                   (recent_sub p) pending
                 :: runs (Z.of_nat (List.length (List.concat (map g_names gs)))
                          + Z.of_nat (List.length pending))
                      (group_key c) [c] (c' :: rest)
            else runs (Z.of_nat (List.length (List.concat (map g_names gs))))
                   (group_key c) (pending ++ [c]) (c' :: rest)).
    destruct (truthy (recent_sub p)
              && negb (String.eqb (group_key c) (recent_sub p)));
      destruct Hcase as (Hplan' & Hcount').
    + set (g := mkGroup (Z.of_nat (List.length (List.concat (map g_names gs))))
                  (recent_sub p) pending) in *.
      destruct (IH (done ++ [c]) p' (gs ++ [g]) [c]) as (p'' & ci & Hloop & H);
        try assumption.
      * now rewrite <- app_assoc.
      * discriminate.
      * rewrite map_app, concat_app. cbn [map List.concat g g_names].
        now rewrite app_nil_r, <- Hdone.
      * exists p'', ci. split; [exact Hloop|].
        destruct H as (Hopt'' & Hplan'').
        split; [exact Hopt''|].
        rewrite Hrecent in Hplan''.
        rewrite map_app, concat_app, length_app, Nat2Z.inj_add in Hplan''.
        cbn [map List.concat g g_names] in Hplan''.
        rewrite app_nil_r, <- app_assoc in Hplan''. exact Hplan''.
    + destruct (IH (done ++ [c]) p' gs (pending ++ [c]))
        as (p'' & ci & Hloop & H); try assumption.
      * now rewrite <- app_assoc.
      * discriminate.
      * now rewrite app_assoc, <- Hdone.
      * rewrite Hcount', length_app. cbn [List.length]. lia.
      * exists p'', ci. split; [exact Hloop|].
        rewrite Hrecent in H. exact H.
Qed.

End GroupingRuns.

(** [split_subimages] on a fresh dictionary records the subimages of the
    groups of [channel_groups], in that order. *)
Lemma split_subimages_runs image_in p :
  wf_spec (nativespec image_in) ->
  metadata_settable (nativespec image_in) p ->
  fresh p ->
  exists p',
    split_subimages image_in p = Ret (Some p')
    /\ planned image_in (set_roi (set_chend (p_roi p) 4) p) p'
         (channel_groups (channelnames (nativespec image_in))).
Proof.
  intros Hwf Hset (Hr & Hc & Hs & Hb & Hn).
  set (p0 := set_roi (set_chend (p_roi p) 4) p).
  unfold split_subimages. fold p0.
  destruct (channelnames (nativespec image_in)) as [|c rest] eqn:Hnames.
  - cbn [split_loop bind fst]. subst p0.
    cbn [set_roi sub_specs sub_pixels]. rewrite Hs, Hb. cbn.
    eexists. split; [reflexivity|].
    repeat split; cbn; auto; now rewrite Hs.
  - destruct (split_loop_runs image_in p0 Hwf Hset (c :: rest) [] p0 [] [])
      as (p' & ci & Hloop & Hopt & Hplan).
    + exact Hnames.
    + discriminate.
    + repeat split.
    + apply planned_nil; subst p0; assumption.
    + reflexivity.
    + subst p0. cbn. exact Hc.
    + cbn [List.length Z.of_nat map List.concat app] in Hloop, Hplan.
      rewrite Hloop. cbn [bind fst].
      assert (Hr0 : recent_sub p0 = "") by (subst p0; exact Hr).
      rewrite Hr0 in Hplan.
      destruct Hplan as (H1 & H2 & H3 & H4).
      assert (Hlen : List.length (sub_specs p') = List.length (sub_pixels p')).
      { rewrite H3, length_map, <- (length_map (group_channelnames p0)), <- H1.
        now rewrite length_map. }
      rewrite Hlen, Nat.eqb_refl.
      exists p'. split; [reflexivity|]. unfold channel_groups.
      repeat split; assumption.
Qed.

(** *** What the groups look like *)

Lemma runs_inner start recent open c c' rest :
  runs start recent open (c :: c' :: rest)
  = if truthy recent && negb (String.eqb (group_key c) recent)
    then mkGroup start recent open
         :: runs (start + Z.of_nat (List.length open)) (group_key c) [c]
              (c' :: rest)
    else runs start (group_key c) (open ++ [c]) (c' :: rest).
Proof. reflexivity. Qed.

Lemma runs_last_two pre c1 c2 :
  forall start recent open,
  exists front g ns,
    runs start recent open (pre ++ [c1; c2]) = front ++ [g]
    /\ g_names g = ns ++ [c1; c2]
    /\ g_key g = group_key c1.
Proof.
  induction pre as [|c pre IH]; intros start recent open.
  - cbn [app runs].
    destruct (truthy recent && negb (String.eqb (group_key c1) recent)).
    + eexists [_], _, []. cbn [app]. repeat split.
    + eexists [], _, open. cbn [app g_names g_key].
      rewrite <- app_assoc. repeat split.
  - cbn [app runs].
    destruct (pre ++ [c1; c2]) as [|c' rest] eqn:Hrest;
      [now destruct pre|].
    destruct (truthy recent && negb (String.eqb (group_key c) recent)).
    + destruct (IH (start + Z.of_nat (List.length open)) (group_key c) [c])
        as (front & g & ns & Hruns & H).
      exists (mkGroup start recent open :: front), g, ns.
      rewrite Hruns. split; [reflexivity | exact H].
    + apply IH.
Qed.

Lemma runs_head names :
  forall start recent open,
    truthy recent = true ->
    names <> [] ->
    exists g rest, runs start recent open names = g :: rest /\ g_key g = recent.
Proof.
  induction names as [|c names IH]; intros start recent open Hr Hne;
    [contradiction|].
  cbn [runs]. destruct names as [|c' names]; [eauto|].
  rewrite Hr. cbn [andb].
  destruct (String.eqb_spec (group_key c) recent) as [E|E]; cbn [negb];
    [|eauto].
  rewrite E. apply IH; [exact Hr | discriminate].
Qed.

(** With no empty key, every closed group but the last holds channels of
    one key, its name; so does the last group up to the last channel. *)
Lemma runs_one_key names :
  forall start recent open,
    Forall (fun c => truthy (group_key c) = true) names ->
    Forall (fun c => group_key c = recent) open ->
    (open <> [] -> truthy recent = true) ->
    names <> [] ->
    exists front g,
      runs start recent open names = front ++ [g]
      /\ Forall (fun h => Forall (fun c => group_key c = g_key h) (g_names h))
           front
      /\ Forall (fun c => group_key c = g_key g) (removelast (g_names g)).
Proof.
  induction names as [|c names IH]; intros start recent open Hkeys Hopen Htruthy
    Hne; [contradiction|].
  inversion Hkeys as [|? ? Hc Hrest]; subst.
  cbn [runs]. destruct names as [|c' names].
  - exists [], (mkGroup start recent (open ++ [c])). cbn [app g_names g_key].
    rewrite removelast_last. repeat split; [constructor | exact Hopen].
  - destruct (truthy recent && negb (String.eqb (group_key c) recent)) eqn:Hnew.
    + destruct (IH (start + Z.of_nat (List.length open)) (group_key c) [c])
        as (front & g & Hruns & Hfront & Hlast);
        [exact Hrest | repeat constructor | intros _; exact Hc | discriminate |].
      exists (mkGroup start recent open :: front), g.
      rewrite Hruns. split; [reflexivity|].
      split; [constructor; [exact Hopen | exact Hfront] | exact Hlast].
    + apply IH; [exact Hrest | | intros _; exact Hc | discriminate].
      apply Forall_app. split; [|repeat constructor].
      destruct open as [|o open]; [constructor|].
      rewrite Htruthy in Hnew by discriminate. cbn [andb] in Hnew.
      apply negb_false_iff, String.eqb_eq in Hnew.
      rewrite Hnew. exact Hopen.
Qed.

(** With no empty key, two groups that follow each other never have the
    same name. *)
Lemma runs_names_differ names :
  forall start recent open front g1 g2 back,
    Forall (fun c => truthy (group_key c) = true) names ->
    runs start recent open names = front ++ g1 :: g2 :: back ->
    g_key g1 <> g_key g2.
Proof.
  induction names as [|c names IH];
    intros start recent open front g1 g2 back Hkeys Hruns.
  - now destruct front.
  - inversion Hkeys as [|? ? Hc Hrest]; subst.
    destruct names as [|c' names].
    + cbn [runs] in Hruns. destruct front as [|f front]; [discriminate|].
      injection Hruns as _ Hruns. now destruct front.
    + rewrite runs_inner in Hruns.
      destruct (truthy recent && negb (String.eqb (group_key c) recent)) eqn:Hnew.
      * remember (runs (start + Z.of_nat (List.length open)) (group_key c) [c]
                    (c' :: names)) as tail eqn:Htail.
        destruct front as [|f front].
        -- cbn [app] in Hruns. injection Hruns as Hg1 Hg2.
           destruct (runs_head (c' :: names)
                       (start + Z.of_nat (List.length open)) (group_key c) [c]
                       Hc) as (g & rest & Hhead & Hkey); [discriminate|].
           rewrite <- Htail, Hg2 in Hhead. injection Hhead as -> _.
           subst g1. cbn [g_key]. rewrite Hkey.
           apply andb_prop in Hnew. destruct Hnew as (_ & Hneq).
           apply negb_true_iff, String.eqb_neq in Hneq. congruence.
        -- cbn [app] in Hruns. injection Hruns as _ Hruns.
           rewrite Htail in Hruns.
           exact (IH _ _ _ _ _ _ _ Hrest Hruns).
      * exact (IH _ _ _ _ _ _ _ Hrest Hruns).
Qed.

(** The groups of [runs] follow each other and none is empty. *)
Lemma runs_contiguous names :
  forall start recent open,
    (truthy recent = true -> open <> []) ->
    contiguous start (runs start recent open names).
Proof.
  induction names as [|c names IH]; intros start recent open Hopen;
    [exact I|].
  destruct names as [|c' names].
  - cbn [runs contiguous g_start g_names]. repeat split.
    now destruct open.
  - rewrite runs_inner.
    destruct (truthy recent && negb (String.eqb (group_key c) recent)) eqn:Hnew.
    + apply andb_prop in Hnew. destruct Hnew as (Ht & _).
      cbn [contiguous g_start g_names]. split; [reflexivity|].
      split; [exact (Hopen Ht)|].
      apply IH. intros _. discriminate.
    + apply IH. intros _. now destruct open.
Qed.

Lemma channel_groups_contiguous names : contiguous 0 (channel_groups names).
Proof. apply runs_contiguous. discriminate. Qed.

(** ** [update_specs] *)

Lemma iequals_eq a b : iequals a b = true <-> lower a = lower b.
Proof. unfold iequals. apply String.eqb_eq. Qed.

Lemma iequals_other a b name :
  iequals a b = true -> iequals b name = false -> iequals a name = false.
Proof.
  unfold iequals. intros Hab Hb. apply String.eqb_eq in Hab. now rewrite Hab.
Qed.

(** Setting an attribute leaves the entries of other names, up to case,
    where they are. *)
Lemma find_set_attrib_other name pv l :
  iequals (pv_name pv) name = false ->
  find (fun a => iequals (pv_name a) name) (set_attrib pv l)
  = find (fun a => iequals (pv_name a) name) l.
Proof.
  intros Hne. induction l as [|a l IH]; cbn [set_attrib find].
  - now rewrite Hne.
  - destruct (iequals (pv_name a) (pv_name pv)) eqn:E; cbn [find].
    + now rewrite Hne, (iequals_other _ _ _ E Hne).
    + destruct (iequals (pv_name a) name); [reflexivity | exact IH].
Qed.

Lemma find_filter_kept {A : Type} (f keep : A -> bool) l :
  (forall b, In b l -> f b = true -> keep b = true) ->
  find f (filter keep l) = find f l.
Proof.
  induction l as [|a l IH]; intros H; cbn [filter find]; [reflexivity|].
  destruct (f a) eqn:Hf.
  - rewrite (H a (or_introl eq_refl) Hf). cbn [find]. now rewrite Hf.
  - destruct (keep a); cbn [find]; rewrite ?Hf; apply IH;
      intros b Hb; apply H; now right.
Qed.

Lemma spares_incl nm l l' name :
  (forall a, In a l' -> In a l) -> spares nm l name -> spares nm l' name.
Proof. intros Hin H a b Ha Hb. apply H; now apply Hin. Qed.

Section UpdateSpecs.

Variable erase_fails : ParamValue -> bool.
Variable name_matches : string -> string -> bool.

Lemma erase_manifests_returns :
  (forall a, erase_fails a = false) ->
  forall turns position attribs,
  exists attribs',
    erase_manifests erase_fails name_matches turns position attribs
    = Ret attribs'.
Proof.
  intros Hok. induction turns as [|turns IH]; intros position attribs;
    cbn [erase_manifests]; [eauto|].
  destruct (nth_error attribs position) as [a|]; [|eauto].
  rewrite Hok. destruct (contains "manifest" (pv_name a)); apply IH.
Qed.

(** The walk raises nothing but [RuntimeWarning]. *)
Lemma erase_manifests_raises_warning :
  forall turns position attribs e,
    erase_manifests erase_fails name_matches turns position attribs = Raise e ->
    e = RuntimeWarning.
Proof.
  induction turns as [|turns IH]; intros position attribs e H;
    cbn [erase_manifests] in H; [discriminate|].
  destruct (nth_error attribs position) as [a|]; [|discriminate].
  destruct (contains "manifest" (pv_name a)); [|exact (IH _ _ _ H)].
  destruct (erase_fails a); [now injection H as <- | exact (IH _ _ _ H)].
Qed.

(** The two halves of [update_specs]: the walk over the attributes, and
    the [Compression] attribute. *)
Lemma update_specs_unfold spec p :
  update_specs erase_fails name_matches spec p
  = attribs <-
      (if p_rm_manifest p
       then erase_manifests erase_fails name_matches
              (List.length (extra_attribs spec)) 0 (extra_attribs spec)
       else Ret (extra_attribs spec)) ;;
    Ret (with_extra_attribs
           (match compression_given p with
            | Some c => put_value "Compression" (VStr (strip "'" c)) attribs
            | None => attribs
            end)
           (with_roi (p_roi p) spec)).
Proof.
  unfold update_specs. cbn [with_roi extra_attribs].
  destruct (if p_rm_manifest p then _ else _) as [attribs|e]; cbn [bind];
    [|reflexivity].
  destruct (compression_given p); reflexivity.
Qed.

Lemma update_specs_returns spec p :
  (forall a, erase_fails a = false) ->
  exists spec', update_specs erase_fails name_matches spec p = Ret spec'.
Proof.
  intros Hok. rewrite update_specs_unfold.
  destruct (p_rm_manifest p).
  - destruct (erase_manifests_returns Hok (List.length (extra_attribs spec)) 0
                (extra_attribs spec)) as (l & ->).
    cbn [bind]. eauto.
  - cbn [bind]. eauto.
Qed.

Lemma update_specs_raises_warning spec p e :
  update_specs erase_fails name_matches spec p = Raise e -> e = RuntimeWarning.
Proof.
  rewrite update_specs_unfold. destruct (p_rm_manifest p); cbn [bind].
  - destruct (erase_manifests erase_fails name_matches _ 0 (extra_attribs spec))
      as [l|e'] eqn:He; cbn [bind]; [discriminate|].
    intros [= <-]. exact (erase_manifests_raises_warning _ _ _ _ He).
  - discriminate.
Qed.

(** [update_specs] touches the data window and the attributes only. *)
Lemma update_specs_changes spec p spec' :
  update_specs erase_fails name_matches spec p = Ret spec' ->
  spec' = with_extra_attribs (extra_attribs spec') (with_roi (p_roi p) spec).
Proof.
  rewrite update_specs_unfold.
  destruct (if p_rm_manifest p then _ else _) as [attribs|e]; cbn [bind];
    [|discriminate].
  now intros [= <-].
Qed.

Lemma spec_roi_with_roi r s :
  spec_roi (with_roi r s) = over_channels r (nchannels s).
Proof.
  unfold spec_roi, over_channels.
  cbn [with_roi spec_x spec_y spec_z width height depth nchannels].
  f_equal; lia.
Qed.

Lemma update_specs_keeps spec p spec' :
  update_specs erase_fails name_matches spec p = Ret spec' ->
  channelnames spec' = channelnames spec
  /\ nchannels spec' = nchannels spec
  /\ spec_roi spec' = over_channels (p_roi p) (nchannels spec)
  /\ spec_window spec' = roi_window (p_roi p).
Proof.
  intros H. apply update_specs_changes in H. rewrite H.
  repeat split. apply (spec_roi_with_roi (p_roi p) spec).
Qed.

(** The walk leaves the entries of a name it spares where they are. *)
Lemma find_erase_manifests name :
  forall turns position attribs attribs',
    spares name_matches attribs name ->
    erase_manifests erase_fails name_matches turns position attribs
    = Ret attribs' ->
    find (fun a => iequals (pv_name a) name) attribs'
    = find (fun a => iequals (pv_name a) name) attribs.
Proof.
  induction turns as [|turns IH];
    intros position attribs attribs' Hsp H; cbn [erase_manifests] in H.
  - now injection H as <-.
  - destruct (nth_error attribs position) as [a|] eqn:Ha;
      [|now injection H as <-].
    destruct (contains "manifest" (pv_name a)) eqn:Hm.
    + destruct (erase_fails a); [discriminate|].
      rewrite (IH _ _ _ (spares_incl _ attribs _ _
                           (fun b Hb => proj1 (proj1 (filter_In _ _ _) Hb))
                           Hsp) H).
      apply find_filter_kept. intros b Hb Hname.
      apply negb_true_iff. apply (Hsp a b); auto.
      exact (nth_error_In _ _ Ha).
    + exact (IH _ _ _ Hsp H).
Qed.

(** [update_specs] leaves the value of an attribute it spares, the
    compression apart. *)
Lemma update_specs_keeps_attribute spec p spec' name :
  update_specs erase_fails name_matches spec p = Ret spec' ->
  p_rm_manifest p = false \/ spares name_matches (extra_attribs spec) name ->
  iequals "Compression" name = false ->
  getattribute name spec' = getattribute name spec.
Proof.
  rewrite update_specs_unfold. intros H Hsp Hcomp. unfold getattribute.
  assert (Hfind : forall attribs,
             find (fun a => iequals (pv_name a) name)
               (match compression_given p with
                | Some c =>
                    set_attrib
                      (mkParam "Compression" "string" (VStr (strip "'" c)))
                      attribs
                | None => attribs
                end)
             = find (fun a => iequals (pv_name a) name) attribs).
  { intros attribs. destruct (compression_given p); [|reflexivity].
    now apply find_set_attrib_other. }
  destruct (p_rm_manifest p) eqn:Hrm.
  - destruct Hsp as [Hsp | Hsp]; [discriminate|].
    destruct (erase_manifests erase_fails name_matches _ 0 (extra_attribs spec))
      as [attribs|e] eqn:He; cbn [bind] in H; [|discriminate].
    injection H as <-. cbn [with_extra_attribs extra_attribs put_value].
    rewrite Hfind. now rewrite (find_erase_manifests name _ _ _ _ Hsp He).
  - cbn [bind] in H. injection H as <-.
    cbn [with_extra_attribs extra_attribs put_value]. now rewrite Hfind.
Qed.

End UpdateSpecs.

(** ** What a split has recorded whenever it returns *)

Lemma slice_length {A : Type} (l : list A) (a b : Z) :
  0 <= a <= b -> b <= Z.of_nat (List.length l) ->
  Z.of_nat (List.length (slice l a b)) = b - a.
Proof.
  intros Hab Hb. unfold slice, clamp.
  destruct (Z.ltb_spec a 0); [lia|]. destruct (Z.ltb_spec b 0); [lia|].
  rewrite !Z.min_l by lia.
  rewrite length_firstn, length_skipn. lia.
Qed.

Lemma firstn_slice {A : Type} (l : list A) (a b : Z) :
  0 <= a <= b -> b <= Z.of_nat (List.length l) ->
  firstn (Z.to_nat a) l ++ slice l a b = firstn (Z.to_nat b) l.
Proof.
  intros Hab Hb. unfold slice, clamp.
  destruct (Z.ltb_spec a 0); [lia|]. destruct (Z.ltb_spec b 0); [lia|].
  rewrite !Z.min_l by lia.
  replace (Z.to_nat b) with (Z.to_nat a + Z.to_nat (b - a))%nat by lia.
  rewrite <- (firstn_skipn (Z.to_nat a) l) at 3.
  rewrite firstn_app, firstn_firstn, length_firstn.
  replace (Nat.min (Z.to_nat a + Z.to_nat (b - a)) (Z.to_nat a))
    with (Z.to_nat a) by lia.
  replace (Z.to_nat a + Z.to_nat (b - a)
           - Nat.min (Z.to_nat a) (List.length l))%nat
    with (Z.to_nat (b - a)) by lia.
  reflexivity.
Qed.

(** The three ways a turn of the loop can go when it returns: no group
    is closed; the channel is the last one and closes the open group
    together with itself; the key changes and closes the open group. *)
Lemma split_step_cases image_in p channelindex c p' channelindex' :
  split_step image_in (p, channelindex) c = Ret (p', channelindex') ->
  let nch := nchannels (nativespec image_in) in
  let p1 := set_current_sub (group_key c) p in
  (channelindex + 1 <> nch
   /\ channelindex' = channelindex + 1
   /\ p' = set_sub_ch_count (sub_ch_count p + 1)
             (set_recent_sub (group_key c) p1))
  \/ (channelindex + 1 = nch
      /\ channelindex' = channelindex + 2
      /\ exists p2,
           close_subimage image_in (channelindex + 1)
             (set_sub_ch_count (sub_ch_count p + 1) p1) = Ret p2
           /\ p' = set_sub_ch_count (sub_ch_count p2 + 1)
                     (set_recent_sub (current_sub p2) p2))
  \/ (channelindex + 1 <> nch
      /\ channelindex' = channelindex + 1
      /\ exists p2,
           close_subimage image_in channelindex p1 = Ret p2
           /\ p' = set_sub_ch_count (sub_ch_count p2 + 1)
                     (set_recent_sub (current_sub p2) p2)).
Proof.
  intros H nch p1. unfold split_step in H. fold nch in H. fold p1 in H.
  destruct (Z.eqb_spec (channelindex + 1) nch) as [Hlast | Hinner].
  - rewrite orb_true_r in H.
    destruct (close_subimage image_in (channelindex + 1)
                (set_sub_ch_count (sub_ch_count p1 + 1) p1))
      as [p2|e] eqn:Hclose; cbn [bind] in H; [|discriminate].
    injection H as <- <-. right. left.
    split; [exact Hlast|]. split; [lia|]. exists p2.
    split; [exact Hclose | reflexivity].
  - rewrite orb_false_r in H.
    destruct (truthy (recent_sub p1)
              && negb (String.eqb (current_sub p1) (recent_sub p1))).
    + destruct (close_subimage image_in channelindex p1)
        as [p2|e] eqn:Hclose; cbn [bind] in H; [|discriminate].
      injection H as <- <-. right. right.
      split; [exact Hinner|]. split; [reflexivity|]. exists p2.
      split; reflexivity.
    + cbn [bind] in H. injection H as <- <-. left.
      split; [exact Hinner|]. split; reflexivity.
Qed.



Section SplitReturns.

Variable image_in : ImageBuf.
Variable r : ROI.
Variable fx : bool.

Let native := nativespec image_in.
Let all_names := channelnames native.

Hypothesis native_wf : wf_spec native.

Let renamed (names : list string) : list string :=
  if fx then map fixed_name names else names.

Lemma counted_renamed p channelindex :
  counted native r fx p channelindex ->
  List.concat (map channelnames (sub_specs p))
  = renamed (firstn (Z.to_nat (channelindex - sub_ch_count p)) all_names).
Proof. intros (_ & _ & _ & _ & H). rewrite H. unfold renamed. now destruct fx. Qed.

Lemma renamed_app a b : renamed (a ++ b) = renamed a ++ renamed b.
Proof. unfold renamed. destruct fx; [apply map_app | reflexivity]. Qed.

(** Closing the open group keeps the count. *)
Lemma close_subimage_counted p channelindex p' :
  close_subimage image_in channelindex p = Ret p' ->
  counted native r fx p channelindex ->
  channelindex <= Z.of_nat (List.length all_names) ->
  p_roi p' = r
  /\ p_fix_channels p' = fx
  /\ sub_ch_count p' = 0
  /\ Forall (fits_source native r) (sub_specs p')
  /\ List.concat (map channelnames (sub_specs p'))
     = renamed (firstn (Z.to_nat channelindex) all_names).
Proof.
  intros Hclose Hc Hlen.
  assert (Hcat := counted_renamed p channelindex Hc).
  destruct Hc as (Hroi & Hfx & Hcount & Hfits & _).
  destruct (close_subimage_inv _ _ _ _ Hclose) as (typedesc & attribs & ->).
  cbn [set_sub_ch_count append_sub set_sub_range p_roi p_fix_channels
       sub_ch_count sub_specs].
  replace (channelindex - 1 + 1) with channelindex by lia.
  fold native. fold all_names.
  set (names := slice all_names (channelindex - sub_ch_count p) channelindex).
  assert (Hnames : Z.of_nat (List.length names) = sub_ch_count p)
    by (subst names; rewrite slice_length; lia).
  assert (Hout : (if p_fix_channels p then fix_channel_names names else names)
                 = renamed names).
  { unfold renamed. rewrite Hfx. destruct fx; [|reflexivity].
    apply fix_channel_names_map. }
  split; [exact Hroi|]. split; [exact Hfx|]. split; [reflexivity|]. split.
  - apply Forall_app. split; [exact Hfits|]. constructor; [|constructor].
    unfold fits_source.
    cbn [with_extra_attribs bare_spec with_channelnames with_full with_roi
         ImageSpec_new nchannels channelnames channelformats spec_window
         spec_x spec_y spec_z width height depth full_width full_height
         full_x full_y full_z].
    rewrite Hout, <- Hroi.
    assert (Hl : List.length (renamed names) = List.length names).
    { unfold renamed. destruct fx; [apply length_map | reflexivity]. }
    rewrite Hl, Hnames. repeat split.
  - rewrite map_app, concat_app. cbn [map List.concat].
    cbn [with_extra_attribs bare_spec with_channelnames channelnames].
    rewrite app_nil_r, Hcat, Hout, <- renamed_app. f_equal.
    subst names. apply firstn_slice; lia.
Qed.

(** A turn of the loop keeps the count, and the last turn leaves every
    channel in a recorded spec. *)
Lemma split_step_counted p channelindex c p' channelindex' :
  split_step image_in (p, channelindex) c = Ret (p', channelindex') ->
  counted native r fx p channelindex ->
  channelindex < Z.of_nat (List.length all_names) ->
  (channelindex + 1 < Z.of_nat (List.length all_names) ->
   channelindex' = channelindex + 1
   /\ counted native r fx p' channelindex')
  /\ (channelindex + 1 = Z.of_nat (List.length all_names) ->
      Forall (fits_source native r) (sub_specs p')
      /\ List.concat (map channelnames (sub_specs p')) = renamed all_names).
Proof.
  intros Hstep Hc Hlt.
  assert (Hn : nchannels (nativespec image_in)
               = Z.of_nat (List.length all_names)) by apply native_wf.
  assert (Hcat := counted_renamed p channelindex Hc).
  destruct (split_step_cases _ _ _ _ _ _ Hstep)
    as [(He & -> & ->) | [(He & -> & p2 & Hclose & ->)
                         | (He & -> & p2 & Hclose & ->)]];
    rewrite Hn in He.
  - split; [|intros E; contradiction].
    intros _. split; [reflexivity|].
    destruct Hc as (Hroi & Hfx & Hcount & Hfits & Hnames).
    unfold counted.
    cbn [set_sub_ch_count set_recent_sub set_current_sub p_roi p_fix_channels
         sub_ch_count sub_specs].
    replace (channelindex + 1 - (sub_ch_count p + 1))
      with (channelindex - sub_ch_count p) by lia.
    repeat split; try assumption; lia.
  - split; [intros E; lia|]. intros _.
    apply close_subimage_counted in Hclose.
    + destruct Hclose as (_ & _ & _ & Hfits & Hnames).
      cbn [set_sub_ch_count set_recent_sub sub_specs].
      split; [exact Hfits|]. rewrite Hnames, He, Nat2Z.id.
      now rewrite firstn_all.
    + destruct Hc as (Hroi & Hfx & Hcount & Hfits & Hnames).
      unfold counted.
      cbn [set_sub_ch_count set_current_sub p_roi p_fix_channels
           sub_ch_count sub_specs].
      replace (channelindex + 1 - (sub_ch_count p + 1))
        with (channelindex - sub_ch_count p) by lia.
      repeat split; try assumption; lia.
    + lia.
  - split; [|intros E; contradiction].
    intros _. split; [reflexivity|].
    apply close_subimage_counted in Hclose.
    + destruct Hclose as (Hroi & Hfx & Hc0 & Hfits & Hnames).
      unfold counted.
      cbn [set_sub_ch_count set_recent_sub p_roi p_fix_channels
           sub_ch_count sub_specs].
      rewrite Hc0.
      replace (channelindex + 1 - (0 + 1)) with channelindex by lia.
      destruct Hc as (_ & _ & Hcount & _).
      repeat split; try assumption; try lia.
      rewrite Hnames. unfold renamed. now destruct fx.
    + exact Hc.
    + lia.
Qed.

Lemma split_loop_counted rest :
  forall done p p' channelindex',
    all_names = done ++ rest ->
    rest <> [] ->
    split_loop image_in (p, Z.of_nat (List.length done)) rest
    = Ret (p', channelindex') ->
    counted native r fx p (Z.of_nat (List.length done)) ->
    Forall (fits_source native r) (sub_specs p')
    /\ List.concat (map channelnames (sub_specs p')) = renamed all_names.
Proof.
  induction rest as [|c rest IH]; intros done p p' ci Hall Hne Hloop Hc;
    [contradiction|].
  cbn [split_loop] in Hloop.
  destruct (split_step image_in (p, Z.of_nat (List.length done)) c)
    as [[p1 ci1]|e] eqn:Hstep; cbn [bind] in Hloop; [|discriminate].
  assert (Hlen : Z.of_nat (List.length all_names)
                 = Z.of_nat (List.length done) + 1
                   + Z.of_nat (List.length rest)).
  { rewrite Hall, length_app. cbn [List.length]. lia. }
  destruct (split_step_counted _ _ _ _ _ Hstep Hc) as (Hinner & Hlast); [lia|].
  destruct rest as [|c' rest].
  - cbn [split_loop] in Hloop. injection Hloop as <- _.
    apply Hlast. cbn [List.length] in Hlen. lia.
  - destruct Hinner as (-> & Hc1); [cbn [List.length] in Hlen; lia|].
    rewrite <- (length_snoc_Z done c) in Hloop, Hc1.
    apply (IH (done ++ [c]) p1 p' ci); auto; [|discriminate].
    now rewrite <- app_assoc.
Qed.

End SplitReturns.

(** Whenever a split of a fresh dictionary returns, its specs fit the
    source and name the channels of the source in order, each once,
    renamed when [fix_channels] is set. *)
Lemma split_subimages_counted image_in p p' :
  wf_spec (nativespec image_in) ->
  fresh p ->
  split_subimages image_in p = Ret (Some p') ->
  Forall (fits_source (nativespec image_in) (set_chend (p_roi p) 4))
    (sub_specs p')
  /\ List.concat (map channelnames (sub_specs p'))
     = if p_fix_channels p
       then map fixed_name (channelnames (nativespec image_in))
       else channelnames (nativespec image_in).
Proof.
  intros Hwf (Hr & Hc & Hs & Hb & Hn) H. unfold split_subimages in H.
  destruct (split_loop image_in (set_roi (set_chend (p_roi p) 4) p, 0)
              (channelnames (nativespec image_in)))
    as [[p1 ci]|e] eqn:Hloop; cbn [bind fst] in H; [|discriminate].
  destruct (Nat.eqb _ _); [|discriminate].
  injection H as <-.
  destruct (channelnames (nativespec image_in)) as [|c rest] eqn:Hnames.
  - cbn [split_loop] in Hloop. injection Hloop as <- _.
    cbn [set_roi sub_specs]. rewrite Hs. split; [constructor|].
    now destruct (p_fix_channels p).
  - rewrite <- Hnames in *.
    apply (split_loop_counted image_in (set_chend (p_roi p) 4)
             (p_fix_channels p) Hwf (channelnames (nativespec image_in)) []
             (set_roi (set_chend (p_roi p) 4) p) p1 ci).
    + reflexivity.
    + rewrite Hnames. discriminate.
    + exact Hloop.
    + unfold counted. cbn [set_roi p_roi p_fix_channels sub_ch_count sub_specs].
      rewrite Hc, Hs. cbn. repeat split; try lia; [constructor|].
      now destruct (p_fix_channels p).
Qed.


(** ** Channel order of the planned subimages *)

Lemma concat_group_channelnames p0 gs :
  List.concat (map (group_channelnames p0) gs)
  = if p_fix_channels p0
    then map fixed_name (List.concat (map g_names gs))
    else List.concat (map g_names gs).
Proof.
  unfold group_channelnames. destruct (p_fix_channels p0).
  - rewrite concat_map, map_map. reflexivity.
  - reflexivity.
Qed.

Lemma single_descriptor ef nm spec p :
  (forall specs,
     (spec' <- update_specs ef nm spec p ;; Ret [spec']) = Ret specs ->
     List.concat (map channelnames specs) = channelnames spec)
  /\ ((forall a, ef a = false) ->
      exists specs,
        (spec' <- update_specs ef nm spec p ;; Ret [spec']) = Ret specs).
Proof.
  split.
  - intros specs H.
    destruct (update_specs ef nm spec p) as [spec'|e] eqn:E; cbn [bind] in H;
      [|discriminate].
    injection H as <-. cbn [map List.concat].
    rewrite app_nil_r. apply (update_specs_keeps ef nm spec p spec' E).
  - intros Hok. destruct (update_specs_returns ef nm spec p Hok) as (spec' & ->).
    cbn [bind]. eauto.
Qed.

Lemma flat_nsubimages src :
  more_subimages src = [] -> (1 <? nsubimages src) = false.
Proof. unfold nsubimages, subimages. now intros ->. Qed.

(** C1, as the code has it: for a flat source, split or not, the channel
    lists of the specs handed to the output, one after the other, are the
    source's channel list in its order, with nothing lost or repeated;
    when the source is split with [fix_channels] set, each name appears
    as [fix_channels] rewrites it.  The specs are produced whenever
    [erase_attribute] does not raise and, for a split, the [attribute]
    calls have values they take. *)
Theorem descriptors_keep_channel_order nz ef nm src ac mp rm fx comp vb :
  more_subimages src = [] ->
  wf_spec (nativespec (first_subimage src)) ->
  (forall specs,
     descriptors nz ef nm src ac mp rm fx comp vb = Ret specs ->
     List.concat (map channelnames specs)
     = if mp && fx
       then map fixed_name (channelnames (nativespec (first_subimage src)))
       else channelnames (nativespec (first_subimage src)))
  /\ ((forall a, ef a = false) ->
      (mp = true ->
       metadata_settable (nativespec (first_subimage src))
         (initial_properties nz (first_subimage src) ac mp rm fx comp vb)) ->
      exists specs, descriptors nz ef nm src ac mp rm fx comp vb = Ret specs).
Proof.
  intros Hflat Hwf. unfold descriptors, plan_subimages.
  rewrite (flat_nsubimages src Hflat).
  set (image_in := first_subimage src) in *.
  set (p := initial_properties nz image_in ac mp rm fx comp vb).
  assert (Hmp : p_multipart p = mp) by reflexivity. rewrite Hmp.
  assert (Hfresh : fresh p) by apply initial_properties_fresh.
  destruct mp; cbn [andb].
  - split.
    + intros specs H.
      destruct (split_subimages image_in p) as [[p'|]|e] eqn:Hsplit;
        cbn [bind] in H; try discriminate.
      destruct (split_subimages_counted image_in p p' Hwf Hfresh Hsplit)
        as (_ & Hcat).
      change (p_fix_channels p) with fx in Hcat.
      destruct (sub_specs p') as [|s specs'] eqn:Hspecs.
      * destruct (single_descriptor ef nm (nativespec image_in) p') as (H1 & _).
        rewrite (H1 specs H). cbn [map List.concat] in Hcat.
        destruct fx; [|now rewrite <- Hcat].
        rewrite <- Hcat.
        destruct (channelnames (nativespec image_in)); [reflexivity | discriminate].
      * injection H as <-. exact Hcat.
    + intros Hok Hset.
      destruct (split_subimages_groups image_in p Hwf (Hset eq_refl) Hfresh)
        as (p' & gs & Hsplit & _).
      rewrite Hsplit. cbn [bind].
      destruct (sub_specs p') as [|s specs'] eqn:Hspecs; [|eauto].
      destruct (single_descriptor ef nm (nativespec image_in) p') as (_ & H2).
      exact (H2 Hok).
  - cbn [bind].
    destruct (single_descriptor ef nm (nativespec image_in) p) as (H1 & H2).
    split; [|intros Hok _; exact (H2 Hok)].
    intros specs H. apply H1. exact H.
Qed.

Lemma descriptors_keep_channel_order_witness :
  exists specs,
    descriptors shrink_wrap Sample.erasable Sample.same_name
      (Sample.flat ["R"; "G"; "B"; "A"; "depth.Z"; "lightgroup.R"; "lightgroup.G"])
      false true true true None false = Ret specs.
Proof.
  apply (descriptors_keep_channel_order shrink_wrap Sample.erasable
           Sample.same_name
           (Sample.flat ["R"; "G"; "B"; "A"; "depth.Z"; "lightgroup.R"; "lightgroup.G"])
           false true true true None false).
  - reflexivity.
  - split; [reflexivity | left; reflexivity].
  - reflexivity.
  - intros _. split; [repeat constructor | reflexivity].
Defined.

(** C1 as stated fails: with [fix_channels] set, the channel [depth.z] of
    the source is [depth.Z] in the planned subimage, so the planned
    channel lists do not spell the source's list. *)
Lemma channel_order_counterexample :
  exists specs,
    descriptors shrink_wrap Sample.erasable Sample.same_name
      (Sample.flat ["R"; "G"; "B"; "A"; "depth.z"; "depth.a"])
      false true false true None false = Ret specs
    /\ List.concat (map channelnames specs)
       = ["R"; "G"; "B"; "A"; "depth.Z"; "depth.a"]
    /\ List.concat (map channelnames specs)
       <> channelnames
            (nativespec
               (first_subimage
                  (Sample.flat ["R"; "G"; "B"; "A"; "depth.z"; "depth.a"]))).
Proof.
  eexists. split; [vm_compute; reflexivity|].
  split; [reflexivity | discriminate].
Qed.

(** ** Grouping at the last channel *)

(** C2, code defect: on the channels R, G, B, A, depth.Z the key of the
    last channel ([depth]) differs from the key of the channel before it
    ([rgba]), and [split_subimages] still closes one single group, named
    [rgba], that holds all five channels. *)
Theorem last_channel_joins_previous_group :
  group_key "A" = "rgba"
  /\ group_key "depth.Z" = "depth"
  /\ exists p,
       split_subimages
         (Sample.image ["R"; "G"; "B"; "A"; "depth.Z"] Sample.attribs)
         (initial_properties shrink_wrap
            (Sample.image ["R"; "G"; "B"; "A"; "depth.Z"] Sample.attribs)
            false true false false None false)
       = Ret (Some p)
       /\ map channelnames (sub_specs p) = [["R"; "G"; "B"; "A"; "depth.Z"]]
       /\ sub_names p = [VStr "rgba"].
Proof.
  split; [reflexivity|]. split; [reflexivity|].
  eexists. split; [vm_compute; reflexivity|].
  split; reflexivity.
Qed.

(** C8, code defect: the single channel Y is closed as one group over
    channel 0, but under the empty name the loop starts with, not under
    the key [Y] of the channel. *)
Theorem single_channel_group_is_unnamed :
  group_key "Y" = "Y"
  /\ exists p,
       split_subimages (Sample.image ["Y"] Sample.attribs)
         (initial_properties shrink_wrap (Sample.image ["Y"] Sample.attribs)
            false true false false None false)
       = Ret (Some p)
       /\ map channelnames (sub_specs p) = [["Y"]]
       /\ (sub_start p, sub_end p) = (0, 0)
       /\ sub_names p = [VStr ""]
       /\ map (getattribute "name") (sub_specs p) = [VStr ""].
Proof.
  split; [reflexivity|].
  eexists. split; [vm_compute; reflexivity|].
  repeat split; reflexivity.
Qed.

(** The grouping the spec gives as an example is the one the code makes. *)
Example seven_channels_three_groups :
  exists p,
    split_subimages
      (Sample.image
         ["R"; "G"; "B"; "A"; "depth.Z"; "lightgroup.R"; "lightgroup.G"]
         Sample.attribs)
      (initial_properties shrink_wrap
         (Sample.image
            ["R"; "G"; "B"; "A"; "depth.Z"; "lightgroup.R"; "lightgroup.G"]
            Sample.attribs)
         false true false false None false)
    = Ret (Some p)
    /\ map channelnames (sub_specs p)
       = [["R"; "G"; "B"; "A"]; ["depth.Z"]; ["lightgroup.R"; "lightgroup.G"]]
    /\ sub_names p = [VStr "rgba"; VStr "depth"; VStr "lightgroup"].
Proof.
  eexists. split; [vm_compute; reflexivity|]. split; reflexivity.
Qed.

(** ** Metadata of the planned subimages *)

Lemma contiguous_start gs :
  forall start k g,
    contiguous start gs ->
    nth_error gs k = Some g ->
    g_start g
    = start + Z.of_nat (List.length (List.concat (map g_names (firstn k gs)))).
Proof.
  induction gs as [|h gs IH]; intros start k g Hc Hk.
  - destruct k; discriminate.
  - destruct Hc as (Hs & Hne & Hc). destruct k as [|k].
    + injection Hk as <-. cbn. lia.
    + cbn [nth_error] in Hk. rewrite (IH _ _ _ Hc Hk).
      cbn [firstn map List.concat]. rewrite length_app. lia.
  Qed.

Lemma contiguous_nonempty gs :
  forall start k g,
    contiguous start gs -> nth_error gs k = Some g -> g_names g <> [].
Proof.
  induction gs as [|h gs IH]; intros start k g Hc Hk.
  - destruct k; discriminate.
  - destruct Hc as (Hs & Hne & Hc). destruct k as [|k].
    + now injection Hk as <-.
    + exact (IH _ _ _ Hc Hk).
Qed.

Lemma length_group_channelnames p0 g :
  List.length (group_channelnames p0 g) = List.length (g_names g).
Proof.
  unfold group_channelnames. destruct (p_fix_channels p0);
    [apply length_map | reflexivity].
Qed.

Lemma length_concat_group_channelnames p0 gs :
  List.length (List.concat (map (group_channelnames p0) gs))
  = List.length (List.concat (map g_names gs)).
Proof.
  rewrite concat_group_channelnames. destruct (p_fix_channels p0);
    [apply length_map | reflexivity].
Qed.

Lemma planned_range_start image_in p0 p gs k g :
  planned image_in p0 p gs ->
  contiguous 0 gs ->
  nth_error gs k = Some g ->
  range_start (sub_specs p) k = g_start g.
Proof.
  intros (Hn & _) Hc Hk. unfold range_start.
  rewrite (contiguous_start gs 0 k g Hc Hk).
  rewrite <- firstn_map, Hn, firstn_map, length_concat_group_channelnames.
  lia.
Qed.

Lemma planned_nth image_in p0 p gs k spec :
  planned image_in p0 p gs ->
  nth_error (sub_specs p) k = Some spec ->
  exists g,
    nth_error gs k = Some g
    /\ channelnames spec = group_channelnames p0 g
    /\ extra_attribs spec = group_attribs (nativespec image_in) p0 g
    /\ nth_error (sub_pixels p) k = Some (group_buffer image_in p0 g)
    /\ nth_error (sub_names p) k = Some (VStr (g_key g)).
Proof.
  intros (Hn & Ha & Hb & Hk) Hspec.
  assert (H1 := map_nth_error channelnames _ _ Hspec).
  assert (H2 := map_nth_error extra_attribs _ _ Hspec).
  rewrite Hn in H1. rewrite Ha in H2.
  rewrite nth_error_map in H1. rewrite nth_error_map in H2.
  destruct (nth_error gs k) as [g|] eqn:Hg; [|discriminate].
  cbn [option_map] in H1, H2.
  exists g. split; [reflexivity|].
  split; [congruence|]. split; [congruence|].
  rewrite Hb, Hk. split.
  - now apply map_nth_error.
  - now apply (map_nth_error (fun g => VStr (g_key g))).
Qed.

Lemma put_value_names name v l :
  Forall (fun a => In (pv_name a) ["compression"; "name"]) l ->
  In name ["compression"; "name"] ->
  Forall (fun a => In (pv_name a) ["compression"; "name"]) (put_value name v l).
Proof.
  intros Hl Hname.
  assert (H : forall pv, pv_name pv = name ->
                Forall (fun a => In (pv_name a) ["compression"; "name"])
                  (set_attrib pv l)).
  { intros pv Hpv. induction Hl as [|a l Ha Hl IH]; cbn [set_attrib].
    - constructor; [now rewrite Hpv | constructor].
    - destruct (iequals (pv_name a) (pv_name pv)).
      + constructor; [now rewrite Hpv | exact Hl].
      + constructor; [exact Ha | exact IH]. }
  destruct v; cbn [put_value]; try exact Hl; now apply H.
Qed.

(** C5: when a flat image is split and its [attribute] calls have
    values they take, the subimages are those of the groups of the
    channel list; the one whose channel range starts at index 0 (the
    first one, and only that one) gets the source's extra attributes,
    filtered, followed by [compression] and [name]; every other subimage
    gets [compression] and [name] and nothing of the source's extra
    attributes. *)
Theorem split_metadata_on_first_range_only nz image_in ac mp rm fx comp vb :
  wf_spec (nativespec image_in) ->
  let p := initial_properties nz image_in ac mp rm fx comp vb in
  let native := nativespec image_in in
  metadata_settable native p ->
  exists p',
    split_subimages image_in p = Ret (Some p')
    /\ map channelnames (sub_specs p')
       = map (group_channelnames p) (channel_groups (channelnames native))
    /\ forall k spec,
         nth_error (sub_specs p') k = Some spec ->
         exists key,
           nth_error (sub_names p') k = Some (VStr key)
           /\ (range_start (sub_specs p') k = 0 <-> k = 0%nat)
           /\ (range_start (sub_specs p') k = 0 ->
               extra_attribs spec
               = put_value "name" (VStr key)
                   (put_value "compression" (compression_value native p)
                      (fold_left (copy_attrib rm) (extra_attribs native) [])))
           /\ (range_start (sub_specs p') k <> 0 ->
               extra_attribs spec
               = put_value "name" (VStr key)
                   (put_value "compression" (compression_value native p) [])
               /\ Forall (fun a => In (pv_name a) ["compression"; "name"])
                    (extra_attribs spec)).
Proof.
  intros Hwf p native Hset.
  destruct (split_subimages_runs image_in p Hwf Hset
              (initial_properties_fresh nz image_in ac mp rm fx comp vb))
    as (p' & Hsplit & Hplan).
  set (gs := channel_groups (channelnames (nativespec image_in))) in *.
  assert (Hcont : contiguous 0 gs) by apply channel_groups_contiguous.
  exists p'. split; [exact Hsplit|]. split; [apply Hplan|].
  intros k spec Hspec.
  destruct (planned_nth _ _ _ _ _ _ Hplan Hspec)
    as (g & Hg & Hnames & Hattr & _ & Hkey).
  exists (g_key g). split; [exact Hkey|].
  rewrite (planned_range_start _ _ _ _ _ _ Hplan Hcont Hg).
  assert (Hattr' :
            extra_attribs spec
            = put_value "name" (VStr (g_key g))
                (put_value "compression" (compression_value native p)
                   (if g_start g =? 0
                    then fold_left (copy_attrib rm) (extra_attribs native) []
                    else []))) by exact Hattr.
  split; [|split].
  - rewrite (contiguous_start gs 0 k g Hcont Hg). split.
    + intros H0. destruct k as [|k]; [reflexivity|].
      destruct gs as [|h gs']; [discriminate|].
      destruct Hcont as (_ & Hne & _).
      cbn [firstn map List.concat] in H0. rewrite length_app in H0.
      destruct (g_names h); [contradiction | cbn in H0; lia].
    + intros ->. reflexivity.
  - intros H0. rewrite Hattr', H0. reflexivity.
  - intros H0. apply Z.eqb_neq in H0. rewrite H0 in Hattr'.
    split; [exact Hattr'|]. rewrite Hattr'.
    apply put_value_names; [|right; left; reflexivity].
    apply put_value_names; [constructor | left; reflexivity].
Qed.

Lemma split_metadata_on_first_range_only_witness :
  let image_in :=
    Sample.image
      ["R"; "G"; "B"; "A"; "depth.Z"; "lightgroup.R"; "lightgroup.G"]
      Sample.attribs in
  let p :=
    initial_properties shrink_wrap image_in false true true false None false in
  exists p',
    split_subimages image_in p = Ret (Some p')
    /\ map channelnames (sub_specs p')
       = [["R"; "G"; "B"; "A"]; ["depth.Z"]; ["lightgroup.R"; "lightgroup.G"]]
    /\ forall k spec,
         nth_error (sub_specs p') k = Some spec ->
         exists key,
           nth_error (sub_names p') k = Some (VStr key)
           /\ (range_start (sub_specs p') k = 0 <-> k = 0%nat)
           /\ (range_start (sub_specs p') k = 0 ->
               extra_attribs spec
               = [mkParam "compression" "string" (VStr "zip");
                  mkParam "owner" "string" (VStr "studio");
                  mkParam "name" "string" (VStr key)])
           /\ (range_start (sub_specs p') k <> 0 ->
               extra_attribs spec
               = [mkParam "compression" "string" (VStr "zip");
                  mkParam "name" "string" (VStr key)]
               /\ Forall (fun a => In (pv_name a) ["compression"; "name"])
                    (extra_attribs spec)).
Proof.
  apply (split_metadata_on_first_range_only shrink_wrap
           (Sample.image
              ["R"; "G"; "B"; "A"; "depth.Z"; "lightgroup.R"; "lightgroup.G"]
              Sample.attribs)
           false true true false None false).
  - split; [reflexivity | left; reflexivity].
  - split; [repeat constructor | reflexivity].
Defined.

(** ** Channel names under [fix_channels] *)

(** C10: with [fix_channels] set, a split whose [attribute] calls have
    values they take gives every channel whose name contains [depth.z]
    the output name [depth.Z], whole, and every other channel its own
    name; the pixels of each group are taken from the source under the
    original names. *)
Theorem split_fixes_output_names_only nz image_in ac mp rm comp vb :
  wf_spec (nativespec image_in) ->
  let p := initial_properties nz image_in ac mp rm true comp vb in
  metadata_settable (nativespec image_in) p ->
  exists p' (groups : list (list string)),
    split_subimages image_in p = Ret (Some p')
    /\ List.concat groups = channelnames (nativespec image_in)
    /\ map channelnames (sub_specs p') = map (map fixed_name) groups
    /\ sub_pixels p'
       = map (fun names =>
                Cut (Channels (Loaded image_in) names) (set_chend (p_roi p) 4))
             groups
    /\ (forall c, contains "depth.z" c = true -> fixed_name c = "depth.Z")
    /\ (forall c, contains "depth.z" c = false -> fixed_name c = c).
Proof.
  intros Hwf p Hset.
  destruct (split_subimages_groups image_in p Hwf Hset
              (initial_properties_fresh nz image_in ac mp rm true comp vb))
    as (p' & gs & Hsplit & Hopt & (Hn & _ & Hb & _) & Hcont & Hcat).
  exists p', (map g_names gs).
  split; [exact Hsplit|]. split; [exact Hcat|].
  split; [|split; [|split]].
  - rewrite Hn, map_map. reflexivity.
  - rewrite Hb, map_map. reflexivity.
  - intros c Hc. unfold fixed_name. now rewrite Hc.
  - intros c Hc. unfold fixed_name. now rewrite Hc.
Qed.

Lemma split_fixes_output_names_only_witness :
  let image_in :=
    Sample.image ["R"; "G"; "B"; "A"; "depth.z"; "depth.a"] Sample.attribs in
  let p :=
    initial_properties shrink_wrap image_in false true false true None false in
  exists p' (groups : list (list string)),
    split_subimages image_in p = Ret (Some p')
    /\ List.concat groups = ["R"; "G"; "B"; "A"; "depth.z"; "depth.a"]
    /\ map channelnames (sub_specs p') = map (map fixed_name) groups
    /\ sub_pixels p'
       = map (fun names =>
                Cut (Channels (Loaded image_in) names) (set_chend (p_roi p) 4))
             groups
    /\ (forall c, contains "depth.z" c = true -> fixed_name c = "depth.Z")
    /\ (forall c, contains "depth.z" c = false -> fixed_name c = c).
Proof.
  apply (split_fixes_output_names_only shrink_wrap
           (Sample.image ["R"; "G"; "B"; "A"; "depth.z"; "depth.a"]
              Sample.attribs)
           false true false None false).
  - split; [reflexivity | left; reflexivity].
  - split; [repeat constructor | reflexivity].
Defined.

(** ** The write protocol *)

Section Writing.

Variable nonzero_region : ImageBuf -> ROI -> ROI.
Variable erase_fails : ParamValue -> bool.
Variable name_matches : string -> string -> bool.

(** The loop over [sub_pixels] stops early only at an append-mode open
    that the output refused, and that open is the last call made. *)
Lemma write_subimages_stops_at_failed_append answer dst p bufs :
  forall i log b log',
    write_subimages answer dst p i bufs log = (Ret (Some b), log') ->
    b = false
    /\ exists before spec,
         log' = before ++ [OpenAppend dst spec]
         /\ answer before (OpenAppend dst spec) = false.
Proof.
  induction bufs as [|pixels bufs IH]; intros i log b log' H;
    cbn [write_subimages] in H; [discriminate|].
  destruct (negb (i =? 0)).
  - destruct (index (sub_specs p) i) as [spec|e]; [|discriminate].
    destruct (answer log (OpenAppend dst spec)) eqn:Hok; cbn [negb] in H.
    + exact (IH _ _ _ _ H).
    + injection H as <- <-. split; [reflexivity|]. eauto.
  - exact (IH _ _ _ _ H).
Qed.

(** What [write_image] returns never changes what the loop does. *)
Lemma write_subimages_ignores_write_results answer answer' dst p bufs :
  (forall log c, is_write c = false -> answer log c = answer' log c) ->
  forall i log,
    write_subimages answer dst p i bufs log
    = write_subimages answer' dst p i bufs log.
Proof.
  intros Hsame. induction bufs as [|pixels bufs IH]; intros i log;
    cbn [write_subimages]; [reflexivity|].
  destruct (negb (i =? 0)); [|apply IH].
  destruct (index (sub_specs p) i) as [spec|e]; [|reflexivity].
  rewrite (Hsame log (OpenAppend dst spec) eq_refl).
  destruct (answer' log (OpenAppend dst spec)); cbn [negb];
    [apply IH | reflexivity].
Qed.

(** X8: [rewrap] returns the same and makes the same calls whatever
    [write_image] answers: two outputs that agree on every other call
    cannot be told apart. *)
Lemma rewrap_ignores_write_results answer answer' src dst ac mp rm fx comp vb :
  (forall log c, is_write c = false -> answer log c = answer' log c) ->
  rewrap nonzero_region erase_fails name_matches answer src dst ac mp rm fx comp vb
  = rewrap nonzero_region erase_fails name_matches answer' src dst ac mp rm fx comp vb.
Proof.
  intros Hsame. unfold rewrap.
  destruct (plan_subimages erase_fails name_matches src (first_subimage src) _)
    as [[p image_in]|e]; [|reflexivity].
  unfold write_output.
  destruct (sub_specs p) as [|s specs].
  - destruct (update_specs erase_fails name_matches (nativespec image_in) p)
      as [spec|e]; [|reflexivity].
    now rewrite (Hsame [] (OpenImage dst spec) eq_refl).
  - rewrite (Hsame [] (OpenParts dst (s :: specs)) eq_refl).
    destruct (answer' [] (OpenParts dst (s :: specs))); cbn [negb];
      [|reflexivity].
    now rewrite (write_subimages_ignores_write_results answer answer').
Qed.

(** When the first open of the destination fails, [rewrap] does not
    return [True] and has written nothing. *)
Lemma rewrap_first_open_refused answer src dst ac mp rm fx comp vb :
  (forall c, answer [] c = false) ->
  fst (rewrap nonzero_region erase_fails name_matches answer src dst ac mp rm fx comp vb)
  <> Ret true
  /\ filter is_write
       (snd (rewrap nonzero_region erase_fails name_matches answer src dst ac mp rm fx
               comp vb)) = [].
Proof.
  intros Hno. unfold rewrap.
  destruct (plan_subimages erase_fails name_matches src (first_subimage src) _)
    as [[p image_in]|e]; [|split; [discriminate | reflexivity]].
  unfold write_output.
  destruct (sub_specs p) as [|s specs].
  - destruct (update_specs erase_fails name_matches (nativespec image_in) p)
      as [spec|e]; [|split; [discriminate | reflexivity]].
    rewrite Hno. cbn. split; [discriminate | reflexivity].
  - rewrite Hno. cbn. split; [discriminate | reflexivity].
Qed.

(** When [rewrap] returns [False], the last call it made is an open of
    the destination that the output refused. *)
Lemma rewrap_false_at_refused_open answer src dst ac mp rm fx comp vb log :
  rewrap nonzero_region erase_fails name_matches answer src dst ac mp rm fx comp vb
  = (Ret false, log) ->
  exists before c,
    log = before ++ [c] /\ is_write c = false /\ answer before c = false.
Proof.
  unfold rewrap.
  destruct (plan_subimages erase_fails name_matches src (first_subimage src) _)
    as [[p image_in]|e]; [|discriminate].
  unfold write_output.
  destruct (sub_specs p) as [|s specs].
  - destruct (update_specs erase_fails name_matches (nativespec image_in) p)
      as [spec|e]; [|discriminate].
    destruct (answer [] (OpenImage dst spec)) eqn:Hok; cbn [negb];
      [discriminate|].
    intros H. injection H as <-.
    exists [], (OpenImage dst spec). repeat split. exact Hok.
  - destruct (answer [] (OpenParts dst (s :: specs))) eqn:Hok; cbn [negb].
    + destruct (write_subimages answer dst p 0 (sub_pixels p)
                  [OpenParts dst (s :: specs)]) as [[[b|]|e] log'] eqn:Hw;
        try discriminate.
      intros H. injection H as -> ->.
      destruct (write_subimages_stops_at_failed_append _ _ _ _ _ _ _ _ Hw)
        as (_ & before & spec & -> & Hrefused).
      exists before, (OpenAppend dst spec). repeat split. exact Hrefused.
    + intros H. injection H as <-.
      exists [], (OpenParts dst (s :: specs)). repeat split. exact Hok.
Qed.

End Writing.

(** C3, code defect: on an output that opens every part but fails every
    [write_image], [rewrap] makes its three writes, looks at none of
    their results, and returns [True]. *)
Theorem rewrap_true_after_failed_writes :
  let run :=
    rewrap shrink_wrap Sample.erasable Sample.same_name Sample.failing_writes
      (Sample.flat
         ["R"; "G"; "B"; "A"; "depth.Z"; "lightgroup.R"; "lightgroup.G"])
      "out.exr" false true false false None false in
  fst run = Ret true
  /\ map is_write (snd run) = [false; true; false; true; false; true; false]
  /\ replay Sample.failing_writes [] (snd run)
     = [true; false; true; false; true; false; true].
Proof.
  split; [vm_compute; reflexivity|].
  split; vm_compute; reflexivity.
Qed.

(** ** The region *)










(** ** Sources that are multi-part already *)

Lemma copy_subimages_shares_region ef nm :
  (forall a, ef a = false) ->
  forall subs image_in p,
  exists p' last,
    copy_subimages ef nm subs image_in p = Ret (p', last)
    /\ p_roi p' = p_roi p
    /\ sub_pixels p'
       = sub_pixels p ++ map (fun b => Cut (Loaded b) (p_roi p)) subs
    /\ map spec_roi (sub_specs p')
       = map spec_roi (sub_specs p)
         ++ map (fun b => over_channels (p_roi p) (nchannels (nativespec b)))
              subs
    /\ map channelnames (sub_specs p')
       = map channelnames (sub_specs p)
         ++ map (fun b => channelnames (nativespec b)) subs
    /\ sub_names p'
       = sub_names p ++ map (fun b => getattribute "name" (nativespec b)) subs
    /\ (p_rm_manifest p = false
        \/ Forall (fun b => spares nm (extra_attribs (nativespec b)) "name")
             subs ->
        map (getattribute "name") (sub_specs p')
        = map (getattribute "name") (sub_specs p)
          ++ map (fun b => getattribute "name" (nativespec b)) subs).
Proof.
  intros Hok. induction subs as [|b subs IH]; intros image_in p.
  - exists p, image_in. cbn [copy_subimages map].
    rewrite !app_nil_r. repeat split.
  - cbn [copy_subimages].
    destruct (update_specs_returns ef nm (nativespec b) p Hok) as (spec & Hspec).
    rewrite Hspec. cbn [bind].
    destruct (update_specs_keeps ef nm _ _ _ Hspec) as (Hnames & _ & Hroi & _).
    set (p1 := append_sub (getattribute "name" (nativespec b)) spec
                 (Cut (Loaded b) (p_roi p)) p).
    destruct (IH b p1) as (p' & last & Hcopy & H1 & H2 & H3 & H4 & H5 & H6).
    exists p', last. split; [exact Hcopy|].
    subst p1.
    cbn [append_sub p_roi p_rm_manifest sub_pixels sub_specs sub_names] in *.
    rewrite H1, H2, H3, H4, H5.
    rewrite !map_app. cbn [map]. rewrite Hnames, Hroi.
    rewrite <- !app_assoc. repeat split.
    intros Hsp. rewrite H6.
    + rewrite map_app. cbn [map]. rewrite <- app_assoc. cbn [app].
      do 2 f_equal.
      apply (update_specs_keeps_attribute ef nm _ _ _ "name" Hspec);
        [|reflexivity].
      destruct Hsp as [Hrm | Hsp]; [now left | right].
      now inversion Hsp.
    + destruct Hsp as [Hrm | Hsp]; [now left | right]. now inversion Hsp.
Qed.

(** C6, as the code has it: for a source with more than one subimage the
    planner goes through the subimages in order and keeps their number,
    names and channels; the region is computed once, from the first
    subimage, and every subimage is cut to that one region and gets it
    as its data window, over its own channels.  The [name] attribute of
    a spec stays as it is unless the pattern of an erased manifest
    matches it. *)
Theorem multipart_source_shares_one_region nz ef nm src ac mp rm fx comp vb :
  more_subimages src <> [] ->
  (forall a, ef a = false) ->
  let image_in := first_subimage src in
  let region := crop_region nz image_in ac in
  exists p' last,
    plan_subimages ef nm src image_in
      (initial_properties nz image_in ac mp rm fx comp vb) = Ret (p', last)
    /\ List.length (sub_specs p') = List.length (subimages src)
    /\ sub_pixels p' = map (fun b => Cut (Loaded b) region) (subimages src)
    /\ map spec_roi (sub_specs p')
       = map (fun b => over_channels region (nchannels (nativespec b)))
           (subimages src)
    /\ sub_names p'
       = map (fun b => getattribute "name" (nativespec b)) (subimages src)
    /\ map channelnames (sub_specs p')
       = map (fun b => channelnames (nativespec b)) (subimages src)
    /\ (rm = false
        \/ Forall (fun b => spares nm (extra_attribs (nativespec b)) "name")
             (subimages src) ->
        map (getattribute "name") (sub_specs p')
        = map (fun b => getattribute "name" (nativespec b)) (subimages src)).
Proof.
  intros Hmore Hok image_in region.
  unfold plan_subimages.
  assert (Hn : (1 <? nsubimages src) = true).
  { apply Z.ltb_lt. unfold nsubimages, subimages.
    destruct (more_subimages src); [contradiction | cbn [List.length]; lia]. }
  rewrite Hn.
  set (p := initial_properties nz image_in ac mp rm fx comp vb).
  destruct (copy_subimages_shares_region ef nm Hok (subimages src) image_in p)
    as (p' & last & Hcopy & _ & H2 & H3 & H4 & H5 & H6).
  exists p', last. split; [exact Hcopy|].
  cbn [p initial_properties sub_pixels sub_specs sub_names p_roi p_rm_manifest
       map app] in *.
  fold (crop_region nz image_in ac) in *. fold region in H2, H3.
  split; [|repeat split; assumption].
  rewrite <- (length_map channelnames), H4. apply length_map.
Qed.

Lemma multipart_source_shares_one_region_witness :
  exists p' last,
    plan_subimages Sample.erasable Sample.same_name Sample.two_parts
      (first_subimage Sample.two_parts)
      (initial_properties shrink_wrap (first_subimage Sample.two_parts)
         false true false false None false) = Ret (p', last)
    /\ List.length (sub_specs p') = 2%nat
    /\ sub_pixels p'
       = map (fun b => Cut (Loaded b) (mkROI 0 2 0 2 0 1 0 4))
           (subimages Sample.two_parts)
    /\ map spec_roi (sub_specs p')
       = [mkROI 0 2 0 2 0 1 0 4; mkROI 0 2 0 2 0 1 0 1]
    /\ sub_names p' = [VStr "rgba"; VStr "depth"]
    /\ map channelnames (sub_specs p') = [["R"; "G"; "B"; "A"]; ["depth.Z"]]
    /\ (false = false
        \/ Forall (fun b => spares Sample.same_name
                              (extra_attribs (nativespec b)) "name")
             (subimages Sample.two_parts) ->
        map (getattribute "name") (sub_specs p')
        = [VStr "rgba"; VStr "depth"]).
Proof.
  apply (multipart_source_shares_one_region shrink_wrap Sample.erasable
           Sample.same_name Sample.two_parts false true false false None false).
  - discriminate.
  - reflexivity.
Defined.

(** C6 as stated fails: in a file of two parts with different data
    windows, the second part is cut to the region of the first and gets
    it as its data window, not the region computed at its own data
    window. *)
Lemma multipart_region_counterexample :
  exists p' last,
    plan_subimages Sample.erasable Sample.same_name Sample.two_parts
      (first_subimage Sample.two_parts)
      (initial_properties shrink_wrap (first_subimage Sample.two_parts)
         false true false false None false) = Ret (p', last)
    /\ map spec_roi (sub_specs p')
       = [mkROI 0 2 0 2 0 1 0 4; mkROI 0 2 0 2 0 1 0 1]
    /\ map (fun b => crop_region shrink_wrap b false)
         (subimages Sample.two_parts)
       = [mkROI 0 2 0 2 0 1 0 4; mkROI 0 1 0 1 0 1 0 1]
    /\ sub_pixels p'
       <> map (fun b => Cut (Loaded b) (crop_region shrink_wrap b false))
            (subimages Sample.two_parts).
Proof.
  eexists. eexists. split; [vm_compute; reflexivity|].
  split; [reflexivity|]. split; [reflexivity|].
  vm_compute. intros H. discriminate H.
Qed.

(** ** Removing manifests *)

Lemma set_attrib_new a l :
  ~ In (lower (pv_name a)) (map (fun b => lower (pv_name b)) l) ->
  set_attrib a l = l ++ [a].
Proof.
  induction l as [|b l IH]; intros Hnew; cbn [set_attrib app]; [reflexivity|].
  cbn [map In] in Hnew.
  destruct (iequals (pv_name b) (pv_name a)) eqn:E.
  - exfalso. apply Hnew. left. now apply iequals_eq.
  - f_equal. apply IH. intros H. apply Hnew. now right.
Qed.

Lemma copy_attrib_kept rm l a :
  well_typed a -> passes rm a = true -> copy_attrib rm l a = set_attrib a l.
Proof.
  unfold well_typed, passes, copy_attrib. intros Hty Hpass.
  apply negb_true_iff in Hpass. rewrite Hpass.
  destruct a as [name ty v]. cbn [pv_name pv_type pv_value] in *.
  destruct v; [subst; reflexivity .. | |]; now rewrite Hty.
Qed.

Lemma copy_attrib_dropped rm l a :
  passes rm a = false -> copy_attrib rm l a = l.
Proof.
  unfold passes, copy_attrib. intros Hpass.
  apply negb_false_iff in Hpass. now rewrite Hpass.
Qed.

(** The metadata copy of [split_subimages] (the sibling of the loop in
    [update_specs]) drops exactly the attributes whose name contains
    [manifest] when [rm_manifest] is set, and lets every other attribute
    through as it is. *)
Lemma copy_metadata_filters rm attribs :
  forall acc,
    NoDup (map (fun a => lower (pv_name a)) (acc ++ attribs)) ->
    Forall well_typed attribs ->
    fold_left (copy_attrib rm) attribs acc = acc ++ filter (passes rm) attribs.
Proof.
  induction attribs as [|a attribs IH]; intros acc Hnd Hty;
    cbn [fold_left filter].
  - now rewrite app_nil_r.
  - inversion Hty as [|? ? Ha Hrest]; subst.
    destruct (passes rm a) eqn:Hp.
    + rewrite (copy_attrib_kept rm acc a Ha Hp).
      rewrite set_attrib_new.
      * rewrite IH; [now rewrite <- app_assoc| |exact Hrest].
        now rewrite <- app_assoc.
      * rewrite map_app in Hnd. cbn [map] in Hnd.
        apply NoDup_remove_2 in Hnd. intros H. apply Hnd.
        apply in_or_app. now left.
    + rewrite (copy_attrib_dropped rm acc a Hp).
      apply IH; [|exact Hrest].
      rewrite map_app in *. cbn [map] in Hnd.
      now apply NoDup_remove_1 in Hnd.
Qed.

(** C7, code defect: in [update_specs] the loop erases from the list it
    walks, so the attribute that follows an erased one is never looked
    at.  With two manifests next to each other the second one stays in
    the spec that [rewrap] opens the destination with, while the copy in
    [split_subimages] drops both. *)
Theorem update_specs_leaves_second_manifest :
  let image_in := Sample.image ["R"; "G"; "B"; "A"] Sample.two_manifests in
  let p :=
    initial_properties shrink_wrap image_in false false true false None false in
  map (fun a => contains "manifest" (pv_name a)) Sample.two_manifests
  = [true; true; false]
  /\ (exists spec,
        update_specs Sample.erasable Sample.same_name (nativespec image_in) p = Ret spec
        /\ map pv_name (extra_attribs spec) = ["cryptomatte/b/manifest"; "owner"]
        /\ exists calls,
             rewrap shrink_wrap Sample.erasable Sample.same_name Sample.accepting
               (mkFile image_in []) "out.exr" false false true false None false
             = (Ret true, OpenImage "out.exr" spec :: calls))
  /\ map pv_name (fold_left (copy_attrib true) Sample.two_manifests [])
     = ["owner"].
Proof.
  cbv zeta. split; [reflexivity|]. split; [|reflexivity].
  eexists. split; [vm_compute; reflexivity|].
  split; [reflexivity|].
  eexists. vm_compute. reflexivity.
Qed.

(** ** [erase_attribute] raising *)

Section EraseFails.

Variable ef : ParamValue -> bool.
Variable nm : string -> string -> bool.

(** The walk raises as soon as it tries to erase an attribute that cannot
    be erased. *)
Lemma tries_to_erase_raises attribs position a :
  tries_to_erase ef nm attribs position a ->
  ef a = true ->
  forall turns,
    (List.length attribs <= position + turns)%nat ->
    erase_manifests ef nm turns position attribs = Raise RuntimeWarning.
Proof.
  induction 1 as [attribs position a Hnth Hm
                 |attribs position b a Hnth Hm _ IH
                 |attribs position b a Hnth Hm Hb _ IH];
    intros Hf turns Hlen;
    (assert (Hpos : (position < List.length attribs)%nat)
       by (apply nth_error_Some; congruence));
    (destruct turns as [|turns]; [lia|]); cbn [erase_manifests];
    rewrite Hnth, Hm.
  - now rewrite Hf.
  - apply IH; [exact Hf | lia].
  - rewrite Hb. apply IH; [exact Hf|].
    assert (Hle : (List.length (erase_attribute (nm (pv_name b)) attribs)
                   <= List.length attribs)%nat) by apply filter_length_le.
    lia.
Qed.

(** And it raises in no other way. *)
Lemma erase_manifests_raises_only :
  forall turns position attribs e,
    erase_manifests ef nm turns position attribs = Raise e ->
    exists a, tries_to_erase ef nm attribs position a /\ ef a = true.
Proof.
  induction turns as [|turns IH]; intros position attribs e H;
    cbn [erase_manifests] in H; [discriminate|].
  destruct (nth_error attribs position) as [b|] eqn:Hnth; [|discriminate].
  destruct (contains "manifest" (pv_name b)) eqn:Hm.
  - destruct (ef b) eqn:Hb.
    + exists b. split; [now apply try_here | exact Hb].
    + destruct (IH _ _ _ H) as (a & Ha & Hf).
      exists a. split; [|exact Hf]. now apply (try_after_erased _ _ _ _ b).
  - destruct (IH _ _ _ H) as (a & Ha & Hf).
    exists a. split; [|exact Hf]. now apply (try_after_kept _ _ _ _ b).
Qed.

Lemma update_specs_raises spec p a :
  p_rm_manifest p = true ->
  tries_to_erase ef nm (extra_attribs spec) 0 a ->
  ef a = true ->
  update_specs ef nm spec p = Raise RuntimeWarning.
Proof.
  intros Hrm Htry Hf. rewrite update_specs_unfold, Hrm.
  rewrite (tries_to_erase_raises _ _ _ Htry Hf); [reflexivity | lia].
Qed.

(** The subimages of a multi-part source are updated in order, so a
    removal that fails in any of them ends the loop with the warning. *)
Lemma copy_subimages_raises subs :
  forall image_in p,
    p_rm_manifest p = true ->
    Exists (fun b => exists a,
                tries_to_erase ef nm (extra_attribs (nativespec b)) 0 a
                /\ ef a = true) subs ->
    copy_subimages ef nm subs image_in p = Raise RuntimeWarning.
Proof.
  induction subs as [|b subs IH]; intros image_in p Hrm Hex;
    [inversion Hex|].
  cbn [copy_subimages].
  destruct (update_specs ef nm (nativespec b) p) as [spec|e] eqn:Hspec;
    cbn [bind].
  - apply IH; [exact Hrm|].
    inversion Hex as [? ? (a & Htry & Hf) | ? ? Hrest]; subst; [|exact Hrest].
    rewrite (update_specs_raises _ _ _ Hrm Htry Hf) in Hspec. discriminate.
  - now rewrite (update_specs_raises_warning ef nm _ _ _ Hspec).
Qed.

End EraseFails.

(** C9, as the code has it: when [rm_manifest] is set and the walk of
    [update_specs] over the attributes of a subimage comes to an
    attribute that [erase_attribute] raises on, in the first subimage or
    in a later one, at the first manifest or after others were erased,
    [update_specs] raises [RuntimeWarning] and nothing catches it inside
    [rewrap]: the call ends with that exception, before the destination
    is opened. *)
Theorem rewrap_raises_when_erase_fails nz ef nm answer src dst ac mp fx comp vb
    b a :
  mp = false \/ more_subimages src <> [] ->
  In b (subimages src) ->
  tries_to_erase ef nm (extra_attribs (nativespec b)) 0 a ->
  ef a = true ->
  rewrap nz ef nm answer src dst ac mp true fx comp vb
  = (Raise RuntimeWarning, []).
Proof.
  intros Hpath Hin Htry Hf. unfold rewrap, plan_subimages.
  set (image_in := first_subimage src) in *.
  set (p := initial_properties nz image_in ac mp true fx comp vb).
  destruct (1 <? nsubimages src) eqn:Hn.
  - rewrite (copy_subimages_raises ef nm (subimages src) image_in p);
      [reflexivity | reflexivity |].
    apply Exists_exists. exists b. split; [exact Hin | eauto].
  - assert (Hmore : more_subimages src = []).
    { apply Z.ltb_ge in Hn. unfold nsubimages, subimages in Hn.
      destruct (more_subimages src); [reflexivity | cbn [List.length] in Hn; lia]. }
    destruct Hpath as [-> | Hne]; [|contradiction].
    unfold subimages in Hin. rewrite Hmore in Hin.
    destruct Hin as [<- | []]. fold image_in in Htry.
    change (p_multipart p) with false. cbv iota.
    unfold write_output. change (sub_specs p) with (@nil ImageSpec).
    cbv iota.
    now rewrite (update_specs_raises ef nm _ p a eq_refl Htry Hf).
Qed.

Lemma rewrap_raises_when_erase_fails_witness :
  rewrap shrink_wrap Sample.second_not_erasable Sample.same_name
    Sample.accepting
    (mkFile (Sample.part "rgba" ["R"; "G"; "B"; "A"] (mkROI 0 2 0 2 0 1 0 4))
       [Sample.image ["depth.Z"] Sample.manifests_apart])
    "out.exr" false false true false None false
  = (Raise RuntimeWarning, []).
Proof.
  apply (rewrap_raises_when_erase_fails shrink_wrap Sample.second_not_erasable
           Sample.same_name Sample.accepting
           (mkFile
              (Sample.part "rgba" ["R"; "G"; "B"; "A"] (mkROI 0 2 0 2 0 1 0 4))
              [Sample.image ["depth.Z"] Sample.manifests_apart])
           "out.exr" false false false None false
           (Sample.image ["depth.Z"] Sample.manifests_apart)
           (mkParam "cryptomatte/b/manifest" "string" (VStr "{}"))).
  - right. discriminate.
  - right. left. reflexivity.
  - apply (try_after_erased _ _ _ _
             (mkParam "cryptomatte/a/manifest" "string" (VStr "{}")));
      [reflexivity | reflexivity | reflexivity |].
    apply try_here; reflexivity.
  - reflexivity.
Defined.

(** C9 as stated fails: with an attribute that cannot be erased, [rewrap]
    does not run to its end and return; it ends with the exception, and
    the destination is never opened. *)
Lemma erase_failure_counterexample :
  let run :=
    rewrap shrink_wrap Sample.not_erasable Sample.same_name Sample.accepting
      (Sample.flat ["R"; "G"; "B"; "A"]) "out.exr"
      false false true false None false in
  fst run = Raise RuntimeWarning
  /\ snd run = []
  /\ forall b : bool, fst run <> Ret b.
Proof.
  cbv zeta. split; [vm_compute; reflexivity|].
  split; [vm_compute; reflexivity|].
  intros b. vm_compute. discriminate.
Qed.

(** ** The walk over [extra_attribs] ends *)

(** The list never grows while the position moves on, so as many turns
    as the list is long at the start are all the loop can take: more
    turns change nothing. *)
Lemma erase_manifests_turns_suffice ef nm :
  forall turns position attribs extra,
    (List.length attribs <= position + turns)%nat ->
    erase_manifests ef nm (turns + extra) position attribs
    = erase_manifests ef nm turns position attribs.
Proof.
  induction turns as [|turns IH]; intros position attribs extra Hlen.
  - cbn [Nat.add erase_manifests].
    destruct extra as [|extra]; [reflexivity|]. cbn [erase_manifests].
    assert (H : nth_error attribs position = None)
      by (apply nth_error_None; lia).
    now rewrite H.
  - cbn [Nat.add erase_manifests].
    destruct (nth_error attribs position) as [a|]; [|reflexivity].
    destruct (contains "manifest" (pv_name a)).
    + destruct (ef a); [reflexivity|]. apply IH.
      assert (H : (List.length (erase_attribute (nm (pv_name a)) attribs)
                   <= List.length attribs)%nat) by apply filter_length_le.
      lia.
    + apply IH. lia.
Qed.

(** ** The specs the output is opened with *)

Lemma write_subimages_extends_log answer dst p bufs :
  forall i log,
  exists more,
    snd (write_subimages answer dst p i bufs log) = log ++ more.
Proof.
  induction bufs as [|pixels bufs IH]; intros i log; cbn [write_subimages].
  - exists []. cbn [snd]. now rewrite app_nil_r.
  - destruct (negb (i =? 0)).
    + destruct (index (sub_specs p) i) as [spec|e].
      * destruct (answer log (OpenAppend dst spec)); cbn [negb].
        -- destruct (IH (i + 1) ((log ++ [OpenAppend dst spec])
                                   ++ [WriteImage pixels])) as (more & ->).
           rewrite <- !app_assoc. eauto.
        -- cbn [snd]. eauto.
      * exists []. cbn [snd]. now rewrite app_nil_r.
    + destruct (IH (i + 1) (log ++ [WriteImage pixels])) as (more & ->).
      rewrite <- app_assoc. eauto.
Qed.

(** Whenever [rewrap] gets to open the destination, it opens it with the
    specs that [descriptors] lists. *)
Lemma rewrap_opens_descriptors nz ef nm answer src dst ac mp rm fx comp vb :
  match snd (rewrap nz ef nm answer src dst ac mp rm fx comp vb) with
  | OpenParts _ specs :: _ =>
      descriptors nz ef nm src ac mp rm fx comp vb = Ret specs
  | OpenImage _ spec :: _ =>
      descriptors nz ef nm src ac mp rm fx comp vb = Ret [spec]
  | _ :: _ => False
  | [] => True
  end.
Proof.
  unfold rewrap, descriptors.
  destruct (plan_subimages ef nm src (first_subimage src) _)
    as [[p image_in]|e]; cbn [bind snd]; [|exact I].
  unfold write_output.
  destruct (sub_specs p) as [|s specs] eqn:Hspecs.
  - destruct (update_specs ef nm (nativespec image_in) p) as [spec|e];
      cbn [bind snd]; [|exact I].
    destruct (answer [] (OpenImage dst spec)); reflexivity.
  - destruct (answer [] (OpenParts dst (s :: specs))); cbn [negb snd];
      [|reflexivity].
    destruct (write_subimages_extends_log answer dst p (sub_pixels p) 0
                [OpenParts dst (s :: specs)]) as (more & Hlog).
    destruct (write_subimages answer dst p 0 (sub_pixels p)
                [OpenParts dst (s :: specs)]) as [[[b|]|e] log];
      cbn [snd] in *; subst log; reflexivity.
Qed.

(** ** What a split groups together *)

(** X1: in a split whose [attribute] calls have values they take, the
    last two channels of the image always end up in the same subimage,
    the last one, whatever their names are, and that subimage is named
    after the key of the channel before the last. *)
Theorem split_joins_last_two_channels nz image_in ac mp rm fx comp vb pre c1 c2 :
  wf_spec (nativespec image_in) ->
  channelnames (nativespec image_in) = pre ++ [c1; c2] ->
  let p := initial_properties nz image_in ac mp rm fx comp vb in
  metadata_settable (nativespec image_in) p ->
  exists p' front_names front_pixels ns,
    split_subimages image_in p = Ret (Some p')
    /\ sub_names p' = front_names ++ [VStr (group_key c1)]
    /\ sub_pixels p'
       = front_pixels
         ++ [Cut (Channels (Loaded image_in) (ns ++ [c1; c2]))
               (set_chend (p_roi p) 4)].
Proof.
  intros Hwf Hnames p Hset.
  destruct (split_subimages_runs image_in p Hwf Hset
              (initial_properties_fresh nz image_in ac mp rm fx comp vb))
    as (p' & Hsplit & _ & _ & Hb & Hk).
  unfold channel_groups in Hb, Hk. rewrite Hnames in Hb, Hk.
  destruct (runs_last_two pre c1 c2 0 "" []) as (front & g & ns & Hruns & Hg & Hkey).
  rewrite Hruns, map_app in Hb, Hk. cbn [map] in Hb, Hk.
  rewrite Hkey in Hk. unfold group_buffer at 2 in Hb. rewrite Hg in Hb.
  eexists p', _, _, ns. split; [exact Hsplit|].
  split; [exact Hk | exact Hb].
Qed.

Lemma split_joins_last_two_channels_witness :
  let image_in :=
    Sample.image ["R"; "G"; "B"; "A"; "depth.Z"] Sample.attribs in
  let p :=
    initial_properties shrink_wrap image_in false true false false None false in
  exists p' front_names front_pixels ns,
    split_subimages image_in p = Ret (Some p')
    /\ sub_names p' = front_names ++ [VStr "rgba"]
    /\ sub_pixels p'
       = front_pixels
         ++ [Cut (Channels (Loaded image_in) (ns ++ ["A"; "depth.Z"]))
               (set_chend (p_roi p) 4)].
Proof.
  apply (split_joins_last_two_channels shrink_wrap
           (Sample.image ["R"; "G"; "B"; "A"; "depth.Z"] Sample.attribs)
           false true false false None false ["R"; "G"; "B"] "A" "depth.Z").
  - split; [reflexivity | left; reflexivity].
  - reflexivity.
  - split; [repeat constructor | reflexivity].
Defined.

(** X2: in a split whose [attribute] calls have values they take, when
    no channel has an empty key, every subimage but the last holds
    channels of one single key and is named after it, and so does the
    last subimage apart from the last channel of the image. *)
Theorem split_subimages_hold_one_key nz image_in ac mp rm fx comp vb :
  wf_spec (nativespec image_in) ->
  Forall (fun c => truthy (group_key c) = true)
    (channelnames (nativespec image_in)) ->
  channelnames (nativespec image_in) <> [] ->
  let p := initial_properties nz image_in ac mp rm fx comp vb in
  metadata_settable (nativespec image_in) p ->
  exists p' gs g,
    split_subimages image_in p = Ret (Some p')
    /\ sub_names p' = map (fun h => VStr (g_key h)) (gs ++ [g])
    /\ map buffer_channels (sub_pixels p') = map g_names (gs ++ [g])
    /\ Forall (fun h => Forall (fun c => group_key c = g_key h) (g_names h)) gs
    /\ Forall (fun c => group_key c = g_key g) (removelast (g_names g)).
Proof.
  intros Hwf Hkeys Hne p Hset.
  destruct (split_subimages_runs image_in p Hwf Hset
              (initial_properties_fresh nz image_in ac mp rm fx comp vb))
    as (p' & Hsplit & _ & _ & Hb & Hk).
  destruct (runs_one_key (channelnames (nativespec image_in)) 0 "" [] Hkeys)
    as (gs & g & Hruns & Hgs & Hg);
    [constructor | intros H; now contradiction H | exact Hne |].
  unfold channel_groups in Hb, Hk. rewrite Hruns in Hb, Hk.
  exists p', gs, g. split; [exact Hsplit|]. split; [exact Hk|].
  split; [|split; assumption].
  rewrite Hb, map_map. reflexivity.
Qed.

Lemma split_subimages_hold_one_key_witness :
  let image_in :=
    Sample.image
      ["R"; "G"; "B"; "A"; "depth.Z"; "lightgroup.R"; "lightgroup.G"]
      Sample.attribs in
  let p :=
    initial_properties shrink_wrap image_in false true false false None false in
  exists p' gs g,
    split_subimages image_in p = Ret (Some p')
    /\ sub_names p' = map (fun h => VStr (g_key h)) (gs ++ [g])
    /\ map buffer_channels (sub_pixels p') = map g_names (gs ++ [g])
    /\ Forall (fun h => Forall (fun c => group_key c = g_key h) (g_names h)) gs
    /\ Forall (fun c => group_key c = g_key g) (removelast (g_names g)).
Proof.
  apply (split_subimages_hold_one_key shrink_wrap
           (Sample.image
              ["R"; "G"; "B"; "A"; "depth.Z"; "lightgroup.R"; "lightgroup.G"]
              Sample.attribs)
           false true false false None false).
  - split; [reflexivity | left; reflexivity].
  - repeat constructor.
  - discriminate.
  - split; [repeat constructor | reflexivity].
Defined.

(** X3: in a split whose [attribute] calls have values they take, when
    no channel has an empty key, two subimages that follow each other
    never carry the same name. *)
Theorem split_neighbours_differ_in_name nz image_in ac mp rm fx comp vb :
  wf_spec (nativespec image_in) ->
  Forall (fun c => truthy (group_key c) = true)
    (channelnames (nativespec image_in)) ->
  let p := initial_properties nz image_in ac mp rm fx comp vb in
  metadata_settable (nativespec image_in) p ->
  exists p',
    split_subimages image_in p = Ret (Some p')
    /\ List.length (sub_names p')
       = List.length (channel_groups (channelnames (nativespec image_in)))
    /\ forall front n1 n2 back,
         sub_names p' = front ++ n1 :: n2 :: back -> n1 <> n2.
Proof.
  intros Hwf Hkeys p Hset.
  destruct (split_subimages_runs image_in p Hwf Hset
              (initial_properties_fresh nz image_in ac mp rm fx comp vb))
    as (p' & Hsplit & _ & _ & _ & Hk).
  exists p'. split; [exact Hsplit|].
  split; [rewrite Hk; apply length_map|].
  intros front n1 n2 back Hnames. rewrite Hk in Hnames.
  apply map_eq_app in Hnames.
  destruct Hnames as (gfront & grest & Hgs & _ & Hrest).
  destruct grest as [|g1 [|g2 gback]]; try discriminate.
  cbn [map] in Hrest. injection Hrest as <- <- _.
  intros E. injection E as E.
  exact (runs_names_differ _ _ _ _ _ _ _ _ Hkeys Hgs E).
Qed.

Lemma split_neighbours_differ_in_name_witness :
  let image_in :=
    Sample.image
      ["R"; "G"; "B"; "A"; "depth.Z"; "lightgroup.R"; "lightgroup.G"]
      Sample.attribs in
  let p :=
    initial_properties shrink_wrap image_in false true false false None false in
  exists p',
    split_subimages image_in p = Ret (Some p')
    /\ List.length (sub_names p') = 3%nat
    /\ forall front n1 n2 back,
         sub_names p' = front ++ n1 :: n2 :: back -> n1 <> n2.
Proof.
  apply (split_neighbours_differ_in_name shrink_wrap
           (Sample.image
              ["R"; "G"; "B"; "A"; "depth.Z"; "lightgroup.R"; "lightgroup.G"]
              Sample.attribs)
           false true false false None false).
  - split; [reflexivity | left; reflexivity].
  - repeat constructor.
  - split; [repeat constructor | reflexivity].
Defined.

(** ** The specs of a split fit the source *)

(** X4: every spec of a split whose [attribute] calls have values they
    take fits the source: it counts as many channels as it names, has no
    per-channel formats, has the window of the region of the call, and
    carries the depth and the display window of the source; read back,
    its region is the region of the call in the image plane, over the
    depth of the source and over its own channels. *)
Theorem split_specs_fit_source nz image_in ac mp rm fx comp vb :
  wf_spec (nativespec image_in) ->
  let p := initial_properties nz image_in ac mp rm fx comp vb in
  let native := nativespec image_in in
  let region := crop_region nz image_in ac in
  metadata_settable native p ->
  exists p',
    split_subimages image_in p = Ret (Some p')
    /\ Forall (fits_source native region) (sub_specs p')
    /\ Forall (fun s =>
                 spec_roi s
                 = mkROI (xbegin region) (xend region)
                     (ybegin region) (yend region)
                     (zbegin region) (zbegin region + depth native)
                     0 (Z.of_nat (List.length (channelnames s))))
         (sub_specs p').
Proof.
  intros Hwf p native region Hset.
  assert (Hfresh : fresh p) by apply initial_properties_fresh.
  destruct (split_subimages_groups image_in p Hwf Hset Hfresh)
    as (p' & gs & Hsplit & _).
  exists p'. split; [exact Hsplit|].
  destruct (split_subimages_counted image_in p p' Hwf Hfresh Hsplit)
    as (Hfits & _).
  split; [exact Hfits|].
  eapply Forall_impl; [|exact Hfits].
  intros s (Hn & _ & Hwin & Hz & Hd & _). unfold spec_roi.
  unfold spec_window, roi_window in Hwin.
  injection Hwin as Hx Hy Hw Hh. cbn [set_chend xbegin xend ybegin yend zbegin]
    in *. change (p_roi p) with region in *.
  rewrite Hx, Hy, Hw, Hh, Hz, Hd, Hn.
  f_equal; unfold region, crop_region; lia.
Qed.

Lemma split_specs_fit_source_witness :
  let image_in :=
    Sample.image
      ["R"; "G"; "B"; "A"; "depth.Z"; "lightgroup.R"; "lightgroup.G"]
      Sample.attribs in
  let p :=
    initial_properties shrink_wrap image_in false true false false None false in
  exists p',
    split_subimages image_in p = Ret (Some p')
    /\ Forall (fits_source (nativespec image_in) (mkROI 0 2 0 2 0 1 0 7))
         (sub_specs p')
    /\ Forall (fun s =>
                 spec_roi s
                 = mkROI 0 2 0 2 0 1 0 (Z.of_nat (List.length (channelnames s))))
         (sub_specs p').
Proof.
  apply (split_specs_fit_source shrink_wrap
           (Sample.image
              ["R"; "G"; "B"; "A"; "depth.Z"; "lightgroup.R"; "lightgroup.G"]
              Sample.attribs)
           false true false false None false).
  - split; [reflexivity | left; reflexivity].
  - split; [repeat constructor | reflexivity].
Defined.

(** ** The calls on the output *)

Lemma index_middle {A : Type} (done : list A) (s : A) (rest : list A) :
  index (done ++ s :: rest) (Z.of_nat (List.length done)) = Ret s.
Proof.
  unfold index. rewrite length_app. cbn [List.length].
  destruct (Z.ltb_spec (Z.of_nat (List.length done)) 0); [lia|].
  destruct (Z.ltb_spec (Z.of_nat (List.length done)) 0); [lia|].
  destruct (Z.leb_spec (Z.of_nat (List.length done + S (List.length rest)))
              (Z.of_nat (List.length done))); [lia|].
  cbn [orb]. rewrite Nat2Z.id, nth_error_app2, Nat.sub_diag by lia.
  reflexivity.
Qed.

Lemma all_accepted_app answer l1 :
  forall before l2,
    all_accepted answer before (l1 ++ l2)
    = all_accepted answer before l1 && all_accepted answer (before ++ l1) l2.
Proof.
  induction l1 as [|c l1 IH]; intros before l2; cbn [app all_accepted].
  - now rewrite app_nil_r.
  - rewrite IH, <- app_assoc, andb_assoc. reflexivity.
Qed.

Section Protocol.

Variable answer : list call -> call -> bool.
Variable dst : string.
Variable p : properties.

(** The loop over the parts after the first never raises when there is
    a spec for every buffer, and it ends either after all the writes or
    at the first append the output refuses, which is then the last call;
    every open before was accepted. *)
Lemma write_subimages_later_parts bufs :
  forall done rest log,
    sub_specs p = done ++ rest ->
    done <> [] ->
    List.length rest = List.length bufs ->
    all_accepted answer [] log = true ->
    (exists calls c,
       write_subimages answer dst p (Z.of_nat (List.length done)) bufs log
       = (Ret (Some false), calls ++ [c])
       /\ is_write c = false /\ c <> Close
       /\ answer calls c = false
       /\ all_accepted answer [] calls = true)
    \/ (write_subimages answer dst p (Z.of_nat (List.length done)) bufs log
        = (Ret None,
           log ++ flat_map
                    (fun sb => [OpenAppend dst (fst sb); WriteImage (snd sb)])
                    (combine rest bufs))
        /\ all_accepted answer []
             (log ++ flat_map
                       (fun sb => [OpenAppend dst (fst sb); WriteImage (snd sb)])
                       (combine rest bufs)) = true).
Proof.
  induction bufs as [|b bufs IH]; intros done rest log Hspecs Hdone Hlen Hacc.
  - right. destruct rest; [|discriminate]. cbn [write_subimages combine flat_map].
    rewrite app_nil_r. split; [reflexivity | exact Hacc].
  - destruct rest as [|s rest]; [discriminate|].
    cbn [write_subimages].
    assert (Hi : (Z.of_nat (List.length done) =? 0) = false)
      by (apply Z.eqb_neq; destruct done; [contradiction | cbn; lia]).
    rewrite Hi. cbn [negb]. rewrite Hspecs, index_middle.
    destruct (answer log (OpenAppend dst s)) eqn:Hok; cbn [negb].
    + assert (Hacc' : all_accepted answer []
                        ((log ++ [OpenAppend dst s]) ++ [WriteImage b]) = true).
      { rewrite !all_accepted_app, Hacc. cbn [all_accepted app is_write orb andb].
        now rewrite Hok. }
      replace (Z.of_nat (List.length done) + 1)
        with (Z.of_nat (List.length (done ++ [s])))
        by (rewrite length_app; cbn [List.length]; lia).
      destruct (IH (done ++ [s]) rest
                  ((log ++ [OpenAppend dst s]) ++ [WriteImage b]))
        as [Hstop | (Hrun & Hall)].
      * now rewrite <- app_assoc.
      * now destruct done.
      * cbn [List.length] in Hlen. lia.
      * exact Hacc'.
      * left. exact Hstop.
      * right. cbn [combine flat_map fst snd app].
        rewrite Hrun, <- !app_assoc in *. cbn [app] in *.
        split; [reflexivity | exact Hall].
    + left. exists log, (OpenAppend dst s).
      repeat split; try assumption. discriminate.
Qed.

End Protocol.

(** A plan records a spec for every buffer. *)
Lemma plan_subimages_lengths ef nm src image_in p p' last :
  plan_subimages ef nm src image_in p = Ret (p', last) ->
  List.length (sub_specs p) = List.length (sub_pixels p) ->
  List.length (sub_specs p') = List.length (sub_pixels p').
Proof.
  unfold plan_subimages. destruct (1 <? nsubimages src).
  - generalize (subimages src). intros subs. revert image_in p.
    induction subs as [|b subs IH]; intros image_in p H Hlen;
      cbn [copy_subimages] in H.
    + now injection H as <- _.
    + destruct (update_specs ef nm (nativespec b) p) as [spec|e];
        cbn [bind] in H; [|discriminate].
      apply (IH _ _ H). cbn [append_sub sub_specs sub_pixels].
      rewrite !length_app. cbn [List.length]. lia.
  - destruct (p_multipart p).
    + unfold split_subimages.
      destruct (split_loop image_in _ _) as [[p1 ci]|e]; cbn [bind fst];
        [|discriminate].
      destruct (Nat.eqb_spec (List.length (sub_specs p1))
                  (List.length (sub_pixels p1))) as [E|E]; cbn [bind];
        [|discriminate].
      intros H _. now injection H as <- _.
    + intros H Hlen. now injection H as <- _.
Qed.

(** X5: [rewrap] returns [True] only after every open and append was
    accepted, and then [close] is its last call; it returns [False] only
    right after an open or append that the output refused, which is then
    its last call, every earlier one having been accepted. *)
Theorem rewrap_stops_at_first_refusal nz ef nm answer src dst ac mp rm fx comp vb
    b log :
  rewrap nz ef nm answer src dst ac mp rm fx comp vb = (Ret b, log) ->
  exists calls c,
    log = calls ++ [c]
    /\ all_accepted answer [] calls = true
    /\ if b then c = Close
       else is_write c = false /\ c <> Close /\ answer calls c = false.
Proof.
  unfold rewrap.
  destruct (plan_subimages ef nm src (first_subimage src) _)
    as [[p image_in]|e] eqn:Hplan; [|discriminate].
  apply plan_subimages_lengths in Hplan; [|reflexivity].
  unfold write_output.
  destruct (sub_specs p) as [|s specs] eqn:Hspecs.
  - destruct (update_specs ef nm (nativespec image_in) p) as [spec|e];
      [|discriminate].
    destruct (answer [] (OpenImage dst spec)) eqn:Hok; cbn [negb].
    + intros H. injection H as <- <-.
      eexists [_; _], Close. cbn [app all_accepted is_write orb andb].
      rewrite Hok. repeat split.
    + intros H. injection H as <- <-.
      exists [], (OpenImage dst spec). repeat split; try assumption.
      discriminate.
  - destruct (answer [] (OpenParts dst (s :: specs))) eqn:Hok; cbn [negb].
    + destruct (sub_pixels p) as [|px bufs] eqn:Hbufs; [discriminate|].
      cbn [write_subimages Z.eqb negb].
      change (0 + 1) with (Z.of_nat (List.length [s])).
      destruct (write_subimages_later_parts answer dst p bufs [s] specs
                  ([OpenParts dst (s :: specs)] ++ [WriteImage px]))
        as [(calls & c & Hrun & Hc) | (Hrun & Hall)].
      * exact Hspecs.
      * discriminate.
      * cbn [List.length] in Hplan. lia.
      * cbn [app all_accepted is_write orb andb]. now rewrite Hok.
      * rewrite Hrun. intros H. injection H as <- <-.
        exists calls, c. split; [reflexivity|].
        destruct Hc as (H1 & H2 & H3 & H4). repeat split; assumption.
      * rewrite Hrun. intros H. injection H as <- <-.
        exists (([OpenParts dst (s :: specs)] ++ [WriteImage px])
                ++ flat_map
                     (fun sb => [OpenAppend dst (fst sb); WriteImage (snd sb)])
                     (combine specs bufs)), Close.
        split; [reflexivity|]. split; [exact Hall | reflexivity].
    + intros H. injection H as <- <-.
      exists [], (OpenParts dst (s :: specs)). repeat split; try assumption.
      discriminate.
Qed.

Lemma rewrap_stops_at_first_refusal_witness :
  exists calls c,
    snd (rewrap shrink_wrap Sample.erasable Sample.same_name Sample.accepting
           (Sample.flat ["R"; "G"; "B"; "A"; "depth.Z"; "depth.x"]) "out.exr"
           false true false false None false)
    = calls ++ [c]
    /\ all_accepted Sample.accepting [] calls = true
    /\ c = Close.
Proof.
  apply (rewrap_stops_at_first_refusal shrink_wrap Sample.erasable Sample.same_name
           Sample.accepting
           (Sample.flat ["R"; "G"; "B"; "A"; "depth.Z"; "depth.x"]) "out.exr"
           false true false false None false true).
  vm_compute. reflexivity.
Defined.

(** With planned subimages, a spec for each buffer, the writing ends by
    returning, whatever the output answers. *)
Lemma write_output_returns ef nm answer dst image_in p :
  sub_specs p <> [] ->
  List.length (sub_specs p) = List.length (sub_pixels p) ->
  exists b log, write_output ef nm answer dst image_in p = (Ret b, log).
Proof.
  intros Hne Hlen. unfold write_output.
  destruct (sub_specs p) as [|s specs] eqn:Hspecs; [contradiction|].
  destruct (answer [] (OpenParts dst (s :: specs))) eqn:Hok; cbn [negb];
    [|eauto].
  destruct (sub_pixels p) as [|px bufs] eqn:Hbufs; [discriminate|].
  cbn [write_subimages Z.eqb negb].
  change (0 + 1) with (Z.of_nat (List.length [s])).
  destruct (write_subimages_later_parts answer dst p bufs [s] specs
              ([OpenParts dst (s :: specs)] ++ [WriteImage px]))
    as [(calls & c & Hrun & _) | (Hrun & _)];
    [exact Hspecs | discriminate | cbn [List.length] in Hlen; lia
    | cbn [app all_accepted is_write orb andb]; now rewrite Hok | |];
    rewrite Hrun; eauto.
Qed.

(** X6: when the output accepts every open and append, [rewrap] on
    planned subimages opens the destination with all the specs, writes
    the first part, appends and writes every other part in order, each
    under its own spec, closes, and returns [True]. *)
Theorem rewrap_writes_every_part nz ef nm answer src dst ac mp rm fx comp vb
    p' last :
  plan_subimages ef nm src (first_subimage src)
    (initial_properties nz (first_subimage src) ac mp rm fx comp vb)
  = Ret (p', last) ->
  sub_specs p' <> [] ->
  (forall log c, is_write c = false -> answer log c = true) ->
  rewrap nz ef nm answer src dst ac mp rm fx comp vb
  = (Ret true,
     OpenParts dst (sub_specs p')
     :: part_calls dst (sub_specs p') (sub_pixels p') ++ [Close])
  /\ List.length (sub_pixels p') = List.length (sub_specs p').
Proof.
  intros Hplan Hne Hok.
  assert (Hlen := plan_subimages_lengths _ _ _ _ _ _ _ Hplan eq_refl).
  split; [|now symmetry].
  unfold rewrap. rewrite Hplan. unfold write_output.
  destruct (sub_specs p') as [|s specs] eqn:Hspecs; [contradiction|].
  rewrite (Hok [] (OpenParts dst (s :: specs)) eq_refl). cbn [negb].
  destruct (sub_pixels p') as [|px bufs] eqn:Hbufs; [discriminate|].
  cbn [write_subimages Z.eqb negb part_calls].
  change (0 + 1) with (Z.of_nat (List.length [s])).
  destruct (write_subimages_later_parts answer dst p' bufs [s] specs
              ([OpenParts dst (s :: specs)] ++ [WriteImage px]))
    as [(calls & c & _ & Hw & _ & Hrefused & _) | (Hrun & _)];
    [exact Hspecs | discriminate | cbn [List.length] in Hlen; lia
    | cbn [app all_accepted is_write orb andb];
      now rewrite (Hok [] (OpenParts dst (s :: specs)) eq_refl) | |].
  - rewrite (Hok calls c Hw) in Hrefused. discriminate.
  - rewrite Hrun. reflexivity.
Qed.

Lemma rewrap_writes_every_part_witness :
  fst (rewrap shrink_wrap Sample.erasable Sample.same_name Sample.accepting Sample.two_parts
         "out.exr" false true false false None false) = Ret true.
Proof.
  destruct (plan_subimages Sample.erasable Sample.same_name Sample.two_parts
              (first_subimage Sample.two_parts)
              (initial_properties shrink_wrap (first_subimage Sample.two_parts)
                 false true false false None false))
    as [[p' last]|e] eqn:Hplan; [|vm_compute in Hplan; discriminate].
  destruct (rewrap_writes_every_part shrink_wrap Sample.erasable Sample.same_name
              Sample.accepting Sample.two_parts "out.exr"
              false true false false None false p' last Hplan) as (H & _).
  - vm_compute in Hplan. injection Hplan as <- _. discriminate.
  - reflexivity.
  - rewrite H. reflexivity.
Defined.

(** X7: a split of a flat image with at least one channel never calls
    [erase_attribute], not even with [rm_manifest] set: what [rewrap]
    returns or raises and the calls it makes are the same whatever
    [erase_attribute] would match and whether it would raise.  The split
    filters the metadata while it copies it. *)
Theorem rewrap_split_never_erases nz ef nm ef' nm' answer src dst ac rm fx
    comp vb :
  more_subimages src = [] ->
  wf_spec (nativespec (first_subimage src)) ->
  channelnames (nativespec (first_subimage src)) <> [] ->
  rewrap nz ef nm answer src dst ac true rm fx comp vb
  = rewrap nz ef' nm' answer src dst ac true rm fx comp vb.
Proof.
  intros Hflat Hwf Hne. unfold rewrap, plan_subimages.
  rewrite (flat_nsubimages src Hflat).
  set (image_in := first_subimage src) in *.
  set (p := initial_properties nz image_in ac true rm fx comp vb).
  change (p_multipart p) with true. cbv iota.
  destruct (split_subimages image_in p) as [[p'|]|e] eqn:Hsplit; cbn [bind];
    try reflexivity.
  destruct (split_subimages_counted image_in p p' Hwf
              (initial_properties_fresh nz image_in ac true rm fx comp vb)
              Hsplit) as (_ & Hcat).
  unfold write_output.
  destruct (sub_specs p') as [|s specs]; [|reflexivity].
  exfalso. cbn [map List.concat] in Hcat.
  destruct (p_fix_channels p);
    destruct (channelnames (nativespec image_in));
    first [now apply Hne | discriminate].
Qed.

Lemma rewrap_split_never_erases_witness :
  rewrap shrink_wrap Sample.not_erasable Sample.same_name Sample.accepting
    (Sample.flat ["R"; "G"; "B"; "A"]) "out.exr"
    false true true false None false
  = rewrap shrink_wrap Sample.erasable (fun _ _ => true) Sample.accepting
      (Sample.flat ["R"; "G"; "B"; "A"]) "out.exr"
      false true true false None false.
Proof.
  apply (rewrap_split_never_erases shrink_wrap Sample.not_erasable
           Sample.same_name Sample.erasable (fun _ _ => true) Sample.accepting
           (Sample.flat ["R"; "G"; "B"; "A"]) "out.exr"
           false true false None false).
  - reflexivity.
  - split; [reflexivity | left; reflexivity].
  - discriminate.
Defined.

Lemma rewrap_ignores_write_results_witness :
  rewrap shrink_wrap Sample.erasable Sample.same_name Sample.accepting
    (Sample.flat ["R"; "G"; "B"; "A"; "depth.Z"; "depth.x"]) "out.exr"
    false true false false None false
  = rewrap shrink_wrap Sample.erasable Sample.same_name Sample.failing_writes
      (Sample.flat ["R"; "G"; "B"; "A"; "depth.Z"; "depth.x"]) "out.exr"
      false true false false None false.
Proof.
  apply rewrap_ignores_write_results.
  intros log c H. unfold Sample.accepting, Sample.failing_writes.
  now rewrite H.
Defined.

(** ** What [update_specs] leaves alone *)

(** X9: [update_specs] leaves the value of every attribute as it is
    that no attribute with [manifest] in its name matches as a pattern,
    the compression (in any case) apart, and it leaves the channel names
    and the channel count as they are; read back, the region of the spec
    is the region of the call over the spec's own channels. *)
Theorem update_specs_keeps_other_attributes ef nm spec p spec' name :
  update_specs ef nm spec p = Ret spec' ->
  p_rm_manifest p = false \/ spares nm (extra_attribs spec) name ->
  iequals "Compression" name = false ->
  getattribute name spec' = getattribute name spec
  /\ channelnames spec' = channelnames spec
  /\ nchannels spec' = nchannels spec
  /\ spec_roi spec' = over_channels (p_roi p) (nchannels spec).
Proof.
  intros H Hsp Hcomp.
  split; [exact (update_specs_keeps_attribute ef nm spec p spec' name H Hsp Hcomp)|].
  destruct (update_specs_keeps ef nm spec p spec' H) as (H1 & H2 & H3 & _).
  now repeat split.
Qed.

Lemma update_specs_keeps_other_attributes_witness :
  let spec := nativespec (Sample.image ["R"; "G"; "B"; "A"] Sample.attribs) in
  let p :=
    initial_properties shrink_wrap
      (Sample.image ["R"; "G"; "B"; "A"] Sample.attribs)
      false false true false (Some "piz") false in
  exists spec',
    update_specs Sample.erasable Sample.same_name spec p = Ret spec'
    /\ getattribute "owner" spec' = VStr "studio"
    /\ getattribute "compression" spec' = VStr "piz"
    /\ map pv_name (extra_attribs spec') = ["Compression"; "owner"]
    /\ spec_roi spec' = mkROI 0 2 0 2 0 1 0 4.
Proof.
  cbv zeta. eexists. split; [vm_compute; reflexivity|].
  split; [|repeat split].
  refine (proj1 (update_specs_keeps_other_attributes Sample.erasable
                   Sample.same_name
                   (nativespec (Sample.image ["R"; "G"; "B"; "A"] Sample.attribs))
                   (initial_properties shrink_wrap
                      (Sample.image ["R"; "G"; "B"; "A"] Sample.attribs)
                      false false true false (Some "piz") false)
                   _ "owner" _ _ _)).
  - vm_compute. reflexivity.
  - right. intros a b Ha Hb.
    cbn in Ha, Hb.
    destruct Ha as [<-|[<-|[<-|[]]]]; destruct Hb as [<-|[<-|[<-|[]]]];
      vm_compute; intros; congruence.
  - reflexivity.
Defined.

(** ** What the metadata copy of a split lets through *)

(** X10: when the source's attributes have names that are distinct up
    to case and type tags that agree with their values, the metadata
    copy of a split returns, and the attributes it copies to a spec
    without attributes are the source's attributes in their order, as
    they are, less those whose name contains [manifest] when
    [rm_manifest] is set. *)
Theorem copy_metadata_drops_manifests_only rm attribs s :
  extra_attribs s = [] ->
  NoDup (map (fun a => lower (pv_name a)) attribs) ->
  Forall well_typed attribs ->
  exists s',
    copy_metadata rm attribs s = Ret s'
    /\ extra_attribs s'
       = filter (fun a => negb (rm && contains "manifest" (pv_name a))) attribs.
Proof.
  intros Hs Hnd Hty.
  rewrite (copy_metadata_typed rm attribs s Hty), Hs.
  eexists. split; [reflexivity|]. cbn [with_extra_attribs extra_attribs].
  exact (copy_metadata_filters rm attribs [] Hnd Hty).
Qed.

Lemma copy_metadata_drops_manifests_only_witness :
  exists s',
    copy_metadata true Sample.attribs (ImageSpec_new 2 2 4 "half") = Ret s'
    /\ map pv_name (extra_attribs s') = ["compression"; "owner"].
Proof.
  destruct (copy_metadata_drops_manifests_only true Sample.attribs
              (ImageSpec_new 2 2 4 "half")) as (s' & H & E).
  - reflexivity.
  - repeat constructor; cbn; intuition discriminate.
  - repeat constructor.
  - exists s'. split; [exact H|]. rewrite E. reflexivity.
Defined.

(** ** Flags that are not looked at *)

Section SamePlan.

Variable ef : ParamValue -> bool.
Variable nm : string -> string -> bool.
Variable answer : list call -> call -> bool.

Lemma update_specs_same_plan spec p q :
  same_plan p q -> update_specs ef nm spec p = update_specs ef nm spec q.
Proof.
  intros (Hrm & Hco & Hroi & _). unfold update_specs, compression_given.
  now rewrite Hrm, Hco, Hroi.
Qed.

Lemma copy_subimages_same_plan subs :
  forall image_in p q,
    same_plan p q ->
    match copy_subimages ef nm subs image_in p, copy_subimages ef nm subs image_in q with
    | Ret (p', last), Ret (q', last') => same_plan p' q' /\ last = last'
    | Raise e, Raise e' => e = e'
    | _, _ => False
    end.
Proof.
  induction subs as [|b subs IH]; intros image_in p q Hsame;
    cbn [copy_subimages].
  - split; [exact Hsame | reflexivity].
  - rewrite (update_specs_same_plan (nativespec b) p q Hsame).
    destruct (update_specs ef nm (nativespec b) q) as [spec|e]; cbn [bind];
      [|reflexivity].
    apply IH. destruct Hsame as (Hrm & Hco & Hroi & Hs & Hb & Hn).
    unfold same_plan.
    cbn [append_sub p_rm_manifest p_compression p_roi sub_specs sub_pixels
         sub_names].
    now rewrite Hrm, Hco, Hroi, Hs, Hb, Hn.
Qed.

Lemma write_subimages_same_specs dst p q bufs :
  sub_specs p = sub_specs q ->
  forall i log,
    write_subimages answer dst p i bufs log
    = write_subimages answer dst q i bufs log.
Proof.
  intros Hs. induction bufs as [|b bufs IH]; intros i log;
    cbn [write_subimages]; [reflexivity|].
  rewrite Hs. destruct (negb (i =? 0)); [|apply IH].
  destruct (index (sub_specs q) i) as [spec|e]; [|reflexivity].
  destruct (answer log (OpenAppend dst spec)); cbn [negb];
    [apply IH | reflexivity].
Qed.

Lemma write_output_same_plan dst image_in p q :
  same_plan p q ->
  write_output ef nm answer dst image_in p = write_output ef nm answer dst image_in q.
Proof.
  intros Hsame. unfold write_output.
  rewrite (update_specs_same_plan (nativespec image_in) p q Hsame).
  destruct Hsame as (_ & _ & Hroi & Hs & Hb & _).
  rewrite Hs, Hb, Hroi.
  now rewrite (write_subimages_same_specs dst p q (sub_pixels q) Hs).
Qed.

End SamePlan.

(** X11: [fix_channels] only ever acts when a flat image is split: for a
    source that is multi-part already, and for a flat one that is not
    split, [rewrap] returns the same and makes the same calls with the
    flag set or not. *)
Theorem rewrap_fix_channels_only_in_split nz ef nm answer src dst ac mp rm fx fx'
    comp vb :
  more_subimages src <> [] \/ mp = false ->
  rewrap nz ef nm answer src dst ac mp rm fx comp vb
  = rewrap nz ef nm answer src dst ac mp rm fx' comp vb.
Proof.
  intros Hcase. unfold rewrap, plan_subimages.
  set (image_in := first_subimage src).
  set (p := initial_properties nz image_in ac mp rm fx comp vb).
  set (q := initial_properties nz image_in ac mp rm fx' comp vb).
  assert (Hsame : same_plan p q) by (repeat split).
  destruct (1 <? nsubimages src) eqn:Hn.
  - assert (H := copy_subimages_same_plan ef nm (subimages src) image_in p q Hsame).
    destruct (copy_subimages ef nm (subimages src) image_in p) as [[p' l]|e];
      destruct (copy_subimages ef nm (subimages src) image_in q) as [[q' l']|e'];
      try contradiction.
    + destruct H as (H & ->). now apply write_output_same_plan.
    + now subst.
  - destruct Hcase as [Hmore | ->].
    + exfalso. apply Z.ltb_ge in Hn. unfold nsubimages, subimages in Hn.
      destruct (more_subimages src); [contradiction | cbn [List.length] in Hn; lia].
    + change (p_multipart p) with false. change (p_multipart q) with false.
      cbv iota. now apply write_output_same_plan.
Qed.

Lemma rewrap_fix_channels_only_in_split_witness :
  rewrap shrink_wrap Sample.erasable Sample.same_name Sample.accepting
    (Sample.flat ["R"; "G"; "B"; "A"; "depth.z"]) "out.exr"
    false false false true None false
  = rewrap shrink_wrap Sample.erasable Sample.same_name Sample.accepting
      (Sample.flat ["R"; "G"; "B"; "A"; "depth.z"]) "out.exr"
      false false false false None false.
Proof.
  apply rewrap_fix_channels_only_in_split. right. reflexivity.
Defined.

(** X12: for a source that has more than one subimage, [multipart] makes
    no difference: [rewrap] passes the subimages on as they are grouped
    in the source, whether a split was asked for or not. *)
Theorem rewrap_multipart_source_ignores_flag nz ef nm answer src dst ac mp mp' rm
    fx comp vb :
  more_subimages src <> [] ->
  rewrap nz ef nm answer src dst ac mp rm fx comp vb
  = rewrap nz ef nm answer src dst ac mp' rm fx comp vb.
Proof.
  intros Hmore. unfold rewrap, plan_subimages.
  set (image_in := first_subimage src).
  set (p := initial_properties nz image_in ac mp rm fx comp vb).
  set (q := initial_properties nz image_in ac mp' rm fx comp vb).
  assert (Hsame : same_plan p q) by (repeat split).
  assert (Hn : (1 <? nsubimages src) = true).
  { apply Z.ltb_lt. unfold nsubimages, subimages.
    destruct (more_subimages src); [contradiction | cbn [List.length]; lia]. }
  rewrite Hn.
  assert (H := copy_subimages_same_plan ef nm (subimages src) image_in p q Hsame).
  destruct (copy_subimages ef nm (subimages src) image_in p) as [[p' l]|e];
    destruct (copy_subimages ef nm (subimages src) image_in q) as [[q' l']|e'];
    try contradiction.
  - destruct H as (H & ->). now apply write_output_same_plan.
  - now subst.
Qed.

Lemma rewrap_multipart_source_ignores_flag_witness :
  rewrap shrink_wrap Sample.erasable Sample.same_name Sample.accepting Sample.two_parts
    "out.exr" false true false false None false
  = rewrap shrink_wrap Sample.erasable Sample.same_name Sample.accepting Sample.two_parts
      "out.exr" false false false false None false.
Proof.
  apply rewrap_multipart_source_ignores_flag. discriminate.
Defined.

(** * The file names of a sequence *)

(** ** The matcher *)

Lemma take_drop k : forall s, (Re.take k s ++ Re.drop k s)%string = s.
Proof.
  induction k as [|k IH]; intros s; [reflexivity|].
  destruct s as [|a s]; [reflexivity|]. cbn [Re.take Re.drop String.append].
  now rewrite IH.
Qed.

Lemma string_app_assoc (a b c : string) :
  ((a ++ b) ++ c)%string = (a ++ (b ++ c))%string.
Proof. induction a as [|x a IH]; cbn [String.append]; [reflexivity | now rewrite IH]. Qed.

Lemma string_app_nil_r (a : string) : (a ++ "")%string = a.
Proof. induction a as [|x a IH]; cbn [String.append]; [reflexivity | now rewrite IH]. Qed.

Lemma string_length_app (a b : string) :
  String.length (a ++ b) = (String.length a + String.length b)%nat.
Proof. induction a as [|x a IH]; cbn [String.append String.length]; [reflexivity | now rewrite IH]. Qed.

Lemma prefix_app (l s : string) : String.prefix l (l ++ s) = true.
Proof.
  induction l as [|a l IH]; cbn [String.append String.prefix];
    [now destruct s|].
  destruct (Ascii.ascii_dec a a); [exact IH | contradiction].
Qed.

Lemma prefix_split (l : string) :
  forall s, String.prefix l s = true -> s = (l ++ Re.drop (String.length l) s)%string.
Proof.
  induction l as [|a l IH]; intros s H; [reflexivity|].
  destruct s as [|b s]; cbn [String.prefix] in H; [discriminate|].
  destruct (Ascii.ascii_dec a b); [|discriminate].
  subst. cbn [String.append String.length Re.drop]. now rewrite <- IH.
Qed.

(** Whatever way a pattern matches, the text matched and the text left
    make up the string. *)
Lemma matches_split r :
  forall s g m rest, In (g, m, rest) (Re.matches r s) -> s = (m ++ rest)%string.
Proof.
  induction r as [c|l|c lo hi|r1 IH1 r2 IH2|r1 IH1 r2 IH2|r IH];
    intros s g m rest Hin; cbn [Re.matches] in Hin.
  - destruct s as [|a s]; [contradiction|].
    destruct (c a); [|contradiction].
    destruct Hin as [H|[]]. now injection H as <- <- <-.
  - destruct (String.prefix l s) eqn:Hp; [|contradiction].
    destruct Hin as [H|[]]. injection H as <- <- <-.
    now apply prefix_split.
  - apply in_map_iff in Hin. destruct Hin as (k & H & _).
    injection H as <- <- <-. symmetry. apply take_drop.
  - apply in_flat_map in Hin. destruct Hin as ([[g1 m1] rest1] & H1 & H2).
    apply in_map_iff in H2. destruct H2 as ([[g2 m2] rest2] & H & H2).
    injection H as <- <- <-.
    rewrite (IH1 _ _ _ _ H1), (IH2 _ _ _ _ H2).
    now rewrite string_app_assoc.
  - apply in_app_or in Hin. destruct Hin as [H|H]; eauto.
  - apply in_map_iff in Hin. destruct Hin as ([[g0 m0] rest0] & H & H0).
    injection H as <- <- <-. eauto.
Qed.

Lemma matches_head_split r s g m rest tl :
  Re.matches r s = (g, m, rest) :: tl -> s = (m ++ rest)%string.
Proof.
  intros H. apply (matches_split r s g m rest). rewrite H. now left.
Qed.

(** A position is looked at once and every match moves on, so one turn
    more than the string is long is all [findall] can take: more turns
    change nothing. *)
Lemma findall_from_turns_suffice r :
  forall turns s extra,
    (String.length s < turns)%nat ->
    Re.findall_from (turns + extra) r s = Re.findall_from turns r s.
Proof.
  induction turns as [|turns IH]; intros s extra Hlen; [lia|].
  cbn [Nat.add Re.findall_from].
  destruct (Re.matches r s) as [|[[g m] rest] tl] eqn:Hm.
  - destruct s as [|a s]; [reflexivity|].
    apply IH. cbn [String.length] in Hlen. lia.
  - assert (Hs := matches_head_split _ _ _ _ _ _ Hm).
    destruct m as [|b m].
    + destruct s as [|a s]; [reflexivity|].
      f_equal. apply IH. cbn [String.length] in Hlen. lia.
    + f_equal. apply IH. rewrite Hs in Hlen.
      rewrite string_length_app in Hlen. cbn [String.length] in Hlen. lia.
Qed.

Lemma run_length_app c run rest :
  all_in c run = true ->
  starts_in c rest = false ->
  Re.run_length c (run ++ rest) = String.length run.
Proof.
  intros Hrun Hrest. induction run as [|a run IH];
    cbn [String.append Re.run_length String.length all_in] in *.
  - destruct rest as [|b rest]; [reflexivity|].
    cbn [starts_in Re.run_length] in *. now rewrite Hrest.
  - apply andb_prop in Hrun. destruct Hrun as (-> & Hrun). now rewrite IH.
Qed.

Lemma run_length_none c s :
  starts_in c s = false -> Re.run_length c s = O.
Proof.
  destruct s as [|a s]; [reflexivity|]. cbn [starts_in Re.run_length].
  now intros ->.
Qed.

Lemma take_app run : forall rest, Re.take (String.length run) (run ++ rest) = run.
Proof.
  induction run as [|a run IH]; intros rest;
    cbn [String.length String.append Re.take]; [reflexivity | now rewrite IH].
Qed.

Lemma drop_app run : forall rest, Re.drop (String.length run) (run ++ rest) = rest.
Proof.
  induction run as [|a run IH]; intros rest;
    cbn [String.length String.append Re.drop]; [reflexivity | apply IH].
Qed.

Lemma counts_desc_head lo hi :
  (lo <= hi)%nat -> exists tl, Re.counts_desc lo hi = hi :: tl.
Proof.
  intros H. destruct hi as [|h]; cbn [Re.counts_desc].
  - assert (E : Nat.ltb 0 lo = false) by (apply Nat.ltb_ge; lia).
    rewrite E. eauto.
  - assert (E : Nat.ltb (S h) lo = false) by (apply Nat.ltb_ge; lia).
    rewrite E. eauto.
Qed.

Lemma counts_desc_none lo hi :
  (hi < lo)%nat -> Re.counts_desc lo hi = [].
Proof.
  intros H. assert (E : Nat.ltb hi lo = true) by (apply Nat.ltb_lt; lia).
  destruct hi; cbn [Re.counts_desc]; now rewrite E.
Qed.

(** A run of the class that is within the bounds and ends where the
    class ends is the first choice of a repetition. *)
Lemma matches_repeat_run c lo hi run rest :
  all_in c run = true ->
  starts_in c rest = false ->
  (lo <= String.length run <= hi)%nat ->
  exists tl,
    Re.matches (Re.Repeat c lo (Some hi)) (run ++ rest) = ([], run, rest) :: tl.
Proof.
  intros Hrun Hrest Hlen. cbn [Re.matches].
  rewrite (run_length_app c run rest Hrun Hrest), Nat.min_l by lia.
  destruct (counts_desc_head lo (String.length run)) as (tl & ->); [lia|].
  cbn [map]. rewrite take_app, drop_app. eauto.
Qed.

(** Where the string does not start with the class, a repetition of at
    least one character does not match. *)
Lemma matches_repeat_none c lo hi s :
  starts_in c s = false -> (0 < lo)%nat ->
  Re.matches (Re.Repeat c lo hi) s = [].
Proof.
  intros Hs Hlo. cbn [Re.matches]. rewrite (run_length_none c s Hs).
  destruct hi as [h|]; cbn [Nat.min]; now rewrite counts_desc_none by lia.
Qed.

(** ** [detect_sequence] *)

Lemma contains_suffix needle pre :
  forall s, contains needle s = true -> contains needle (pre ++ s) = true.
Proof.
  induction pre as [|a pre IH]; intros s H; cbn [String.append]; [exact H|].
  cbn [contains]. rewrite (IH s H). apply orb_true_r.
Qed.

Lemma contains_prefix needle s :
  String.prefix needle s = true -> contains needle s = true.
Proof. intros H. destruct s; cbn [contains]; now rewrite H. Qed.

Lemma findall_from_no_hit r :
  forall turns s,
    (forall pre t, s = (pre ++ t)%string -> Re.matches r t = []) ->
    Re.findall_from turns r s = [].
Proof.
  induction turns as [|turns IH]; intros s H; [reflexivity|].
  cbn [Re.findall_from]. rewrite (H ""%string s eq_refl).
  destruct s as [|a s]; [reflexivity|].
  apply IH. intros pre t ->. apply (H (String a pre) t). reflexivity.
Qed.

(** Where the padding pattern matches, [.exr] or [.EXR] follows. *)
Lemma padding_pattern_needs_extension t :
  Re.matches padding_pattern t <> [] ->
  contains ".exr" t = true \/ contains ".EXR" t = true.
Proof.
  intros H. destruct (Re.matches padding_pattern t) as [|[[g m] rest] tl] eqn:Hm;
    [contradiction|].
  assert (Hin : In (g, m, rest) (Re.matches padding_pattern t))
    by (rewrite Hm; now left).
  unfold padding_pattern in Hin. cbn [Re.matches] in Hin.
  apply in_flat_map in Hin. destruct Hin as ([[g1 m1] rest1] & H1 & H2).
  assert (Ht : t = (m1 ++ rest1)%string).
  { apply (matches_split
             (Re.Group (Re.Alt (Re.Repeat Re.digit 4 (Some 8%nat))
                               (Re.Repeat (Re.one_of "#") 4 (Some 8%nat))))
             t g1 m1 rest1). exact H1. }
  apply in_map_iff in H2. destruct H2 as ([[g2 m2] rest2] & _ & H2).
  apply in_flat_map in H2. destruct H2 as ([[g3 m3] rest3] & H3 & H4).
  destruct rest1 as [|a rest1]; [contradiction|].
  destruct (Re.one_of "." a) eqn:Hdot; [|contradiction].
  destruct H3 as [H3|[]]. injection H3 as <- <- <-.
  assert (Ha : a = "."%char).
  { unfold Re.one_of in Hdot. cbn in Hdot. rewrite orb_false_r in Hdot.
    now apply Ascii.eqb_eq in Hdot. }
  subst a.
  apply in_map_iff in H4. destruct H4 as ([[g4 m4] rest4] & _ & H4).
  apply in_map_iff in H4. destruct H4 as ([[g5 m5] rest5] & _ & H4).
  apply in_app_or in H4. rewrite Ht.
  destruct H4 as [H4|H4]; [left | right]; apply contains_suffix,
    contains_prefix; cbn [Re.matches] in H4;
    [destruct (String.prefix "exr" rest1) eqn:Hp
    |destruct (String.prefix "EXR" rest1) eqn:Hp]; try contradiction;
    cbn [String.prefix];
    (destruct (Ascii.ascii_dec "." "."); [exact Hp | contradiction]).
Qed.

Lemma detect_sequence_without_extension path :
  contains ".exr" path = false ->
  contains ".EXR" path = false ->
  detect_sequence path = path.
Proof.
  intros H1 H2. unfold detect_sequence, Re.findall.
  rewrite findall_from_no_hit; [reflexivity|].
  intros pre t ->.
  destruct (Re.matches padding_pattern t) eqn:Hm; [reflexivity|].
  destruct (padding_pattern_needs_extension t) as [H|H];
    [rewrite Hm; discriminate | |];
    apply (contains_suffix _ pre) in H; congruence.
Qed.

(** X13: [detect_sequence] returns a path that contains neither [.exr]
    nor [.EXR] as it is. *)
Theorem detect_sequence_leaves_other_paths path :
  contains ".exr" path = false ->
  contains ".EXR" path = false ->
  detect_sequence path = path.
Proof. exact (detect_sequence_without_extension path). Qed.

Lemma detect_sequence_leaves_other_paths_witness :
  detect_sequence "/shots/1001/plate.1001.png" = "/shots/1001/plate.1001.png".
Proof.
  apply detect_sequence_leaves_other_paths; reflexivity.
Defined.

Lemma one_of_single c a : Re.one_of (String c "") a = true -> a = c.
Proof.
  unfold Re.one_of. cbn. rewrite orb_false_r. apply Ascii.eqb_eq.
Qed.

Lemma plain_differs a f :
  plain a = true -> Re.digit f || Re.one_of "#" f = true -> f <> a.
Proof.
  unfold plain. intros Ha Hf E. subst. rewrite Hf in Ha. discriminate.
Qed.

Lemma prefix_mismatch f old a s :
  f <> a -> String.prefix (String f old) (String a s) = false.
Proof.
  intros H. cbn [String.prefix]. destruct (Ascii.ascii_dec f a); [contradiction | reflexivity].
Qed.

(** The padding pattern does not match where a plain character stands. *)
Lemma padding_pattern_plain_start t :
  starts_in plain t = true -> Re.matches padding_pattern t = [].
Proof.
  intros H. destruct t as [|a t]; [discriminate|]. cbn [starts_in] in H.
  unfold plain in H. apply negb_true_iff, orb_false_iff in H.
  destruct H as (Hd & Hh).
  unfold padding_pattern.
  assert (E : Re.matches
                (Re.Group (Re.Alt (Re.Repeat Re.digit 4 (Some 8%nat))
                                  (Re.Repeat (Re.one_of "#") 4 (Some 8%nat))))
                (String a t) = []).
  { change (map (fun h : Re.hit => let '(g, m, rest) := h in (m :: g, m, rest))
              (Re.matches (Re.Repeat Re.digit 4 (Some 8%nat)) (String a t)
               ++ Re.matches (Re.Repeat (Re.one_of "#") 4 (Some 8%nat))
                    (String a t)) = []).
    rewrite !matches_repeat_none by (cbn [starts_in]; auto; lia).
    reflexivity. }
  change (Re.matches (Re.Seq ?r1 ?r2) ?s)
    with (flat_map
            (fun h1 : Re.hit =>
               let '(g1, m1, rest1) := h1 in
               map (fun h2 : Re.hit =>
                      let '(g2, m2, rest2) := h2 in
                      (g1 ++ g2, (m1 ++ m2)%string, rest2))
                   (Re.matches r2 rest1))
            (Re.matches r1 s)).
  now rewrite E.
Qed.

Lemma findall_from_skips_plain stem :
  forall turns rest,
    all_in plain stem = true ->
    Re.findall_from (String.length stem + turns) padding_pattern (stem ++ rest)
    = Re.findall_from turns padding_pattern rest.
Proof.
  induction stem as [|a stem IH]; intros turns rest H; [reflexivity|].
  cbn [all_in] in H. apply andb_prop in H. destruct H as (Ha & Hstem).
  cbn [String.length Nat.add String.append Re.findall_from].
  rewrite padding_pattern_plain_start by exact Ha.
  now apply IH.
Qed.

Lemma starts_all c a s : all_in c (String a s) = true -> c a = true.
Proof. cbn [all_in]. intros H. now apply andb_prop in H. Qed.

(** A padding of 4 to 8 digits or [#] before [.exr] or [.EXR] is what the
    pattern matches first. *)
Lemma padding_pattern_hit frame ext :
  all_in Re.digit frame = true \/ all_in (Re.one_of "#") frame = true ->
  (4 <= String.length frame <= 8)%nat ->
  ext = "exr" \/ ext = "EXR" ->
  exists tl,
    Re.matches padding_pattern (frame ++ "." ++ ext)
    = ([frame; ext], (frame ++ "." ++ ext)%string, ""%string) :: tl.
Proof.
  intros Hframe Hlen Hext.
  assert (Hdot : forall c, c = Re.digit \/ c = Re.one_of "#" ->
                           starts_in c ("." ++ ext) = false).
  { intros c [-> | ->]; reflexivity. }
  assert (H1 : exists tl,
             Re.matches
               (Re.Group (Re.Alt (Re.Repeat Re.digit 4 (Some 8%nat))
                                 (Re.Repeat (Re.one_of "#") 4 (Some 8%nat))))
               (frame ++ "." ++ ext)
             = ([frame], frame, ("." ++ ext)%string) :: tl).
  { change (exists tl,
             map (fun h : Re.hit => let '(g, m, rest) := h in (m :: g, m, rest))
               (Re.matches (Re.Repeat Re.digit 4 (Some 8%nat))
                  (frame ++ "." ++ ext)
                ++ Re.matches (Re.Repeat (Re.one_of "#") 4 (Some 8%nat))
                     (frame ++ "." ++ ext))
             = ([frame], frame, ("." ++ ext)%string) :: tl).
    destruct Hframe as [Hd | Hh].
    - destruct (matches_repeat_run Re.digit 4 8 frame ("." ++ ext) Hd)
        as (tl & ->); [apply Hdot; now left | exact Hlen |].
      cbn [app map]. eauto.
    - rewrite matches_repeat_none; [|clear Hdot|lia].
      + destruct (matches_repeat_run (Re.one_of "#") 4 8 frame ("." ++ ext) Hh)
          as (tl & ->); [apply Hdot; now right | exact Hlen |].
        cbn [app map]. eauto.
      + destruct frame as [|f frame]; [cbn in Hlen; lia|].
        cbn [String.append starts_in]. apply starts_all in Hh.
        apply one_of_single in Hh. now subst. }
  destruct H1 as (tl1 & H1).
  unfold padding_pattern.
  change (Re.matches (Re.Seq ?r1 ?r2) (frame ++ "." ++ ext))
    with (flat_map
            (fun h1 : Re.hit =>
               let '(g1, m1, rest1) := h1 in
               map (fun h2 : Re.hit =>
                      let '(g2, m2, rest2) := h2 in
                      (g1 ++ g2, (m1 ++ m2)%string, rest2))
                   (Re.matches r2 rest1))
            (Re.matches r1 (frame ++ "." ++ ext))).
  rewrite H1. cbn [flat_map].
  destruct Hext as [-> | ->]; cbn; eauto.
Qed.

Lemma replace_from_keeps_plain old new f old' :
  old = String f old' ->
  Re.digit f || Re.one_of "#" f = true ->
  forall stem turns rest,
    all_in plain stem = true ->
    PyStr.replace_from (String.length stem + turns) old new (stem ++ rest)
    = (stem ++ PyStr.replace_from turns old new rest)%string.
Proof.
  intros -> Hf. induction stem as [|a stem IH]; intros turns rest H;
    [reflexivity|].
  cbn [all_in] in H. apply andb_prop in H. destruct H as (Ha & Hstem).
  cbn [String.length Nat.add String.append PyStr.replace_from].
  rewrite prefix_mismatch by (apply (plain_differs a f Ha Hf)).
  now rewrite IH.
Qed.

Lemma replace_from_all_plain old new f old' :
  old = String f old' ->
  Re.digit f || Re.one_of "#" f = true ->
  forall s turns,
    all_in plain s = true -> PyStr.replace_from turns old new s = s.
Proof.
  intros -> Hf. induction s as [|a s IH]; intros turns H.
  - destruct turns; reflexivity.
  - destruct turns as [|turns]; [reflexivity|].
    cbn [all_in] in H. apply andb_prop in H. destruct H as (Ha & Hs).
    cbn [PyStr.replace_from].
    rewrite prefix_mismatch by (apply (plain_differs a f Ha Hf)).
    now rewrite IH.
Qed.

Lemma detect_sequence_at_padding stem frame ext :
  all_in plain stem = true ->
  all_in Re.digit frame = true \/ all_in (Re.one_of "#") frame = true ->
  (4 <= String.length frame <= 8)%nat ->
  ext = "exr" \/ ext = "EXR" ->
  detect_sequence (stem ++ frame ++ "." ++ ext)
  = (stem ++ "%" ++ PyStr.format_02d (String.length frame) ++ "d" ++ "." ++ ext)%string.
Proof.
  intros Hstem Hframe Hlen Hext.
  destruct (padding_pattern_hit frame ext Hframe Hlen Hext) as (tl & Hhit).
  destruct frame as [|f frame']; [cbn in Hlen; lia|].
  set (frame := String f frame') in *.
  assert (Hf : Re.digit f || Re.one_of "#" f = true).
  { destruct Hframe as [H|H]; apply starts_all in H; rewrite H;
      [reflexivity | apply orb_true_r]. }
  unfold detect_sequence, Re.findall.
  rewrite string_length_app.
  replace (S (String.length stem + String.length (frame ++ "." ++ ext)))
    with (String.length stem + S (String.length (frame ++ "." ++ ext)))%nat
    by lia.
  rewrite findall_from_skips_plain by exact Hstem.
  cbn [Re.findall_from]. rewrite Hhit.
  change ((frame ++ "." ++ ext)%string)
    with (String f (frame' ++ "." ++ ext)%string) at 1.
  cbv iota.
  unfold PyStr.replace. subst frame. cbv iota.
  set (frame := String f frame') in *.
  set (new := ("%" ++ PyStr.format_02d (String.length frame) ++ "d")%string).
  rewrite string_length_app.
  rewrite (replace_from_keeps_plain frame new f frame' eq_refl Hf stem _ _ Hstem).
  f_equal.
  rewrite string_length_app.
  replace (String.length frame + String.length ("." ++ ext))%nat
    with (S (String.length frame' + String.length ("." ++ ext)))
    by (subst frame; cbn [String.length]; lia).
  cbn [PyStr.replace_from]. rewrite prefix_app, drop_app.
  rewrite (replace_from_all_plain frame new f frame' eq_refl Hf);
    [|destruct Hext as [-> | ->]; reflexivity].
  subst new. now rewrite !string_app_assoc.
Qed.

(** X14: for a path made of a stem without digits and without [#], a
    padding of 4 to 8 digits or of 4 to 8 [#], and [.exr] or [.EXR],
    [detect_sequence] returns the stem, the printf field [%0Nd] with N
    the length of the padding, and the extension. *)
Theorem detect_sequence_names_the_padding stem frame ext :
  all_in plain stem = true ->
  all_in Re.digit frame = true \/ all_in (Re.one_of "#") frame = true ->
  (4 <= String.length frame <= 8)%nat ->
  ext = "exr" \/ ext = "EXR" ->
  detect_sequence (stem ++ frame ++ "." ++ ext)
  = (stem ++ "%" ++ PyStr.format_02d (String.length frame) ++ "d" ++ "." ++ ext)%string.
Proof. exact (detect_sequence_at_padding stem frame ext). Qed.

Lemma detect_sequence_names_the_padding_witness :
  detect_sequence "/renders/beauty.0101.exr" = "/renders/beauty.%04d.exr".
Proof.
  apply (detect_sequence_names_the_padding "/renders/beauty." "0101" "exr").
  - reflexivity.
  - left. reflexivity.
  - cbn. lia.
  - left. reflexivity.
Defined.

(** ** [frame_of] *)

Lemma digit_not_separator a : Re.digit a = true -> Re.one_of "._" a = false.
Proof.
  destruct a as [[] [] [] [] [] [] [] []]; try discriminate; reflexivity.
Qed.

Lemma letter_not_separator a : Re.letter a = true -> Re.one_of "._" a = false.
Proof.
  destruct a as [[] [] [] [] [] [] [] []]; try discriminate; reflexivity.
Qed.

Lemma letter_not_digit a : Re.letter a = true -> Re.digit a = false.
Proof.
  destruct a as [[] [] [] [] [] [] [] []]; try discriminate; reflexivity.
Qed.

Lemma digit_is_any a : Re.digit a = true -> Re.any a = true.
Proof.
  destruct a as [[] [] [] [] [] [] [] []]; try discriminate; reflexivity.
Qed.

Lemma letter_is_any a : Re.letter a = true -> Re.any a = true.
Proof.
  destruct a as [[] [] [] [] [] [] [] []]; try discriminate; reflexivity.
Qed.

Lemma all_in_weaken (c d : ascii -> bool) s :
  (forall a, c a = true -> d a = true) -> all_in c s = true -> all_in d s = true.
Proof.
  intros H. induction s as [|a s IH]; cbn [all_in]; [reflexivity|].
  intros Hs. apply andb_prop in Hs. destruct Hs as (Ha & Hs).
  now rewrite (H a Ha), IH.
Qed.

Lemma all_in_app c s t :
  all_in c (s ++ t) = all_in c s && all_in c t.
Proof.
  induction s as [|a s IH]; cbn [String.append all_in]; [reflexivity|].
  now rewrite IH, andb_assoc.
Qed.

Lemma matches_seq_unfold r1 r2 s :
  Re.matches (Re.Seq r1 r2) s
  = flat_map
      (fun h1 : Re.hit =>
         let '(g1, m1, rest1) := h1 in
         map (fun h2 : Re.hit =>
                let '(g2, m2, rest2) := h2 in
                (g1 ++ g2, (m1 ++ m2)%string, rest2))
             (Re.matches r2 rest1))
      (Re.matches r1 s).
Proof. reflexivity. Qed.

Lemma matches_seq_head r1 r2 s g1 m1 rest1 tl1 g2 m2 rest2 tl2 :
  Re.matches r1 s = (g1, m1, rest1) :: tl1 ->
  Re.matches r2 rest1 = (g2, m2, rest2) :: tl2 ->
  exists tl,
    Re.matches (Re.Seq r1 r2) s = (g1 ++ g2, (m1 ++ m2)%string, rest2) :: tl.
Proof.
  intros H1 H2. rewrite matches_seq_unfold, H1. cbn [flat_map].
  rewrite H2. cbn [map app]. eauto.
Qed.

Lemma matches_seq_none r1 r2 s :
  Re.matches r1 s = [] -> Re.matches (Re.Seq r1 r2) s = [].
Proof. intros H. now rewrite matches_seq_unfold, H. Qed.

Lemma matches_class_hit c a s :
  c a = true ->
  Re.matches (Re.Class c) (String a s) = [([], String a "", s)].
Proof. intros H. cbn [Re.matches]. now rewrite H. Qed.

Lemma matches_class_none c s :
  starts_in c s = false -> Re.matches (Re.Class c) s = [].
Proof.
  destruct s as [|a s]; [reflexivity|]. cbn [starts_in Re.matches].
  now intros ->.
Qed.


Lemma run_length_all c s : all_in c s = true -> Re.run_length c s = String.length s.
Proof.
  intros H. rewrite <- (string_app_nil_r s) at 1.
  now apply run_length_app.
Qed.

Lemma drop_app_plus stem : forall j s,
  Re.drop (String.length stem + j) (stem ++ s) = Re.drop j s.
Proof.
  induction stem as [|a stem IH]; intros j s; [reflexivity|].
  cbn [String.length Nat.add String.append Re.drop]. apply IH.
Qed.

Lemma counts_desc_step lo hi :
  (lo <= S hi)%nat -> Re.counts_desc lo (S hi) = S hi :: Re.counts_desc lo hi.
Proof.
  intros H. cbn [Re.counts_desc].
  assert (E : Nat.ltb (S hi) lo = false) by (apply Nat.ltb_ge; lia).
  now rewrite E.
Qed.

(** Of the lengths tried from the longest down, the first that leads to
    a match decides. *)
Lemma flat_map_counts_first {A : Type} (G : nat -> list A) lo L h t :
  (lo <= L)%nat ->
  G L = h :: t ->
  forall d,
    (forall k, (L < k <= L + d)%nat -> G k = []) ->
    exists tl, flat_map G (Re.counts_desc lo (L + d)) = h :: tl.
Proof.
  intros Hlo HL. induction d as [|d IH]; intros Hnone.
  - rewrite Nat.add_0_r. destruct (counts_desc_head lo L Hlo) as (tl & ->).
    cbn [flat_map]. rewrite HL. cbn [app]. eauto.
  - rewrite Nat.add_succ_r, counts_desc_step by lia.
    cbn [flat_map]. rewrite (Hnone (S (L + d))) by lia. cbn [app].
    apply IH. intros k Hk. apply Hnone. lia.
Qed.

Lemma letters_start_no_separator ext :
  all_in Re.letter ext = true ->
  forall j, starts_in (Re.one_of "._") (Re.drop j ext) = false.
Proof.
  induction ext as [|a ext IH]; intros H j.
  - now destruct j.
  - cbn [all_in] in H. apply andb_prop in H. destruct H as (Ha & Hext).
    destruct j as [|j]; cbn [Re.drop starts_in].
    + now apply letter_not_separator.
    + now apply IH.
Qed.

Lemma letters_start_no_digit ext :
  all_in Re.letter ext = true -> starts_in Re.digit ext = false.
Proof.
  destruct ext as [|a ext]; [reflexivity|]. cbn [all_in starts_in].
  intros H. apply andb_prop in H. now apply letter_not_digit.
Qed.

(** The tail of the frame pattern matches nowhere inside the digits, the
    dot and the letters that end a path. *)
Lemma frame_tail_none_inside ext :
  all_in Re.letter ext = true ->
  forall frame,
    all_in Re.digit frame = true ->
    forall j, Re.matches frame_tail (Re.drop j (frame ++ "." ++ ext)) = [].
Proof.
  intros Hext. induction frame as [|d frame IH]; intros Hframe j.
  - cbn [String.append]. destruct j as [|j]; cbn [Re.drop].
    + unfold frame_tail. rewrite matches_seq_unfold.
      rewrite matches_class_hit by reflexivity. cbn [flat_map].
      rewrite (matches_seq_none (Re.Group (Re.Repeat Re.digit 4 (Some 8%nat)))).
      * reflexivity.
      * change (map (fun h : Re.hit => let '(g, m, rest) := h in (m :: g, m, rest))
                  (Re.matches (Re.Repeat Re.digit 4 (Some 8%nat)) ext) = []).
        rewrite matches_repeat_none; [reflexivity | | lia].
        now apply letters_start_no_digit.
    + apply matches_seq_none, matches_class_none.
      now apply letters_start_no_separator.
  - cbn [all_in] in Hframe. apply andb_prop in Hframe.
    destruct Hframe as (Hd & Hframe).
    cbn [String.append]. destruct j as [|j]; cbn [Re.drop].
    + apply matches_seq_none, matches_class_none. cbn [starts_in].
      now apply digit_not_separator.
    + now apply IH.
Qed.

(** A separator, 4 to 8 digits, a dot and 3 or 4 letters are matched by
    the tail of the frame pattern, to the end, with the digits as group. *)
Lemma frame_tail_hit sep frame ext :
  Re.one_of "._" sep = true ->
  all_in Re.digit frame = true ->
  (4 <= String.length frame <= 8)%nat ->
  all_in Re.letter ext = true ->
  (3 <= String.length ext <= 4)%nat ->
  exists m tl,
    Re.matches frame_tail (String sep (frame ++ "." ++ ext))
    = ([frame], m, ""%string) :: tl.
Proof.
  intros Hsep Hframe Hflen Hext Helen.
  destruct (matches_repeat_run Re.digit 4 8 frame ("." ++ ext) Hframe)
    as (tl1 & H1); [reflexivity | exact Hflen |].
  assert (H1' : Re.matches (Re.Group (Re.Repeat Re.digit 4 (Some 8%nat)))
                  (frame ++ "." ++ ext)
                = ([frame], frame, ("." ++ ext)%string)
                  :: map (fun h : Re.hit =>
                            let '(g, m, rest) := h in (m :: g, m, rest)) tl1).
  { change (map (fun h : Re.hit => let '(g, m, rest) := h in (m :: g, m, rest))
              (Re.matches (Re.Repeat Re.digit 4 (Some 8%nat))
                 (frame ++ "." ++ ext))
            = ([frame], frame, ("." ++ ext)%string)
              :: map (fun h : Re.hit =>
                        let '(g, m, rest) := h in (m :: g, m, rest)) tl1).
    now rewrite H1. }
  destruct (matches_repeat_run Re.letter 3 4 ext "" Hext eq_refl Helen)
    as (tl2 & H2).
  rewrite string_app_nil_r in H2.
  destruct (matches_seq_head (Re.Class (Re.one_of "."))
              (Re.Repeat Re.letter 3 (Some 4%nat)) ("." ++ ext)
              [] "." ext [] [] ext "" tl2 eq_refl H2) as (tl3 & H3).
  destruct (matches_seq_head _ _ _ _ _ _ _ _ _ _ _ H1' H3) as (tl4 & H4).
  destruct (matches_seq_head (Re.Class (Re.one_of "._")) _
              (String sep (frame ++ "." ++ ext)) [] (String sep "")
              (frame ++ "." ++ ext) [] _ _ _ _
              (matches_class_hit _ sep _ Hsep) H4) as (tl5 & H5).
  unfold frame_tail. rewrite H5. cbn [app]. eauto.
Qed.

(** With a stem of at least one character before it, the frame pattern
    finds that match first, backing off from the end of the path. *)
Lemma frame_pattern_hit stem sep frame ext :
  stem <> ""%string ->
  all_in Re.any stem = true ->
  Re.one_of "._" sep = true ->
  all_in Re.digit frame = true ->
  (4 <= String.length frame <= 8)%nat ->
  all_in Re.letter ext = true ->
  (3 <= String.length ext <= 4)%nat ->
  exists m tl,
    Re.matches frame_pattern (stem ++ String sep (frame ++ "." ++ ext))
    = ([frame], m, ""%string) :: tl.
Proof.
  intros Hne Hstem Hsep Hframe Hflen Hext Helen.
  set (tail := String sep (frame ++ "." ++ ext)).
  destruct (frame_tail_hit sep frame ext Hsep Hframe Hflen Hext Helen)
    as (m & tl & Hhit). fold tail in Hhit.
  assert (Hany : all_in Re.any (stem ++ tail) = true).
  { rewrite all_in_app, Hstem. subst tail. cbn [all_in andb].
    rewrite !all_in_app.
    rewrite (all_in_weaken _ _ _ digit_is_any Hframe).
    rewrite (all_in_weaken _ _ _ letter_is_any Hext).
    assert (Hs : Re.any sep = true).
    { unfold Re.one_of in Hsep. cbn in Hsep. rewrite orb_false_r in Hsep.
      apply orb_prop in Hsep.
      destruct Hsep as [E|E]; apply Ascii.eqb_eq in E; now subst. }
    now rewrite Hs. }
  change frame_pattern with (Re.Seq (Re.Repeat Re.any 1 None) frame_tail).
  rewrite matches_seq_unfold.
  change (Re.matches (Re.Repeat Re.any 1 None) (stem ++ tail))
    with (map (fun k => (@nil string, Re.take k (stem ++ tail),
                         Re.drop k (stem ++ tail)))
              (Re.counts_desc 1 (Re.run_length Re.any (stem ++ tail)))).
  rewrite (run_length_all _ _ Hany), flat_map_concat_map, map_map,
    <- flat_map_concat_map, string_length_app.
  set (G := fun k =>
              map (fun h2 : Re.hit =>
                     let '(g2, m2, rest2) := h2 in
                     ([] ++ g2, (Re.take k (stem ++ tail) ++ m2)%string, rest2))
                  (Re.matches frame_tail (Re.drop k (stem ++ tail)))).
  assert (Hfirst : exists tl',
             flat_map G (Re.counts_desc 1 (String.length stem + String.length tail))
             = ([frame],
                (Re.take (String.length stem) (stem ++ tail) ++ m)%string,
                ""%string) :: tl').
  { apply flat_map_counts_first
      with (t := map (fun h2 : Re.hit =>
                        let '(g2, m2, rest2) := h2 in
                        ([] ++ g2,
                         (Re.take (String.length stem) (stem ++ tail) ++ m2)%string,
                         rest2)) tl).
    - destruct stem; [contradiction | cbn [String.length]; lia].
    - subst G. cbn beta. rewrite drop_app, Hhit. reflexivity.
    - intros k Hk. subst G. cbn beta.
      replace k with (String.length stem + (k - String.length stem))%nat by lia.
      rewrite drop_app_plus. subst tail.
      destruct (k - String.length stem)%nat as [|j] eqn:Hj; [lia|].
      cbn [Re.drop]. rewrite (frame_tail_none_inside ext Hext frame Hframe j).
      reflexivity. }
  destruct Hfirst as (tl' & Hfirst).
  subst G. cbn beta in Hfirst. rewrite Hfirst. eauto.
Qed.

Lemma findall_from_empty_frame turns :
  Re.findall_from turns frame_pattern "" = [].
Proof. destruct turns; reflexivity. Qed.

(** The frame of a path that ends in a separator, 4 to 8 digits, a dot
    and 3 or 4 letters. *)
Lemma frame_of_at_frame stem sep frame ext :
  stem <> ""%string ->
  all_in Re.any stem = true ->
  Re.one_of "._" sep = true ->
  all_in Re.digit frame = true ->
  (4 <= String.length frame <= 8)%nat ->
  all_in Re.letter ext = true ->
  (3 <= String.length ext <= 4)%nat ->
  frame_of (stem ++ String sep (frame ++ "." ++ ext))
  = Some (PyStr.int_of_digits frame).
Proof.
  intros Hne Hstem Hsep Hframe Hflen Hext Helen.
  destruct (frame_pattern_hit stem sep frame ext Hne Hstem Hsep Hframe Hflen
              Hext Helen) as (m & tl & Hhit).
  assert (Hm := matches_head_split _ _ _ _ _ _ Hhit).
  rewrite string_app_nil_r in Hm.
  unfold frame_of, Re.findall. cbn [Re.findall_from]. rewrite Hhit.
  destruct m as [|b m].
  - destruct stem; [contradiction | discriminate].
  - now rewrite findall_from_empty_frame.
Qed.

(** X15: for a path made of a non-empty stem without newline, a dot or
    an underscore, 4 to 8 digits, a dot and an extension of 3 or 4
    letters, [frame_of] returns the number the digits spell in decimal. *)
Theorem frame_of_reads_the_frame stem sep frame ext :
  stem <> ""%string ->
  all_in Re.any stem = true ->
  Re.one_of "._" sep = true ->
  all_in Re.digit frame = true ->
  (4 <= String.length frame <= 8)%nat ->
  all_in Re.letter ext = true ->
  (3 <= String.length ext <= 4)%nat ->
  frame_of (stem ++ String sep (frame ++ "." ++ ext))
  = Some (PyStr.int_of_digits frame).
Proof. exact (frame_of_at_frame stem sep frame ext). Qed.

Lemma frame_of_reads_the_frame_witness :
  frame_of "/renders/beauty_00012.jpeg" = Some 12.
Proof.
  apply (frame_of_reads_the_frame "/renders/beauty" "_" "00012" "jpeg").
  - discriminate.
  - reflexivity.
  - reflexivity.
  - reflexivity.
  - cbn. lia.
  - reflexivity.
  - cbn. lia.
Defined.

Lemma counts_desc_in lo hi k :
  In k (Re.counts_desc lo hi) -> (lo <= k <= hi)%nat.
Proof.
  induction hi as [|hi IH]; cbn [Re.counts_desc].
  - destruct (Nat.ltb_spec 0 lo); [contradiction|].
    intros [<-|[]]. lia.
  - destruct (Nat.ltb_spec (S hi) lo); [contradiction|].
    intros [<-|Hin]; [lia|]. apply IH in Hin. lia.
Qed.

Lemma take_within_run c : forall k s,
  (k <= Re.run_length c s)%nat ->
  all_in c (Re.take k s) = true /\ String.length (Re.take k s) = k.
Proof.
  induction k as [|k IH]; intros s H; [split; reflexivity|].
  destruct s as [|a s]; cbn [Re.run_length] in H; [lia|].
  destruct (c a) eqn:Ha; [|lia].
  cbn [Re.take all_in String.length]. rewrite Ha.
  destruct (IH s) as (H1 & H2); [lia|]. now rewrite H1, H2.
Qed.

(** Whatever the frame pattern matches, its group is 4 to 8 digits. *)
Lemma frame_pattern_group g m rest t :
  In (g, m, rest) (Re.matches frame_pattern t) ->
  exists frame,
    g = [frame] /\ all_in Re.digit frame = true
    /\ (4 <= String.length frame <= 8)%nat.
Proof.
  intros Hin.
  change frame_pattern with (Re.Seq (Re.Repeat Re.any 1 None) frame_tail) in Hin.
  rewrite matches_seq_unfold in Hin.
  apply in_flat_map in Hin. destruct Hin as ([[g1 m1] r1] & H1 & H2).
  cbn [Re.matches] in H1. apply in_map_iff in H1.
  destruct H1 as (k & H1 & _). injection H1 as <- _ _.
  apply in_map_iff in H2. destruct H2 as ([[g2 m2] r2] & H & H2).
  injection H as <- _ _. cbn [app].
  unfold frame_tail in H2. rewrite matches_seq_unfold in H2.
  apply in_flat_map in H2. destruct H2 as ([[g3 m3] r3] & H3 & H4).
  assert (Hg3 : g3 = []).
  { cbn [Re.matches] in H3. destruct r1 as [|a r1]; [contradiction|].
    destruct (Re.one_of "._" a); [|contradiction].
    destruct H3 as [H3|[]]. now injection H3. }
  subst g3.
  apply in_map_iff in H4. destruct H4 as ([[g4 m4] r4] & H & H4).
  injection H as <- _ _. cbn [app].
  rewrite matches_seq_unfold in H4.
  apply in_flat_map in H4. destruct H4 as ([[g5 m5] r5] & H5 & H6).
  apply in_map_iff in H6. destruct H6 as ([[g6 m6] r6] & H & H6).
  injection H as <- _ _.
  assert (Hg6 : g6 = []).
  { rewrite matches_seq_unfold in H6.
    apply in_flat_map in H6. destruct H6 as ([[g7 m7] r7] & H7 & H8).
    apply in_map_iff in H8. destruct H8 as ([[g8 m8] r8] & H & H8).
    injection H as <- _ _.
    cbn [Re.matches] in H7, H8.
    destruct r5 as [|a r5]; [contradiction|].
    destruct (Re.one_of "." a); [|contradiction].
    destruct H7 as [H7|[]]. injection H7 as <- _ _.
    apply in_map_iff in H8. destruct H8 as (k8 & H8 & _).
    now injection H8 as <- _ _. }
  subst g6. rewrite app_nil_r.
  change (Re.matches (Re.Group (Re.Repeat Re.digit 4 (Some 8%nat))) r3)
    with (map (fun h : Re.hit => let '(g, m, rest) := h in (m :: g, m, rest))
              (map (fun k => (@nil string, Re.take k r3, Re.drop k r3))
                   (Re.counts_desc 4
                      (Nat.min (Re.run_length Re.digit r3) 8)))) in H5.
  rewrite map_map in H5. apply in_map_iff in H5.
  destruct H5 as (k5 & H5 & Hk5). injection H5 as <- _ _.
  apply counts_desc_in in Hk5.
  destruct (take_within_run Re.digit k5 r3) as (Hd & Hl); [lia|].
  exists (Re.take k5 r3). rewrite Hl. repeat split; auto; lia.
Qed.

Lemma findall_from_in r g :
  forall turns s,
    In g (Re.findall_from turns r s) ->
    exists t m rest, In (g, m, rest) (Re.matches r t).
Proof.
  induction turns as [|turns IH]; intros s Hin; [contradiction|].
  cbn [Re.findall_from] in Hin.
  destruct (Re.matches r s) as [|[[g0 m0] rest0] tl] eqn:Hm.
  - destruct s as [|a s]; [contradiction | eauto].
  - assert (Hhead : In (g0, m0, rest0) (Re.matches r s))
      by (rewrite Hm; now left).
    destruct m0 as [|b m0].
    + destruct s as [|a s].
      * destruct Hin as [<-|[]]. eauto.
      * destruct Hin as [<-|Hin]; eauto.
    + destruct Hin as [<-|Hin]; eauto.
Qed.

Lemma int_of_digits_bound s :
  all_in Re.digit s = true ->
  0 <= PyStr.int_of_digits s < 10 ^ Z.of_nat (String.length s).
Proof.
  unfold PyStr.int_of_digits.
  enough (H : forall acc,
             0 <= acc -> all_in Re.digit s = true ->
             0 <= fold_left (fun n a => 10 * n + PyStr.digit_value a)
                    (list_ascii_of_string s) acc
             < (acc + 1) * 10 ^ Z.of_nat (String.length s)).
  { intros Hs. specialize (H 0 (Z.le_refl 0) Hs). lia. }
  induction s as [|a s IH]; intros acc Hacc Hs.
  - cbn. lia.
  - cbn [all_in] in Hs. apply andb_prop in Hs. destruct Hs as (Ha & Hs).
    cbn [list_ascii_of_string fold_left String.length].
    assert (Hv : 0 <= PyStr.digit_value a <= 9).
    { revert Ha. destruct a as [[] [] [] [] [] [] [] []]; try discriminate;
        intros _; cbv; split; discriminate. }
    specialize (IH (10 * acc + PyStr.digit_value a)).
    rewrite Nat2Z.inj_succ, Z.pow_succ_r by lia.
    assert (Hp : 0 < 10 ^ Z.of_nat (String.length s)) by (apply Z.pow_pos_nonneg; lia).
    destruct IH as (IH1 & IH2); [lia | exact Hs |].
    split; [exact IH1|]. nia.
Qed.

(** X16: a frame number that [frame_of] returns is never negative and
    has at most 8 decimal digits. *)
Theorem frame_of_range path n :
  frame_of path = Some n -> 0 <= n < 100000000.
Proof.
  unfold frame_of, Re.findall.
  destruct (Re.findall_from (S (String.length path)) frame_pattern path)
    as [|g l] eqn:Hall; [discriminate|].
  assert (Hin : In g (Re.findall_from (S (String.length path)) frame_pattern path))
    by (rewrite Hall; now left).
  apply findall_from_in in Hin. destruct Hin as (t & m & rest & Hin).
  apply frame_pattern_group in Hin.
  destruct Hin as (frame & -> & Hd & Hlen).
  destruct l; [|discriminate]. intros H. injection H as <-.
  assert (Hb := int_of_digits_bound frame Hd).
  assert (Hp : 10 ^ Z.of_nat (String.length frame) <= 10 ^ 8)
    by (apply Z.pow_le_mono_r; lia).
  change (10 ^ 8) with 100000000 in Hp. lia.
Qed.

Lemma frame_of_range_witness : 0 <= 1001 < 100000000.
Proof.
  apply (frame_of_range "/shots/1001/plate.1001.exr" 1001). reflexivity.
Defined.

(** ** [dst_path] *)

Lemma zeros_are_digits zeros :
  all_in (Ascii.eqb "0") zeros = true ->
  all_in Re.digit zeros = true /\ PyStr.int_of_digits zeros = 0.
Proof.
  intros H. split.
  - apply (all_in_weaken (Ascii.eqb "0")); [|exact H].
    intros a Ha. apply Ascii.eqb_eq in Ha. now subst.
  - unfold PyStr.int_of_digits.
    induction zeros as [|a zeros IH]; [reflexivity|].
    cbn [all_in] in H. apply andb_prop in H. destruct H as (Ha & H).
    apply Ascii.eqb_eq in Ha. subst a.
    cbn [list_ascii_of_string fold_left]. now apply IH.
Qed.

(** X17: a source whose frame number is zero is not given a frame of its
    own: whatever the output path, printf field or not, [dst_path]
    returns it as it is (or raises when it is a file and [overwrite] is
    off), and [%] is never applied. *)
Theorem dst_path_frame_zero_keeps_template percent fs stem sep zeros ext out ow :
  stem <> ""%string ->
  all_in Re.any stem = true ->
  Re.one_of "._" sep = true ->
  all_in (Ascii.eqb "0") zeros = true ->
  (4 <= String.length zeros <= 8)%nat ->
  all_in Re.letter ext = true ->
  (3 <= String.length ext <= 4)%nat ->
  dst_path percent fs (stem ++ String sep (zeros ++ "." ++ ext)) out ow
  = if Os.isfile fs out && negb ow then Os.Raise Os.RuntimeError
    else Os.Ret out.
Proof.
  intros Hne Hstem Hsep Hzeros Hlen Hext Helen.
  destruct (zeros_are_digits zeros Hzeros) as (Hd & Hz).
  unfold dst_path.
  rewrite (frame_of_at_frame stem sep zeros ext Hne Hstem Hsep Hd
             Hlen Hext Helen), Hz.
  reflexivity.
Qed.

Lemma dst_path_frame_zero_keeps_template_witness :
  dst_path (fun _ _ => Os.Raise Os.TypeError) (fun _ => None)
    "/in/plate.0000.exr" "/out/plate.%04d.exr" false
  = Os.Ret "/out/plate.%04d.exr"%string.
Proof.
  apply (dst_path_frame_zero_keeps_template (fun _ _ => Os.Raise Os.TypeError)
           (fun _ => None) "/in/plate" "." "0000" "exr"
           "/out/plate.%04d.exr" false).
  - discriminate.
  - reflexivity.
  - reflexivity.
  - reflexivity.
  - cbn. lia.
  - reflexivity.
  - cbn. lia.
Defined.

(** X18: for a source with a frame number other than zero and an output
    path that contains [%], [dst_path] is the output path formatted with
    that number: it returns it, or raises [RuntimeError] when it is a
    file and [overwrite] is off. *)
Theorem dst_path_fills_in_the_frame percent fs stem sep frame ext out ow d :
  stem <> ""%string ->
  all_in Re.any stem = true ->
  Re.one_of "._" sep = true ->
  all_in Re.digit frame = true ->
  (4 <= String.length frame <= 8)%nat ->
  all_in Re.letter ext = true ->
  (3 <= String.length ext <= 4)%nat ->
  PyStr.int_of_digits frame <> 0 ->
  contains "%" out = true ->
  percent out (PyStr.int_of_digits frame) = Os.Ret d ->
  dst_path percent fs (stem ++ String sep (frame ++ "." ++ ext)) out ow
  = if Os.isfile fs d && negb ow then Os.Raise Os.RuntimeError
    else Os.Ret d.
Proof.
  intros Hne Hstem Hsep Hd Hlen Hext Helen Hn Hpc Hfmt.
  unfold dst_path.
  rewrite (frame_of_at_frame stem sep frame ext Hne Hstem Hsep Hd Hlen Hext
             Helen).
  apply Z.eqb_neq in Hn. rewrite Hn, Hpc. cbn [negb andb].
  rewrite Hfmt. reflexivity.
Qed.

Lemma dst_path_fills_in_the_frame_witness :
  dst_path (fun _ n => Os.Ret ("/out/frame" ++ PyStr.str_of_nat (Z.to_nat n))%string)
    (fun _ => None) "/in/plate.0012.exr" "/out/frame%d" false
  = Os.Ret "/out/frame12"%string.
Proof.
  apply (dst_path_fills_in_the_frame
           (fun _ n => Os.Ret ("/out/frame" ++ PyStr.str_of_nat (Z.to_nat n))%string)
           (fun _ => None) "/in/plate" "." "0012" "exr" "/out/frame%d" false
           "/out/frame12").
  - discriminate.
  - reflexivity.
  - reflexivity.
  - reflexivity.
  - cbn. lia.
  - reflexivity.
  - cbn. lia.
  - discriminate.
  - reflexivity.
  - reflexivity.
Defined.

(** * The files of a run *)

Lemma write_same fs p c : Os.write fs p c p = Some c.
Proof. unfold Os.write. now rewrite String.eqb_refl. Qed.

Lemma write_other fs p c q : q <> p -> Os.write fs p c q = fs q.
Proof.
  intros H. unfold Os.write. apply String.eqb_neq in H. now rewrite H.
Qed.

Lemma delete_same fs p : Os.delete fs p p = None.
Proof. unfold Os.delete. now rewrite String.eqb_refl. Qed.

Lemma delete_other fs p q : q <> p -> Os.delete fs p q = fs q.
Proof.
  intros H. unfold Os.delete. apply String.eqb_neq in H. now rewrite H.
Qed.

Section InPlace.

Variable percent : string -> Z -> Os.outcome string.
Variable run_rewrap : Os.files -> string -> string -> option bool * Os.files.

Variable a : Arguments.
Variable backup_dir : string.
Variable st : loop_state.
Variable image content : string.

Hypothesis in_place : given (arg_output a) = None.
Hypothesis no_dryrun : arg_dryrun a = false.
Hypothesis is_file : w_files (l_world st) image = Some content.
Hypothesis no_backup_yet :
  w_files (l_world st) (backup_path backup_dir image) = None.
Hypothesis local : writes_dst_only run_rewrap.

Lemma backup_differs : backup_path backup_dir image <> image.
Proof. intros E. rewrite E in no_backup_yet. congruence. Qed.

(** What a turn in place does from the return of [rewrap] on. *)
Lemma process_file_in_place :
  process_file percent run_rewrap a backup_dir st image
  = let backup := backup_path backup_dir image in
    let fs1 := set_aside (w_files (l_world st)) image backup content in
    let '(result, fs2) := run_rewrap fs1 backup image in
    let calls := w_rewraps (l_world st) ++ [(backup, image)] in
    let ok := match result with Some b => b | None => false end in
    match (if negb ok then Os.move fs2 backup image
           else if arg_no_backup a then Os.remove fs2 backup
           else Os.Ret fs2) with
    | Os.Raise e =>
        (Some e, mkLoop (mkWorld fs2 calls) (l_prev_backup st) (l_done st))
    | Os.Ret fs3 =>
        (None, mkLoop (mkWorld fs3 calls) (l_prev_backup st) (l_done st + 1))
    end.
Proof.
  unfold process_file, set_aside. unfold Os.isfile at 1. rewrite is_file.
  cbn [negb]. rewrite in_place.
  fold (backup_path backup_dir image).
  unfold Os.isfile. rewrite no_backup_yet. rewrite no_dryrun.
  unfold Os.move at 1. rewrite is_file.
  cbv zeta.
  destruct (run_rewrap _ (backup_path backup_dir image) image)
    as [result fs2].
  rewrite andb_true_r. reflexivity.
Qed.

Lemma backup_survives_rewrap :
  let backup := backup_path backup_dir image in
  snd (run_rewrap (set_aside (w_files (l_world st)) image backup content)
         backup image) backup
  = Some content.
Proof.
  intros backup. rewrite (local _ backup image backup backup_differs).
  apply write_same.
Qed.

Lemma others_survive_rewrap q :
  let backup := backup_path backup_dir image in
  q <> image -> q <> backup ->
  snd (run_rewrap (set_aside (w_files (l_world st)) image backup content)
         backup image) q
  = w_files (l_world st) q.
Proof.
  intros backup H1 H2. rewrite (local _ backup image q H1).
  unfold set_aside. now rewrite write_other, delete_other.
Qed.

(** X19: converting a file in place when [rewrap] fails, by returning
    false or by raising, leaves every file as it was before the turn: the
    original is moved back from the backup directory over whatever
    [rewrap] wrote, and the turn ends without an exception. *)
Theorem failed_rewrap_restores_the_original :
  let backup := backup_path backup_dir image in
  let fs1 := set_aside (w_files (l_world st)) image backup content in
  fst (run_rewrap fs1 backup image) <> Some true ->
  exists st',
    process_file percent run_rewrap a backup_dir st image = (None, st')
    /\ (forall q, w_files (l_world st') q = w_files (l_world st) q)
    /\ w_rewraps (l_world st') = w_rewraps (l_world st) ++ [(backup, image)].
Proof.
  intros backup fs1 Hfail. rewrite process_file_in_place. cbv zeta.
  pose proof backup_survives_rewrap as Hb.
  pose proof others_survive_rewrap as Ho.
  cbv zeta in Hb, Ho. fold backup in Hb, Ho |- *. fold fs1 in Hb, Ho |- *.
  destruct (run_rewrap fs1 backup image) as [result fs2].
  cbn [fst snd] in *.
  assert (Hok : match result with Some b => b | None => false end = false).
  { destruct result as [[|]|]; congruence. }
  rewrite Hok. cbn [negb]. unfold Os.move. rewrite Hb.
  eexists. split; [reflexivity|]. cbn [l_world w_files w_rewraps].
  split; [|reflexivity].
  intros q. destruct (String.eqb_spec q image) as [->|Hi].
  - rewrite write_same. now rewrite is_file.
  - rewrite write_other by assumption.
    destruct (String.eqb_spec q backup) as [->|Hq].
    + rewrite delete_same. subst backup. now rewrite no_backup_yet.
    + rewrite delete_other by assumption. now apply Ho.
Qed.

(** X20: converting a file in place when [rewrap] returns true leaves the
    original in the backup directory, or nowhere with [no_backup]; the
    file itself is what [rewrap] wrote and no other file changes. *)
Theorem converted_file_keeps_a_backup :
  let backup := backup_path backup_dir image in
  let fs1 := set_aside (w_files (l_world st)) image backup content in
  fst (run_rewrap fs1 backup image) = Some true ->
  exists st',
    process_file percent run_rewrap a backup_dir st image = (None, st')
    /\ w_files (l_world st') backup
       = (if arg_no_backup a then None else Some content)
    /\ w_files (l_world st') image = snd (run_rewrap fs1 backup image) image
    /\ (forall q, q <> image -> q <> backup ->
          w_files (l_world st') q = w_files (l_world st) q).
Proof.
  intros backup fs1 Hok. rewrite process_file_in_place. cbv zeta.
  pose proof backup_survives_rewrap as Hb.
  pose proof others_survive_rewrap as Ho.
  pose proof backup_differs as Hd.
  cbv zeta in Hb, Ho. fold backup in Hb, Ho, Hd |- *. fold fs1 in Hb, Ho |- *.
  destruct (run_rewrap fs1 backup image) as [result fs2].
  cbn [fst snd] in *. subst result. cbn [negb].
  destruct (arg_no_backup a).
  - unfold Os.remove. rewrite Hb.
    eexists. split; [reflexivity|]. cbn [l_world w_files].
    split; [apply delete_same|].
    split; [apply delete_other; congruence|].
    intros q Hi Hq. rewrite delete_other by assumption. now apply Ho.
  - eexists. split; [reflexivity|]. cbn [l_world w_files].
    split; [exact Hb|]. split; [reflexivity|].
    intros q Hi Hq. now apply Ho.
Qed.

End InPlace.

Lemma failed_rewrap_restores_the_original_witness :
  exists st',
    process_file SampleRun.no_percent SampleRun.failing SampleRun.in_place
      "/seq/_BAK" SampleRun.start "/seq/plate.0001.exr" = (None, st')
    /\ (forall q, w_files (l_world st') q = SampleRun.disk q)
    /\ w_rewraps (l_world st')
       = [("/seq/_BAK/plate.0001.exr", "/seq/plate.0001.exr")].
Proof.
  apply (failed_rewrap_restores_the_original SampleRun.no_percent
           SampleRun.failing SampleRun.in_place "/seq/_BAK" SampleRun.start
           "/seq/plate.0001.exr" "original").
  - reflexivity.
  - reflexivity.
  - reflexivity.
  - reflexivity.
  - intros fs src dst q H. apply write_other. exact H.
  - discriminate.
Defined.

Lemma converted_file_keeps_a_backup_witness :
  exists st',
    process_file SampleRun.no_percent SampleRun.converting SampleRun.in_place
      "/seq/_BAK" SampleRun.start "/seq/plate.0001.exr" = (None, st')
    /\ w_files (l_world st') "/seq/_BAK/plate.0001.exr" = Some "original"
    /\ w_files (l_world st') "/seq/plate.0001.exr" = Some "converted"
    /\ (forall q, q <> "/seq/plate.0001.exr" ->
          q <> "/seq/_BAK/plate.0001.exr" ->
          w_files (l_world st') q = SampleRun.disk q).
Proof.
  apply (converted_file_keeps_a_backup SampleRun.no_percent
           SampleRun.converting SampleRun.in_place "/seq/_BAK" SampleRun.start
           "/seq/plate.0001.exr" "original").
  - reflexivity.
  - reflexivity.
  - reflexivity.
  - reflexivity.
  - intros fs src dst q H. apply write_other. exact H.
  - reflexivity.
Defined.

(** ** The loop of [main] *)

Section Loop.

Variable percent : string -> Z -> Os.outcome string.
Variable run_rewrap : Os.files -> string -> string -> option bool * Os.files.
Variable a : Arguments.
Variable backup_dir : string.

Lemma process_files_keeps (P : loop_state -> loop_state -> Prop) :
  (forall st, P st st) ->
  (forall st1 st2 st3, P st1 st2 -> P st2 st3 -> P st1 st3) ->
  (forall st f, P st (snd (process_file percent run_rewrap a backup_dir st f))) ->
  forall files st,
    P st (snd (process_files percent run_rewrap a backup_dir st files)).
Proof.
  intros Hrefl Htrans Hstep files.
  induction files as [|f files IH]; intros st; cbn [process_files].
  - apply Hrefl.
  - specialize (Hstep st f).
    destruct (process_file percent run_rewrap a backup_dir st f) as [[e|] st1].
    + exact Hstep.
    + apply Htrans with st1; [exact Hstep | apply IH].
Qed.

(** A dry run leaves the files and the calls as they are. *)
Lemma process_file_dry_run st f :
  arg_dryrun a = true ->
  l_world (snd (process_file percent run_rewrap a backup_dir st f)) = l_world st.
Proof.
  intros Hdry. unfold process_file.
  destruct (Os.isfile (w_files (l_world st)) f); [|reflexivity]. cbn [negb].
  destruct (given (arg_output a)) as [out|].
  - destruct (dst_path percent (w_files (l_world st)) f out (arg_overwrite a))
      as [dst|e]; [|reflexivity].
    destruct (Py.truthy dst); [|reflexivity]. cbn [negb].
    now rewrite Hdry.
  - destruct (Os.isfile (w_files (l_world st)) (Os.join backup_dir (Os.basename f)));
      [reflexivity|].
    now rewrite Hdry.
Qed.

(** With an output path a turn never binds [prev_backup]. *)
Lemma process_file_output_prev_backup st f out :
  given (arg_output a) = Some out ->
  l_prev_backup (snd (process_file percent run_rewrap a backup_dir st f))
  = l_prev_backup st.
Proof.
  intros Hout. unfold process_file.
  destruct (Os.isfile (w_files (l_world st)) f); [|reflexivity]. cbn [negb].
  rewrite Hout.
  destruct (dst_path percent (w_files (l_world st)) f out (arg_overwrite a))
    as [dst|e]; [|reflexivity].
  destruct (Py.truthy dst); [|reflexivity]. cbn [negb].
  destruct (arg_dryrun a); [reflexivity|].
  destruct (run_rewrap (w_files (l_world st)) f dst) as [result fs2].
  cbv zeta. rewrite andb_false_r.
  destruct (arg_no_backup a).
  - destruct (Os.remove fs2 f); reflexivity.
  - reflexivity.
Qed.

(** X21: in place, when every file that exists has a backup left from an
    earlier run, the loop of [main] ends without an exception, changes no
    file and never calls [rewrap]. *)
Theorem leftover_backups_stop_the_conversion files : forall st,
  given (arg_output a) = None ->
  (forall f, In f files ->
     Os.isfile (w_files (l_world st)) f = true ->
     Os.isfile (w_files (l_world st)) (backup_path backup_dir f) = true) ->
  exists st',
    process_files percent run_rewrap a backup_dir st files = (None, st')
    /\ l_world st' = l_world st
    /\ l_done st' = l_done st.
Proof.
  induction files as [|f files IH]; intros st Hin Hbak; cbn [process_files].
  - exists st. repeat split.
  - assert (Hstep : exists st1,
              process_file percent run_rewrap a backup_dir st f = (None, st1)
              /\ l_world st1 = l_world st /\ l_done st1 = l_done st).
    { unfold process_file.
      destruct (Os.isfile (w_files (l_world st)) f) eqn:Hf.
      - cbn [negb]. rewrite Hin.
        fold (backup_path backup_dir f).
        rewrite (Hbak f (or_introl eq_refl) Hf).
        eexists. repeat split.
      - exists st. repeat split. }
    destruct Hstep as (st1 & -> & Hw & Hd).
    destruct (IH st1 Hin) as (st' & Hrun & Hw' & Hd').
    { rewrite Hw. intros g Hg. apply Hbak. now right. }
    exists st'. rewrite Hrun. repeat split; congruence.
Qed.

(** X22: with an output path and [no_backup], a turn that reaches
    [rewrap] deletes the source file afterwards, whether [rewrap] returned
    true, returned false or raised; every other path is as [rewrap] left
    it. *)
Theorem no_backup_with_output_deletes_the_source st image out dst :
  let fs := w_files (l_world st) in
  let fs2 := snd (run_rewrap fs image dst) in
  given (arg_output a) = Some out ->
  arg_dryrun a = false ->
  arg_no_backup a = true ->
  Os.isfile fs image = true ->
  dst_path percent fs image out (arg_overwrite a) = Os.Ret dst ->
  Py.truthy dst = true ->
  Os.isfile fs2 image = true ->
  exists st',
    process_file percent run_rewrap a backup_dir st image = (None, st')
    /\ w_files (l_world st') image = None
    /\ (forall q, q <> image -> w_files (l_world st') q = fs2 q).
Proof.
  intros fs fs2 Hout Hdry Hnb Hfile Hdst Htrue Hkept. subst fs fs2.
  unfold process_file. rewrite Hfile. cbn [negb]. rewrite Hout, Hdst, Htrue.
  cbn [negb]. rewrite Hdry.
  destruct (run_rewrap (w_files (l_world st)) image dst) as [result fs2].
  cbn [snd] in Hkept. cbv zeta. rewrite andb_false_r, Hnb.
  unfold Os.remove. unfold Os.isfile in Hkept.
  destruct (fs2 image); [|discriminate].
  eexists. split; [reflexivity|]. cbn [l_world w_files snd].
  split; [apply delete_same|].
  intros q Hq. now apply delete_other.
Qed.

(** X23: with an output path and [overwrite] off, a turn calls [rewrap]
    only with the file of the turn as source and with a destination that
    is no file. *)
Theorem output_never_replaces_a_file st image out e st' :
  given (arg_output a) = Some out ->
  arg_overwrite a = false ->
  process_file percent run_rewrap a backup_dir st image = (e, st') ->
  w_rewraps (l_world st') = w_rewraps (l_world st)
  \/ exists dst,
       w_rewraps (l_world st') = w_rewraps (l_world st) ++ [(image, dst)]
       /\ Os.isfile (w_files (l_world st)) dst = false.
Proof.
  intros Hout How. unfold process_file.
  destruct (Os.isfile (w_files (l_world st)) image);
    [|intros [= <- <-]; now left].
  cbn [negb]. rewrite Hout. unfold dst_path. rewrite How.
  set (formatted := match frame_of image with
                    | Some n => if negb (n =? 0) && contains "%" out
                                then percent out n else Os.Ret out
                    | None => Os.Ret out
                    end).
  destruct formatted as [dst|err]; cbn [Os.bind];
    [|intros [= <- <-]; now left].
  rewrite andb_true_r.
  destruct (Os.isfile (w_files (l_world st)) dst) eqn:Hdst;
    [intros [= <- <-]; now left|].
  destruct (Py.truthy dst); [|intros [= <- <-]; now left]. cbn [negb].
  destruct (arg_dryrun a); [intros [= <- <-]; now left|].
  destruct (run_rewrap (w_files (l_world st)) image dst) as [result fs2].
  cbv zeta. rewrite andb_false_r.
  destruct (if arg_no_backup a then Os.remove fs2 image else Os.Ret fs2);
    intros [= <- <-]; right; exists dst; split; auto.
Qed.

(** X29: with [overwrite] off and an output path without [%] that is a
    file already, the loop of [main] stops with [RuntimeError] at the
    first input file that exists: nothing is changed and the files after
    it are not looked at. *)
Theorem existing_output_stops_the_run st image out rest :
  given (arg_output a) = Some out ->
  arg_overwrite a = false ->
  contains "%" out = false ->
  Os.isfile (w_files (l_world st)) out = true ->
  Os.isfile (w_files (l_world st)) image = true ->
  process_files percent run_rewrap a backup_dir st (image :: rest)
  = (Some Os.RuntimeError, st).
Proof.
  intros Hout How Hpc Hfile Himage. cbn [process_files].
  unfold process_file. rewrite Himage. cbn [negb]. rewrite Hout.
  unfold dst_path. rewrite Hpc, How.
  destruct (frame_of image); rewrite ?andb_false_r; cbn [Os.bind negb];
    now rewrite Hfile.
Qed.

End Loop.

Lemma leftover_backups_stop_the_conversion_witness :
  exists st',
    process_files SampleRun.no_percent SampleRun.converting SampleRun.in_place
      "/seq/_BAK" SampleRun.rerun ["/seq/plate.0001.exr"; "/seq/plate.0002.exr"]
    = (None, st')
    /\ l_world st' = l_world SampleRun.rerun
    /\ l_done st' = 0.
Proof.
  apply (leftover_backups_stop_the_conversion SampleRun.no_percent
           SampleRun.converting SampleRun.in_place "/seq/_BAK"
           ["/seq/plate.0001.exr"; "/seq/plate.0002.exr"] SampleRun.rerun).
  - reflexivity.
  - intros f [<-|[<-|[]]] H.
    + reflexivity.
    + discriminate H.
Defined.

Lemma no_backup_with_output_deletes_the_source_witness :
  exists st',
    process_file SampleRun.no_percent SampleRun.failing SampleRun.to_output
      "" SampleRun.start "/seq/plate.0001.exr" = (None, st')
    /\ w_files (l_world st') "/seq/plate.0001.exr" = None
    /\ (forall q, q <> "/seq/plate.0001.exr"%string ->
          w_files (l_world st') q
          = Os.write SampleRun.disk "/out/plate.exr" "partial" q).
Proof.
  apply (no_backup_with_output_deletes_the_source SampleRun.no_percent
           SampleRun.failing SampleRun.to_output "" SampleRun.start
           "/seq/plate.0001.exr" "/out/plate.exr" "/out/plate.exr");
    reflexivity.
Defined.

Lemma output_never_replaces_a_file_witness :
  let st' :=
    snd (process_file SampleRun.no_percent SampleRun.converting
           SampleRun.to_output "" SampleRun.start "/seq/plate.0001.exr") in
  w_rewraps (l_world st') = w_rewraps (l_world SampleRun.start)
  \/ exists dst,
       w_rewraps (l_world st')
       = w_rewraps (l_world SampleRun.start) ++ [("/seq/plate.0001.exr"%string, dst)]
       /\ Os.isfile SampleRun.disk dst = false.
Proof.
  apply (output_never_replaces_a_file SampleRun.no_percent SampleRun.converting
           SampleRun.to_output "" SampleRun.start "/seq/plate.0001.exr"
           "/out/plate.exr" None).
  - reflexivity.
  - reflexivity.
  - reflexivity.
Defined.

Lemma existing_output_stops_the_run_witness :
  process_files SampleRun.no_percent SampleRun.converting SampleRun.to_output
    "" (mkLoop (mkWorld (Os.write SampleRun.disk "/out/plate.exr" "kept") [])
          None 0)
    ["/seq/plate.0001.exr"; "/seq/plate.0002.exr"]
  = (Some Os.RuntimeError,
     mkLoop (mkWorld (Os.write SampleRun.disk "/out/plate.exr" "kept") [])
       None 0).
Proof.
  apply (existing_output_stops_the_run SampleRun.no_percent SampleRun.converting
           SampleRun.to_output ""
           (mkLoop (mkWorld (Os.write SampleRun.disk "/out/plate.exr" "kept") [])
              None 0)
           "/seq/plate.0001.exr" "/out/plate.exr" ["/seq/plate.0002.exr"]);
    reflexivity.
Defined.

(** ** [main] *)

Lemma detect_sequence_truthy path :
  Py.truthy path = true -> Py.truthy (detect_sequence path) = true.
Proof.
  intros H. unfold detect_sequence.
  destruct (Re.findall padding_pattern path) as [|[|padding ?] ?];
    try exact H.
  unfold PyStr.replace. destruct padding as [|p padding].
  - destruct path; reflexivity.
  - destruct path as [|c rest]; [discriminate|].
    cbn [String.length PyStr.replace_from].
    destruct (String.prefix (String p padding) (String c rest)); reflexivity.
Qed.

Lemma given_some s out : given s = Some out -> Py.truthy out = true.
Proof.
  unfold given. destruct s as [v|]; [|discriminate].
  destruct (Py.truthy v) eqn:E; [|discriminate]. now intros [= <-].
Qed.

Lemma given_truthy out : Py.truthy out = true -> given (Some out) = Some out.
Proof. intros H. unfold given. now rewrite H. Qed.

Section Main.

Variable percent : string -> Z -> Os.outcome string.
Variable py_int : string -> Os.outcome Z.
Variable glob : string -> list string.
Variable mkdir_fails : string -> bool.
Variable run_rewrap : Os.files -> string -> string -> option bool * Os.files.

(** X24: a dry run of [main] changes no file and never calls [rewrap],
    whatever the other arguments are.  (Directories are not part of the
    files here: in place, [bu_dir] still runs its [os.mkdir].) *)
Theorem dry_run_changes_nothing a fs :
  arg_dryrun a = true ->
  snd (main percent py_int glob mkdir_fails run_rewrap a fs) = mkWorld fs [].
Proof.
  intros Hdry. unfold main.
  assert (Hdry' : arg_dryrun (detect_arguments a) = true)
    by (unfold detect_arguments; destruct (arg_single_file a); exact Hdry).
  set (a' := detect_arguments a) in *. clearbody a'.
  destruct (find_files percent py_int glob (arg_input a') (arg_framerange a'))
    as [[|f files]|e]; [reflexivity| |reflexivity].
  destruct (match given (arg_output a') with
            | Some _ => _ | None => _ end) as [backup_dir prev_backup].
  pose proof (process_files_keeps percent run_rewrap a' backup_dir
                (fun s1 s2 => l_world s2 = l_world s1)
                (fun s => eq_refl)
                (fun s1 s2 s3 H12 H23 => eq_trans H23 H12)
                (fun s g => process_file_dry_run percent run_rewrap a'
                              backup_dir s g Hdry')
                (f :: files) (mkLoop (mkWorld fs []) prev_backup 0)) as Hkeep.
  destruct (process_files percent run_rewrap a' backup_dir
              (mkLoop (mkWorld fs []) prev_backup 0) (f :: files))
    as [[e|] st]; cbn [snd l_world] in *; [exact Hkeep|].
  destruct (arg_no_backup a'); [destruct (l_prev_backup st)|]; exact Hkeep.
Qed.

(** X25: with an output path and [no_backup], [main] ends with an
    exception whenever there is a file to process: the exception that
    stopped the loop, or else, also when every conversion succeeded,
    [NameError], because [prev_backup] is read at the end and only
    [bu_dir], which is not called, binds it. *)
Theorem output_with_no_backup_raises a fs out f files :
  let a' := detect_arguments a in
  given (arg_output a) = Some out ->
  arg_no_backup a = true ->
  find_files percent py_int glob (arg_input a') (arg_framerange a')
  = Os.Ret (f :: files) ->
  exists e,
    fst (main percent py_int glob mkdir_fails run_rewrap a fs) = Some e
    /\ (e = Os.NameError
        \/ exists st,
             process_files percent run_rewrap a' EmptyString
               (mkLoop (mkWorld fs []) None 0) (f :: files) = (Some e, st)).
Proof.
  intros a' Hout Hnb Hfiles. unfold main. fold a'.
  assert (Ha' : arg_no_backup a' = true
                /\ exists out', given (arg_output a') = Some out').
  { subst a'. unfold detect_arguments. destruct (arg_single_file a).
    - split; [assumption | now exists out].
    - cbn. split; [assumption|]. rewrite Hout.
      exists (detect_sequence out). apply given_truthy.
      apply detect_sequence_truthy. now apply given_some in Hout. }
  clearbody a'. destruct Ha' as (Hnb' & out' & Hout').
  rewrite Hfiles, Hout'.
  pose proof (process_files_keeps percent run_rewrap a' EmptyString
                (fun s1 s2 => l_prev_backup s2 = l_prev_backup s1)
                (fun s => eq_refl)
                (fun s1 s2 s3 H12 H23 => eq_trans H23 H12)
                (fun s g => process_file_output_prev_backup percent run_rewrap
                              a' EmptyString s g out' Hout')
                (f :: files) (mkLoop (mkWorld fs []) None 0)) as Hkeep.
  destruct (process_files percent run_rewrap a' EmptyString
              (mkLoop (mkWorld fs []) None 0) (f :: files))
    as [[e|] st] eqn:Hrun; cbn [snd fst l_prev_backup] in *.
  - exists e. split; [reflexivity|]. right. now exists st.
  - rewrite Hnb', Hkeep. exists Os.NameError. split; [reflexivity | now left].
Qed.

End Main.

Lemma dry_run_changes_nothing_witness :
  snd (main SampleRun.no_percent SampleRun.no_int SampleRun.no_glob
         (fun _ => false) SampleRun.converting
         (SampleRun.dry SampleRun.in_place) SampleRun.disk)
  = mkWorld SampleRun.disk [].
Proof.
  apply (dry_run_changes_nothing SampleRun.no_percent SampleRun.no_int
           SampleRun.no_glob (fun _ => false) SampleRun.converting
           (SampleRun.dry SampleRun.in_place) SampleRun.disk).
  reflexivity.
Defined.

Lemma output_with_no_backup_raises_witness :
  exists e,
    fst (main SampleRun.no_percent SampleRun.no_int SampleRun.no_glob
           (fun _ => false) SampleRun.converting SampleRun.to_output
           SampleRun.disk) = Some e
    /\ (e = Os.NameError
        \/ exists st,
             process_files SampleRun.no_percent SampleRun.converting
               SampleRun.to_output EmptyString
               (mkLoop (mkWorld SampleRun.disk []) None 0)
               ["/seq/plate.0001.exr"] = (Some e, st)).
Proof.
  apply (output_with_no_backup_raises SampleRun.no_percent SampleRun.no_int
           SampleRun.no_glob (fun _ => false) SampleRun.converting
           SampleRun.to_output SampleRun.disk "/out/plate.exr"
           "/seq/plate.0001.exr" []).
  - reflexivity.
  - reflexivity.
  - reflexivity.
Defined.

(** ** [find_files] and [find_sequence] *)

Lemma contains_char_false ch : forall s,
  contains (String ch "") s = false ->
  all_in (fun c => negb (Ascii.eqb c ch)) s = true.
Proof.
  induction s as [|a s IH]; [reflexivity|].
  cbn [contains String.prefix all_in].
  destruct (Ascii.ascii_dec ch a) as [<-|Hne].
  - now destruct s.
  - cbn [orb]. intros H. rewrite (IH H), andb_true_r.
    apply negb_true_iff, Ascii.eqb_neq. congruence.
Qed.

(** The pattern of [find_files] does not match where no [%] stands. *)
Lemma glob_pattern_needs_percent a rest :
  a <> "%"%char -> Re.matches glob_pattern (String a rest) = [].
Proof.
  intros H. unfold glob_pattern. cbn [Re.matches].
  rewrite (prefix_mismatch "%" "0" a rest) by congruence. reflexivity.
Qed.

Lemma sub_from_skips repl stem : forall turns tail,
  all_in (fun c => negb (Ascii.eqb c "%")) stem = true ->
  Re.sub_from (String.length stem + turns) glob_pattern repl (stem ++ tail)
  = (stem ++ Re.sub_from turns glob_pattern repl tail)%string.
Proof.
  induction stem as [|a stem IH]; intros turns tail H; [reflexivity|].
  cbn [all_in] in H. apply andb_prop in H. destruct H as (Ha & H).
  apply negb_true_iff, Ascii.eqb_neq in Ha.
  cbn [String.length String.append Nat.add Re.sub_from].
  rewrite (glob_pattern_needs_percent a _ Ha). f_equal. now apply IH.
Qed.

Section Finding.

Variable percent : string -> Z -> Os.outcome string.
Variable py_int : string -> Os.outcome Z.
Variable glob : string -> list string.

(** X26: without a frame range, the files [find_files] returns for what
    [detect_sequence] makes of [stem + padding + .exr] are the sorted
    results of the glob [stem*.exr], for a stem without digits, [#] and
    [%]: every file that starts with the stem, whatever stands in the
    place of the frame number. *)
Theorem find_files_globs_the_stem stem frame ext framerange :
  all_in plain stem = true ->
  contains "%" stem = false ->
  all_in Re.digit frame = true \/ all_in (Re.one_of "#") frame = true ->
  (4 <= String.length frame <= 8)%nat ->
  ext = "exr" \/ ext = "EXR" ->
  given framerange = None ->
  find_files percent py_int glob
    (detect_sequence (stem ++ frame ++ "." ++ ext)) framerange
  = Os.Ret (Os.sorted (glob (stem ++ "*." ++ ext))).
Proof.
  intros Hstem Hpc Hframe Hlen Hext Hrange.
  rewrite (detect_sequence_at_padding stem frame ext Hstem Hframe Hlen Hext).
  apply contains_char_false in Hpc.
  assert (Hn : (String.length frame = 4 \/ String.length frame = 5
                \/ String.length frame = 6 \/ String.length frame = 7
                \/ String.length frame = 8)%nat) by lia.
  set (tail := ("%" ++ PyStr.format_02d (String.length frame)
                ++ "d" ++ "." ++ ext)%string).
  assert (Htail : contains "%" tail = true
                  /\ Re.sub_from (S (String.length tail)) glob_pattern
                       (fun groups => ("*" ++ nth 1 groups "")%string) tail
                     = ("*." ++ ext)%string).
  { subst tail.
    destruct Hn as [-> | [-> | [-> | [-> | ->]]]];
      destruct Hext as [-> | ->]; split; reflexivity. }
  destruct Htail as (Hin & Hsub). clearbody tail.
  unfold find_files.
  rewrite (contains_suffix "%" stem tail Hin).
  cbn [negb]. rewrite Hrange. do 2 f_equal.
  unfold Re.sub. rewrite string_length_app.
  replace (S (String.length stem + String.length tail))
    with (String.length stem + S (String.length tail))%nat by lia.
  rewrite sub_from_skips by exact Hpc. now rewrite Hsub.
Qed.

(** X27: for a path without [.exr], [.EXR] and [%], [find_sequence]
    returns the path with its own frame number as first and last frame,
    without looking at the files: also when the file does not exist, and
    with [None] for both when [frame_of] finds no frame. *)
Theorem find_sequence_of_a_single_file path :
  contains ".exr" path = false ->
  contains ".EXR" path = false ->
  contains "%" path = false ->
  find_sequence percent py_int glob path
  = Os.Ret (path, frame_of path, frame_of path).
Proof.
  intros H1 H2 Hpc. unfold find_sequence, find_files.
  rewrite (detect_sequence_without_extension path H1 H2), Hpc. reflexivity.
Qed.

End Finding.

Lemma find_files_globs_the_stem_witness :
  find_files SampleRun.no_percent SampleRun.no_int
    (fun pattern => [pattern; "/seq/plate.final.exr"])
    (detect_sequence "/seq/plate.1001.exr") None
  = Os.Ret ["/seq/plate.*.exr"; "/seq/plate.final.exr"].
Proof.
  apply (find_files_globs_the_stem SampleRun.no_percent SampleRun.no_int
           (fun pattern => [pattern; "/seq/plate.final.exr"])
           "/seq/plate." "1001" "exr" None).
  - reflexivity.
  - reflexivity.
  - left. reflexivity.
  - cbn. lia.
  - left. reflexivity.
  - reflexivity.
Defined.

Lemma find_sequence_of_a_single_file_witness :
  find_sequence SampleRun.no_percent SampleRun.no_int SampleRun.no_glob
    "/seq/plate.1001.png"
  = Os.Ret ("/seq/plate.1001.png", Some 1001, Some 1001).
Proof.
  apply (find_sequence_of_a_single_file SampleRun.no_percent SampleRun.no_int
           SampleRun.no_glob "/seq/plate.1001.png"); reflexivity.
Defined.

(** ** The backup directory *)

Lemma rev_onto_app s : forall acc, Py.rev_onto s acc = (Py.rev s ++ acc)%string.
Proof.
  unfold Py.rev. induction s as [|a s IH]; intros acc; cbn [Py.rev_onto];
    [reflexivity|].
  rewrite (IH (String a acc)), (IH (String a "")).
  now rewrite string_app_assoc.
Qed.

Lemma rev_app (a b : string) : Py.rev (a ++ b) = (Py.rev b ++ Py.rev a)%string.
Proof.
  induction a as [|x a IH]; cbn [String.append].
  - now rewrite string_app_nil_r.
  - unfold Py.rev. cbn [Py.rev_onto].
    rewrite (rev_onto_app (a ++ b)), (rev_onto_app a).
    rewrite IH. now rewrite string_app_assoc.
Qed.

Lemma rev_involutive s : Py.rev (Py.rev s) = s.
Proof.
  induction s as [|a s IH]; [reflexivity|].
  change (String a s) with (String a "" ++ s)%string at 1.
  rewrite rev_app, rev_app, IH. reflexivity.
Qed.

Lemma all_in_rev c s : all_in c (Py.rev s) = all_in c s.
Proof.
  induction s as [|a s IH]; [reflexivity|].
  change (String a s) with (String a "" ++ s)%string at 1.
  rewrite rev_app, all_in_app, IH. cbn [Py.rev Py.rev_onto all_in].
  rewrite andb_true_r. apply andb_comm.
Qed.

Lemma split_head_at sep s : forall rest,
  all_in (fun c => negb (Ascii.eqb c sep)) s = true ->
  Py.split_head sep (s ++ String sep rest) = s.
Proof.
  induction s as [|a s IH]; intros rest H;
    cbn [String.append Py.split_head].
  - now rewrite Ascii.eqb_refl.
  - cbn [all_in] in H. apply andb_prop in H. destruct H as (Ha & H).
    apply negb_true_iff in Ha. rewrite Ha. f_equal. now apply IH.
Qed.

(** The last component of a path. *)
Lemma basename_of_file dir name :
  contains "/" name = false ->
  Os.basename (dir ++ "/" ++ name) = name.
Proof.
  intros H. apply contains_char_false in H. unfold Os.basename.
  rewrite rev_app, rev_app.
  change (Py.rev "/") with "/"%string.
  replace ((Py.rev name ++ "/") ++ Py.rev dir)%string
    with (Py.rev name ++ String "/" (Py.rev dir))%string
    by (now rewrite string_app_assoc).
  rewrite split_head_at by now rewrite all_in_rev.
  apply rev_involutive.
Qed.

(** The directory of a path whose directory does not end in a slash. *)
Lemma dirname_of_file d c name :
  c <> "/"%char ->
  contains "/" name = false ->
  Os.dirname ((d ++ String c "") ++ "/" ++ name) = (d ++ String c "")%string.
Proof.
  intros Hc Hname. unfold Os.dirname.
  rewrite basename_of_file by exact Hname.
  set (dir := (d ++ String c "")%string).
  replace (String.length (dir ++ "/" ++ name) - String.length name)%nat
    with (String.length (dir ++ "/")).
  2:{ rewrite !string_length_app. cbn [String.length]. lia. }
  rewrite <- string_app_assoc, take_app.
  assert (Hrev : Py.rev (dir ++ "/") = String "/" (String c (Py.rev d))).
  { subst dir. now rewrite !rev_app. }
  assert (Htruthy : Py.truthy (dir ++ "/") = true).
  { subst dir. destruct d; reflexivity. }
  assert (Hslash : all_in (Ascii.eqb "/") (dir ++ "/") = false).
  { rewrite <- all_in_rev, Hrev. cbn [all_in].
    apply Ascii.eqb_neq in Hc. rewrite Ascii.eqb_sym in Hc. rewrite Hc.
    reflexivity. }
  rewrite Htruthy, Hslash, Hrev. cbn [andb negb Py.lstrip].
  rewrite Ascii.eqb_refl. apply Ascii.eqb_neq in Hc. rewrite Hc.
  change (String c (Py.rev d)) with (String c "" ++ Py.rev d)%string.
  rewrite rev_app, rev_involutive. reflexivity.
Qed.

(** Joining a directory that does not end in a slash and a name. *)
Lemma join_to_directory d c name :
  c <> "/"%char ->
  contains "/" name = false ->
  Os.join (d ++ String c "") name = ((d ++ String c "") ++ "/" ++ name)%string.
Proof.
  intros Hc Hname. unfold Os.join.
  assert (Hp : String.prefix "/" name = false).
  { destruct (String.prefix "/" name) eqn:E; [|reflexivity].
    apply contains_prefix in E. congruence. }
  rewrite Hp.
  assert (Htruthy : Py.truthy (d ++ String c "") = true)
    by (destruct d; reflexivity).
  rewrite Htruthy, rev_app. cbn [negb orb Py.rev Py.rev_onto String.append].
  rewrite prefix_mismatch by congruence. reflexivity.
Qed.

(** X28: the backup of a file converted in place lies in the directory
    [_BAK] beside the input path, under the file's own name, whatever the
    directory of the file is. *)
Theorem backup_lies_beside_the_input mkdir_fails d c pattern dir name :
  c <> "/"%char ->
  contains "/" pattern = false ->
  contains "/" name = false ->
  backup_path
    (fst (bu_dir mkdir_fails ((d ++ String c "") ++ "/" ++ pattern)))
    (dir ++ "/" ++ name)
  = ((d ++ String c "") ++ "/_BAK/" ++ name)%string.
Proof.
  intros Hc Hpattern Hname. unfold backup_path, bu_dir. cbn [fst].
  rewrite (dirname_of_file d c pattern Hc Hpattern).
  rewrite (basename_of_file dir name Hname).
  rewrite (join_to_directory d c "_BAK" Hc eq_refl).
  replace ((d ++ String c "") ++ "/" ++ "_BAK")%string
    with (((d ++ String c "") ++ "/_BA") ++ String "K" "")%string
    by (now rewrite !string_app_assoc).
  rewrite (join_to_directory _ "K" name) by (congruence || exact Hname).
  now rewrite !string_app_assoc.
Qed.

Lemma backup_lies_beside_the_input_witness :
  backup_path (fst (bu_dir (fun _ => false) "/seq/plate.%04d.exr"))
    "/seq/plate.1001.exr"
  = "/seq/_BAK/plate.1001.exr"%string.
Proof.
  apply (backup_lies_beside_the_input (fun _ => false) "/se" "q"
           "plate.%04d.exr" "/seq" "plate.1001.exr").
  - discriminate.
  - reflexivity.
  - reflexivity.
Defined.
